(** * Talent optimizer: allocation model, legality rules and beam search

    A shallow embedding of [talents/models.py],
    [optimizer/talents/player_choice/__init__.py],
    [optimizer/algorithms/beam_search/__init__.py], [player/__init__.py],
    [talents/parsers/icy_veins/models.py] and
    [talents/converters/icy_veins/__init__.py].

    Python integers are [Z].  Exceptions are values of [exn] carried by the
    [result] monad.  The insertion-ordered dictionary
    [_selection_by_node_id] is an association list (its iteration order is
    observable); the dictionaries that are only read by key are [gmap]s. *)

From Stdlib Require Import Ascii.
From stdpp Require Import base option list gmap strings pretty sorting.

Local Open Scope Z_scope.

(** ** Exceptions *)

Inductive exn :=
  | ValueError
  | KeyError
  | IndexError
  | RuntimeError
  | DecrementNotPossible.

Inductive result (A : Type) :=
  | Ok (a : A)
  | Raise (e : exn).
Arguments Ok {A} a.
Arguments Raise {A} e.

#[global] Instance exn_eq_dec : EqDecision exn.
Proof. solve_decision. Defined.

#[global] Instance result_eq_dec `{EqDecision A} : EqDecision (result A).
Proof. solve_decision. Defined.

#[global] Instance result_ret : MRet result := @Ok.
#[global] Instance result_bind : MBind result := λ A B f m,
  match m with
  | Ok a => f a
  | Raise e => Raise e
  end.

(** [for x in l: s = f x s], stopping at the first exception. *)
Fixpoint for_each `{MRet M, MBind M} {A S} (f : A → S → M S) (l : list A)
    (s : S) : M S :=
  match l with
  | [] => mret s
  | x :: l' => s' ← f x s; for_each f l' s'
  end.

(** [[f x for x in l]], stopping at the first exception. *)
Fixpoint map_each {A B} (f : A → result B) (l : list A) : result (list B) :=
  match l with
  | [] => Ok []
  | x :: l' => y ← f x; ys ← map_each f l'; Ok (y :: ys)
  end.

(** ** Python built-ins *)

Definition sum (l : list Z) : Z := foldr Z.add 0 l.

(** [enumerate(l, start)] *)
Fixpoint enumerate_from {A} (start : Z) (l : list A) : list (Z * A) :=
  match l with
  | [] => []
  | x :: l' => (start, x) :: enumerate_from (start + 1) l'
  end.

Definition enumerate {A} (l : list A) : list (Z * A) := enumerate_from 0 l.

(** [l[:n]] *)
Definition slice_to {A} (n : Z) (l : list A) : list A :=
  if decide (0 ≤ n) then take (Z.to_nat n) l
  else take (length l - Z.to_nat (- n))%nat l.

(** [sorted(l, key=key)] and [l.sort(key=key, reverse=True)]: both are
    stable; [le k1 k2] is the comparison [k1 <= k2] on keys. *)
Section sorting.
Context {A K : Type} (le : K → K → bool) (key : A → K).

Fixpoint insert_sorted (x : A) (l : list A) : list A :=
  match l with
  | [] => [x]
  | y :: l' =>
      if le (key x) (key y) then x :: y :: l'
      else y :: insert_sorted x l'
  end.

Definition sorted (l : list A) : list A := foldr insert_sorted [] l.
End sorting.

(** ** Insertion-ordered dictionaries with string keys *)

Abbreviation dict V := (list (string * V)).

Fixpoint dict_get {V} (k : string) (d : dict V) : option V :=
  match d with
  | [] => None
  | (k', v) :: d' => if decide (k' = k) then Some v else dict_get k d'
  end.

Fixpoint dict_set {V} (k : string) (v : V) (d : dict V) : dict V :=
  match d with
  | [] => [(k, v)]
  | (k', v') :: d' =>
      if decide (k' = k) then (k, v) :: d' else (k', v') :: dict_set k v d'
  end.

Definition dict_keys {V} (d : dict V) : list string := d.*1.
Definition dict_values {V} (d : dict V) : list V := d.*2.

(** [d[k]] *)
Definition dict_item {V} (k : string) (d : dict V) : result V :=
  match dict_get k d with
  | Some v => Ok v
  | None => Raise KeyError
  end.

(** ** talents/models.py *)

Inductive Specialization := HAVOC | DEVOURER | VENGEANCE.

Record ChoiceNodeTalent := {
  talent_name : string;
  max_points : Z;
}.

(** [parent_nodes] and [child_nodes] hold references to other nodes of the
    template; the program only ever reads [node_id] through them, so a
    reference is represented by the id of the node it points to. *)
Record TalentTreeNode := {
  node_id : string;
  choices : list ChoiceNodeTalent;
  gate_id : Z;
  parent_nodes : list string;
  child_nodes : list string;
  sort_key : string;
}.

Module Gate.
Record Gate := {
  gate_id : Z;
  points_required_below : Z;
}.
End Gate.
Abbreviation Gate := Gate.Gate.

Record GateInfo := {
  gates : list Gate;
}.

Record TalentTree := {
  gate_info : GateInfo;
  nodes : list TalentTreeNode;
}.

#[global] Instance ChoiceNodeTalent_eq_dec : EqDecision ChoiceNodeTalent.
Proof. solve_decision. Defined.
#[global] Instance TalentTreeNode_eq_dec : EqDecision TalentTreeNode.
Proof. solve_decision. Defined.
#[global] Instance Gate_eq_dec : EqDecision Gate.
Proof. solve_decision. Defined.

(** ** player/__init__.py *)

Record Player := {
  name : string;
  level : Z;
  race : string;
}.

Definition get_available_spec_talent_points (p : Player) : result Z :=
  if decide (level p = 80) then Ok 30
  else if decide (level p = 90) then Ok 34
  else Raise ValueError.

(** ** optimizer/talents/player_choice: PlayerTalentNodeSelection *)

Record PlayerTalentNodeSelection := {
  node_reference : TalentTreeNode;
  points_spent_by_choice_index : list Z;
}.

#[global] Instance PlayerTalentNodeSelection_eq_dec :
  EqDecision PlayerTalentNodeSelection.
Proof. solve_decision. Defined.

(** [PlayerTalentNodeSelection.__init__] *)
Definition new_selection (node : TalentTreeNode) (points : list Z)
    : result PlayerTalentNodeSelection :=
  if decide (length points ≠ length (choices node)) then Raise ValueError
  else Ok {| node_reference := node; points_spent_by_choice_index := points |}.

Definition has_fully_skilled_choice (s : PlayerTalentNodeSelection) : bool :=
  bool_decide (Exists (λ cp : ChoiceNodeTalent * Z, max_points cp.1 = cp.2)
    (zip (choices (node_reference s)) (points_spent_by_choice_index s))).

Definition holds_talent_points (s : PlayerTalentNodeSelection) : bool :=
  bool_decide (Exists (λ p, p ≠ 0) (points_spent_by_choice_index s)).

Definition get_choice_indices_with_points (s : PlayerTalentNodeSelection)
    : list Z :=
  (filter (λ ip : Z * Z, 0 < ip.2)
     (enumerate (points_spent_by_choice_index s))).*1.

Definition violates_single_choice_rule (s : PlayerTalentNodeSelection) : bool :=
  let skilled_choices :=
    length (filter (λ p, 0 < p) (points_spent_by_choice_index s)) in
  bool_decide (1 < skilled_choices)%nat.

Definition remove_point_from_choice (s : PlayerTalentNodeSelection)
    (choice_index : Z) : result PlayerTalentNodeSelection :=
  if decide (choice_index < 0
             ∨ Z.of_nat (length (choices (node_reference s))) ≤ choice_index)
  then Raise ValueError
  else
    match points_spent_by_choice_index s !! Z.to_nat choice_index with
    | None => Raise IndexError
    | Some p =>
        if decide (p ≤ 0) then Raise ValueError
        else Ok {| node_reference := node_reference s;
                   points_spent_by_choice_index :=
                     <[Z.to_nat choice_index := p - 1]>
                       (points_spent_by_choice_index s) |}
    end.

Definition use_point_for_choice (s : PlayerTalentNodeSelection)
    (choice_index : Z) (bypass_single_choice : bool)
    : result PlayerTalentNodeSelection :=
  if decide (choice_index < 0
             ∨ Z.of_nat (length (choices (node_reference s))) ≤ choice_index)
  then Raise ValueError
  else if negb bypass_single_choice && violates_single_choice_rule s
  then Raise ValueError
  else
    match points_spent_by_choice_index s !! Z.to_nat choice_index,
          choices (node_reference s) !! Z.to_nat choice_index with
    | Some p, Some choice =>
        if decide (p >= max_points choice) then Raise ValueError
        else Ok {| node_reference := node_reference s;
                   points_spent_by_choice_index :=
                     <[Z.to_nat choice_index := p + 1]>
                       (points_spent_by_choice_index s) |}
    | _, _ => Raise IndexError
    end.

(** [for i in range(len(l)): l[i] = 0] *)
Definition reset_points (s : PlayerTalentNodeSelection)
    : PlayerTalentNodeSelection :=
  {| node_reference := node_reference s;
     points_spent_by_choice_index :=
       foldl (λ points i, <[i := 0]> points)
         (points_spent_by_choice_index s)
         (seq 0 (length (points_spent_by_choice_index s))) |}.

(** Returns the selection and the number of points added. *)
Definition fully_skill_choice (s : PlayerTalentNodeSelection)
    (choice_index : Z) (bypass_single_choice : bool)
    : result (PlayerTalentNodeSelection * Z) :=
  if decide (choice_index < 0
             ∨ Z.of_nat (length (choices (node_reference s))) ≤ choice_index)
  then Raise ValueError
  else if negb bypass_single_choice && violates_single_choice_rule s
  then Raise ValueError
  else
    match points_spent_by_choice_index s !! Z.to_nat choice_index,
          choices (node_reference s) !! Z.to_nat choice_index with
    | Some current, Some choice =>
        Ok ({| node_reference := node_reference s;
               points_spent_by_choice_index :=
                 <[Z.to_nat choice_index := max_points choice]>
                   (points_spent_by_choice_index s) |},
            max_points choice - current)
    | _, _ => Raise IndexError
    end.

(** Returns the selection and the number of points removed. *)
Definition unskill_choice (s : PlayerTalentNodeSelection) (choice_index : Z)
    : result (PlayerTalentNodeSelection * Z) :=
  if decide (choice_index < 0
             ∨ Z.of_nat (length (choices (node_reference s))) ≤ choice_index)
  then Raise ValueError
  else
    match points_spent_by_choice_index s !! Z.to_nat choice_index with
    | Some current =>
        Ok ({| node_reference := node_reference s;
               points_spent_by_choice_index :=
                 <[Z.to_nat choice_index := 0]>
                   (points_spent_by_choice_index s) |},
            current)
    | None => Raise IndexError
    end.

(** [PlayerTalentNodeSelection.to_talent_string] *)
Definition selection_to_talent_string (s : PlayerTalentNodeSelection) : string :=
  String.concat "/"
    ((λ cp : ChoiceNodeTalent * Z, talent_name cp.1 +:+ ":" +:+ pretty cp.2) <$>
       filter (λ cp : ChoiceNodeTalent * Z, 0 < cp.2)
         (zip (choices (node_reference s)) (points_spent_by_choice_index s))).

(** ** optimizer/talents/player_choice: PlayerTalentTree *)

Record PlayerTalentTree := {
  _tree_template : TalentTree;
  _template_node_by_id : gmap string TalentTreeNode;
  _max_points_available : Z;
  _selection_by_node_id : dict PlayerTalentNodeSelection;
  _spent_points_by_gate : gmap Z Z;
}.

(** [d.get(g, 0)], which is also what reading [d[g]] gives on a
    [defaultdict(int)]. *)
Definition gate_get (d : gmap Z Z) (g : Z) : Z := default 0 (d !! g).

(** [d[g] += x] on a [defaultdict(int)] *)
Definition gate_add (d : gmap Z Z) (g x : Z) : gmap Z Z :=
  <[g := gate_get d g + x]> d.

(** [{node.node_id: node for node in tree_template.nodes}] *)
Definition template_node_by_id (tpl : TalentTree) : gmap string TalentTreeNode :=
  foldl (λ m node, <[node_id node := node]> m) ∅ (nodes tpl).

Definition _get_empty_selections_dict (tpl : TalentTree)
    : result (dict PlayerTalentNodeSelection) :=
  for_each (λ node selection_by_node_id,
      selection ← new_selection node ((λ _, 0) <$> choices node);
      Ok (dict_set (node_id node) selection selection_by_node_id))
    (nodes tpl) [].

(** [PlayerTalentTree.__init__] *)
Definition new_PlayerTalentTree (tree_template : TalentTree)
    (max_points_available : Z) : result PlayerTalentTree :=
  selections ← _get_empty_selections_dict tree_template;
  Ok {| _tree_template := tree_template;
        _template_node_by_id := template_node_by_id tree_template;
        _max_points_available := max_points_available;
        _selection_by_node_id := selections;
        _spent_points_by_gate := ∅ |}.

Definition copy (t : PlayerTalentTree) : result PlayerTalentTree :=
  new_tree ← new_PlayerTalentTree (_tree_template t) (_max_points_available t);
  selections ← for_each (λ item selection_by_node_id,
      new_selection ← new_selection (node_reference item.2)
                        (points_spent_by_choice_index item.2);
      Ok (dict_set item.1 new_selection selection_by_node_id))
    (_selection_by_node_id t) (_selection_by_node_id new_tree);
  Ok {| _tree_template := _tree_template new_tree;
        _template_node_by_id := _template_node_by_id new_tree;
        _max_points_available := _max_points_available new_tree;
        _selection_by_node_id := selections;
        _spent_points_by_gate := _spent_points_by_gate t |}.

(** The inner loop of [skill_all_nodes] for one selection: the state is the
    selection's point list and the per-gate totals. *)
Definition skill_choice (except_for : gset (string * Z))
    (node : TalentTreeNode) (ic : Z * ChoiceNodeTalent)
    (st : list Z * gmap Z Z) : result (list Z * gmap Z Z) :=
  if bool_decide ((node_id node, ic.1) ∈ except_for) then Ok st
  else
    if decide (Z.to_nat ic.1 < length st.1)%nat then
      Ok (<[Z.to_nat ic.1 := max_points ic.2]> st.1,
          gate_add st.2 (gate_id node) (max_points ic.2))
    else Raise IndexError.

Fixpoint skill_selections (except_for : gset (string * Z))
    (d : dict PlayerTalentNodeSelection) (spent : gmap Z Z)
    : result (dict PlayerTalentNodeSelection * gmap Z Z) :=
  match d with
  | [] => Ok ([], spent)
  | (k, selection) :: d' =>
      st ← for_each (skill_choice except_for (node_reference selection))
             (enumerate (choices (node_reference selection)))
             (points_spent_by_choice_index selection, spent);
      rest ← skill_selections except_for d' st.2;
      Ok ((k, {| node_reference := node_reference selection;
                 points_spent_by_choice_index := st.1 |}) :: rest.1, rest.2)
  end.

Definition skill_all_nodes (t : PlayerTalentTree)
    (except_for : gset (string * Z)) : result PlayerTalentTree :=
  r ← skill_selections except_for (_selection_by_node_id t)
         (_spent_points_by_gate t);
  Ok {| _tree_template := _tree_template t;
        _template_node_by_id := _template_node_by_id t;
        _max_points_available := _max_points_available t;
        _selection_by_node_id := r.1;
        _spent_points_by_gate := r.2 |}.

(** [self._template_node_by_id[k]] *)
Definition template_item (t : PlayerTalentTree) (k : string)
    : result TalentTreeNode :=
  match _template_node_by_id t !! k with
  | Some n => Ok n
  | None => Raise KeyError
  end.

Definition to_talent_string (t : PlayerTalentTree) : result string :=
  keyed ← map_each (λ n,
      node ← template_item t (node_id (node_reference n));
      Ok (sort_key node, n))
    (dict_values (_selection_by_node_id t));
  Ok (String.concat "/"
        (filter (λ node_talent_string, node_talent_string ≠ "")
           (selection_to_talent_string <$>
              (sorted String.leb fst keyed).*2))).

(** The search for another parent with a fully skilled choice. *)
Fixpoint has_valid_parent (t : PlayerTalentTree) (node_id : string)
    (parents : list string) : result bool :=
  match parents with
  | [] => Ok false
  | parent_node :: parents' =>
      if decide (parent_node = node_id) then
        has_valid_parent t node_id parents'
      else
        parent_selection ← dict_item parent_node (_selection_by_node_id t);
        if has_fully_skilled_choice parent_selection then Ok true
        else has_valid_parent t node_id parents'
  end.

(** One iteration of the loop over [child_nodes]. *)
Definition check_child (t : PlayerTalentTree) (node_id : string)
    (is_single_choice_rule_violated : bool) (child_node : string) (_ : unit)
    : result unit :=
  child_node_selection ← dict_item child_node (_selection_by_node_id t);
  if holds_talent_points child_node_selection then
    has_valid ← has_valid_parent t node_id
                  (parent_nodes (node_reference child_node_selection));
    if negb (has_valid || is_single_choice_rule_violated)
    then Raise DecrementNotPossible
    else Ok tt
  else Ok tt.

(** The loop over the gates in ascending order of gate id. *)
Fixpoint gate_scan (spent : gmap Z Z) (node_gate_id : Z) (gs : list Gate)
    (running_total_spent : Z) : result unit :=
  match gs with
  | [] => Ok tt
  | gate :: gs' =>
      let points_needed_below := Gate.points_required_below gate in
      let points_in_gate := gate_get spent (Gate.gate_id gate) in
      if decide (Gate.gate_id gate > node_gate_id
                 ∧ points_needed_below >= running_total_spent)
      then Raise DecrementNotPossible
      else gate_scan spent node_gate_id gs'
             (running_total_spent + points_in_gate)
  end.

(** The body of the [try] block of [can_node_be_decremented]. *)
Definition can_node_be_decremented_body (t : PlayerTalentTree)
    (node_id : string) (choice_index : Z) : result unit :=
  if decide (dict_get node_id (_selection_by_node_id t) = None)
  then Raise ValueError
  else
    node_selection ← dict_item node_id (_selection_by_node_id t);
    if negb (holds_talent_points node_selection)
    then Raise DecrementNotPossible
    else
      let choice_indices_with_points :=
        get_choice_indices_with_points node_selection in
      if decide (choice_index ∉ choice_indices_with_points)
      then Raise DecrementNotPossible
      else
        let is_single_choice_rule_violated :=
          violates_single_choice_rule node_selection in
        template_node ← template_item t node_id;
        _ ← for_each (check_child t node_id is_single_choice_rule_violated)
              (child_nodes template_node) tt;
        gate_scan (_spent_points_by_gate t)
          (gate_id (node_reference node_selection))
          (sorted Z.leb Gate.gate_id (gates (gate_info (_tree_template t))))
          0.

Definition can_node_be_decremented (t : PlayerTalentTree)
    (node_id : string) (choice_index : Z) : result bool :=
  match can_node_be_decremented_body t node_id choice_index with
  | Ok _ => Ok true
  | Raise DecrementNotPossible => Ok false
  | Raise e => Raise e
  end.

Definition decrement_node (t : PlayerTalentTree) (node_id : string)
    (choice_index : Z) : result PlayerTalentTree :=
  node_selection ← dict_item node_id (_selection_by_node_id t);
  node_selection' ← remove_point_from_choice node_selection choice_index;
  let gate_id := gate_id (node_reference node_selection') in
  Ok {| _tree_template := _tree_template t;
        _template_node_by_id := _template_node_by_id t;
        _max_points_available := _max_points_available t;
        _selection_by_node_id :=
          dict_set node_id node_selection' (_selection_by_node_id t);
        _spent_points_by_gate :=
          gate_add (_spent_points_by_gate t) gate_id (-1) |}.

Definition get_total_points_spent (t : PlayerTalentTree) : Z :=
  sum ((λ selection, sum (points_spent_by_choice_index selection)) <$>
         dict_values (_selection_by_node_id t)).

Definition get_total_points_available (t : PlayerTalentTree) : Z :=
  _max_points_available t.

Definition get_node_ids_with_violated_single_choice (t : PlayerTalentTree)
    : list string :=
  (filter (λ item : string * PlayerTalentNodeSelection,
             violates_single_choice_rule item.2 = true)
     (_selection_by_node_id t)).*1.

(** ** optimizer/algorithms/beam_search: data *)

Record BeamSearchConfig := {
  beam_width : Z;
  max_explorations_per_candidate : Z;
}.

Definition default_config : BeamSearchConfig :=
  {| beam_width := 10; max_explorations_per_candidate := 10 |}.

(** The two implementations of [ITalentStringProvider]. *)
Inductive ITalentStringProvider :=
  | FixedTalentStringProvider (_talent_str : string)
  | TreeProvider (tree : PlayerTalentTree).

Definition provider_to_talent_string (p : ITalentStringProvider)
    : result string :=
  match p with
  | FixedTalentStringProvider s => Ok s
  | TreeProvider t => to_talent_string t
  end.

Record BestTalentTreeResult := {
  best_class_tree_result : ITalentStringProvider;
  best_spec_tree_result : ITalentStringProvider;
  best_hero_tree_result : ITalentStringProvider;
}.

Record LockedTalentTrees := {
  locked_class_tree : option ITalentStringProvider;
  locked_spec_tree : option ITalentStringProvider;
  locked_hero_tree : option ITalentStringProvider;
}.

Definition no_locked_trees : LockedTalentTrees :=
  {| locked_class_tree := None; locked_spec_tree := None;
     locked_hero_tree := None |}.

Record TalentBlockList := {
  blocked_spec_talents : gset (string * Z);
}.

Record ClassTalentForest := {
  spec : Specialization;
  spec_tree : TalentTree;
}.

(** Modelled from the spec: the module [simc] ([SimRunner], [SimInput],
    [TalentsRecord], [SimOutput]) is not among the sources.  The records
    have the fields that [_make_talents_record] and [_run_sim] fill in and
    that the search reads; the simulator itself is the parameter
    [run_simulation] of [Runtime] below, which returns a [SimOutput] or
    [None], as the annotation of [_run_sim] says. *)
Record TalentsRecord := {
  class_talents : ITalentStringProvider;
  spec_talents : ITalentStringProvider;
  hero_talents : ITalentStringProvider;
}.

Module SimInput.
Record SimInput := {
  template_str : option string;
  talents : TalentsRecord;
  output_name : string;
  name : string;
  level : Z;
  race : string;
}.
End SimInput.
Abbreviation SimInput := SimInput.SimInput.

Record SimOutput (float : Type) := {
  dps : float;
}.
Arguments dps {float} _.

(** [a or b] on optional providers; a provider object is always truthy. *)
Definition or_else {A} (a b : option A) : option A :=
  match a with
  | Some x => Some x
  | None => b
  end.

Definition _make_talents_record (locked_talent_trees : LockedTalentTrees)
    (class_talents spec_talents hero_talents : option ITalentStringProvider)
    : result TalentsRecord :=
  if decide (spec_talents = None
             ∧ locked_spec_tree locked_talent_trees = None)
  then Raise ValueError
  else if decide (class_talents = None
                  ∧ locked_class_tree locked_talent_trees = None)
  then Raise ValueError
  else if decide (hero_talents = None
                  ∧ locked_hero_tree locked_talent_trees = None)
  then Raise ValueError
  else
    match or_else class_talents (locked_class_tree locked_talent_trees),
          or_else spec_talents (locked_spec_tree locked_talent_trees),
          or_else hero_talents (locked_hero_tree locked_talent_trees) with
    | Some c, Some s, Some h =>
        Ok {| class_talents := c; spec_talents := s; hero_talents := h |}
    | _, _, _ => Raise ValueError
    end.

(** ** The outside world

    [World] is the state of everything the search does not own: the random
    generator behind [random.shuffle] and [uuid.uuid4], and the simulator
    behind [SimRunner.run_simulation].  [float] is the type of DPS values
    with its comparison [<]; the search only compares and stores them. *)
Class Runtime := {
  World : Type;
  float : Type;
  float_zero : float;
  float_lt : float → float → bool;
  shuffle : ∀ {A}, list A → World → list A * World;
  uuid4 : World → string * World;
  run_simulation : SimInput → World → option (SimOutput float) * World;
  shuffle_perm : ∀ A (l : list A) w, (shuffle l w).1 ≡ₚ l;
}.

Section search.
Context `{Runtime}.

(** The environment threads the world and records every simulator
    invocation with its outcome, in order. *)
Record Env := {
  world : World;
  sim_log : list (SimInput * option (SimOutput float));
}.

Definition M (A : Type) : Type := Env → result A * Env.

#[global] Instance M_ret : MRet M := λ A a e, (Ok a, e).
#[global] Instance M_bind : MBind M := λ A B f m e,
  match m e with
  | (Ok a, e') => f a e'
  | (Raise x, e') => (Raise x, e')
  end.

Definition lift {A} (r : result A) : M A := λ e, (r, e).

(** [random.shuffle(l)] *)
Definition shuffled {A} (l : list A) : M (list A) := λ e,
  let r := shuffle l (world e) in
  (Ok r.1, {| world := r.2; sim_log := sim_log e |}).

(** The body of the loop over the shuffled choice indices. *)
Definition try_choice (t : PlayerTalentTree) (node_id : string)
    (choice_index : Z) (candidates : list (string * Z))
    : M (list (string * Z)) :=
  ok ← lift (can_node_be_decremented t node_id choice_index);
  mret (if ok : bool then candidates ++ [(node_id, choice_index)]
        else candidates).

(** The body of the loop over the candidate node ids. *)
Definition try_node (t : PlayerTalentTree) (node_id : string)
    (candidates : list (string * Z)) : M (list (string * Z)) :=
  node_selection ← lift (dict_item node_id (_selection_by_node_id t));
  choice_indices_copy ←
    shuffled (get_choice_indices_with_points node_selection);
  for_each (try_choice t node_id) choice_indices_copy candidates.

Definition find_nodes_to_decrement (t : PlayerTalentTree)
    : M (list (string * Z)) :=
  let violating_node_ids := get_node_ids_with_violated_single_choice t in
  candidate_node_ids ← shuffled (dict_keys (_selection_by_node_id t));
  let candidate_node_ids :=
    violating_node_ids
    ++ filter (λ nid, nid ∉ violating_node_ids) candidate_node_ids in
  for_each (try_node t) candidate_node_ids [].

Definition _run_sim (player : Player) (talents_record : TalentsRecord)
    : M (option (SimOutput float)) := λ e,
  let u := uuid4 (world e) in
  let input :=
    {| SimInput.template_str := None;
       SimInput.talents := talents_record;
       SimInput.output_name := "beam_search_" +:+ u.1;
       SimInput.name := name player;
       SimInput.level := level player;
       SimInput.race := race player |} in
  let r := run_simulation input u.2 in
  (Ok r.1, {| world := r.2; sim_log := sim_log e ++ [(input, r.1)] |}).

(** The local variables of [beam_search_optimal_talents] that the loop
    reads and writes. *)
Record Locals := {
  dps_by_talent_str : gmap string float;
  beam : list PlayerTalentTree;
  best_dps : float;
  best_tree_so_far : option PlayerTalentTree;
  iteration : Z;
  candidates : list (PlayerTalentTree * float);
  has_new_candidates : bool;
}.

Definition set_best (tree : PlayerTalentTree) (d : float) (st : Locals)
    : Locals :=
  {| dps_by_talent_str := dps_by_talent_str st; beam := beam st;
     best_dps := d; best_tree_so_far := Some tree;
     iteration := iteration st; candidates := candidates st;
     has_new_candidates := has_new_candidates st |}.

Definition add_candidate (tree : PlayerTalentTree) (d : float)
    (st : Locals) : Locals :=
  {| dps_by_talent_str := dps_by_talent_str st; beam := beam st;
     best_dps := best_dps st; best_tree_so_far := best_tree_so_far st;
     iteration := iteration st;
     candidates := candidates st ++ [(tree, d)];
     has_new_candidates := has_new_candidates st |}.

(** [dps_by_talent_str[s] = d; candidates.append((tree, d));
    has_new_candidates = True] *)
Definition record_new (s : string) (tree : PlayerTalentTree) (d : float)
    (st : Locals) : Locals :=
  {| dps_by_talent_str := <[s := d]> (dps_by_talent_str st);
     beam := beam st;
     best_dps := best_dps st; best_tree_so_far := best_tree_so_far st;
     iteration := iteration st;
     candidates := candidates st ++ [(tree, d)];
     has_new_candidates := true |}.

Section loop.
Context (config : BeamSearchConfig) (player : Player)
        (locked_talent_trees : LockedTalentTrees).

(** The body of the loop over [decrementable_nodes]. *)
Definition explore (tree : PlayerTalentTree) (nc : string * Z)
    (st : Locals) : M Locals :=
  new_tree ← lift (copy tree);
  new_tree ← lift (decrement_node new_tree nc.1 nc.2);
  spec_talent_str ← lift (to_talent_string new_tree);
  if decide (is_Some (dps_by_talent_str st !! spec_talent_str))
  then mret st
  else
    talents_record ← lift (_make_talents_record locked_talent_trees
                             None (Some (TreeProvider new_tree)) None);
    sim_result ← _run_sim player talents_record;
    match sim_result with
    | None => mret st
    | Some out =>
        let st := record_new spec_talent_str new_tree (dps out) st in
        if float_lt (best_dps st) (dps out)
           && bool_decide (get_total_points_spent new_tree
                           ≤ get_total_points_available new_tree)
        then mret (set_best new_tree (dps out) st)
        else mret st
    end.

(** The body of the loop over [beam]. *)
Definition visit (tree : PlayerTalentTree) (st : Locals) : M Locals :=
  if decide (get_total_points_spent tree
             ≤ get_total_points_available tree)
  then
    talent_str ← lift (to_talent_string tree);
    match dps_by_talent_str st !! talent_str with
    | None => lift (Raise KeyError)
    | Some tree_dps =>
        let st := add_candidate tree tree_dps st in
        if float_lt (best_dps st) tree_dps
        then mret (set_best tree tree_dps st)
        else mret st
    end
  else
    decrementable_nodes ← find_nodes_to_decrement tree;
    decrementable_nodes ← shuffled decrementable_nodes;
    for_each (explore tree)
      (slice_to (max_explorations_per_candidate config)
         decrementable_nodes)
      st.

(** One pass through the body of [while beam]; the boolean tells
    whether the loop goes on (no [break] was taken). *)
Definition iterate (st : Locals) : M (Locals * bool) :=
  let st :=
    {| dps_by_talent_str := dps_by_talent_str st; beam := beam st;
       best_dps := best_dps st; best_tree_so_far := best_tree_so_far st;
       iteration := iteration st + 1;
       candidates := [];
       has_new_candidates := false |} in
  st ← for_each visit (beam st) st;
  if negb (has_new_candidates st) then mret (st, false)
  else
    let sorted_candidates :=
      sorted (λ a b, negb (float_lt a b)) snd (candidates st) in
    _ ← lift (map_each (λ c : PlayerTalentTree * float,
                 to_talent_string c.1)
               (slice_to (beam_width config) sorted_candidates));
    let st :=
      {| dps_by_talent_str := dps_by_talent_str st;
         beam := (slice_to (beam_width config) sorted_candidates).*1;
         best_dps := best_dps st;
         best_tree_so_far := best_tree_so_far st;
         iteration := iteration st;
         candidates := sorted_candidates;
         has_new_candidates := has_new_candidates st |} in
    mret (st, bool_decide (beam st ≠ [])).

(** [while beam: ...]; [None] when the fuel does not suffice. *)
Fixpoint while_beam (fuel : nat) (st : Locals) : M (option Locals) :=
  if decide (beam st = []) then mret (Some st)
  else
    match fuel with
    | O => mret None
    | S fuel' =>
        r ← iterate st;
        if r.2 : bool then while_beam fuel' r.1 else mret (Some r.1)
    end.
End loop.

Record BeamSearchOptimizationResult := {
  best_tree_result : option BestTalentTreeResult;
  result_best_dps : float;
}.

(** The state in which the loop is entered. *)
Definition initial_locals (seed : PlayerTalentTree) (seed_str : string)
    (base_dps : float) : Locals :=
  {| dps_by_talent_str := {[ seed_str := base_dps ]};
     beam := [seed];
     best_dps := float_zero;
     best_tree_so_far := None;
     iteration := 0;
     candidates := [];
     has_new_candidates := false |}.

(** Everything before the loop: the seed allocation and its evaluation. *)
Definition seed_search (forest_template : ClassTalentForest)
    (player : Player) (locked_talent_trees : LockedTalentTrees)
    (talent_block_list : TalentBlockList) : M Locals :=
  budget ← lift (get_available_spec_talent_points player);
  tree ← lift (new_PlayerTalentTree (spec_tree forest_template) budget);
  tree ← lift (skill_all_nodes tree
                 (blocked_spec_talents talent_block_list));
  talents_record ← lift (_make_talents_record locked_talent_trees
                           None (Some (TreeProvider tree)) None);
  base_output ← _run_sim player talents_record;
  match base_output with
  | None => lift (Raise RuntimeError)
  | Some out =>
      seed_str ← lift (to_talent_string tree);
      mret (initial_locals tree seed_str (dps out))
  end.

(** Everything after the loop. *)
Definition search_result (locked_talent_trees : LockedTalentTrees)
    (st : Locals) : BeamSearchOptimizationResult :=
  {| best_tree_result :=
       match locked_class_tree locked_talent_trees,
             best_tree_so_far st,
             locked_hero_tree locked_talent_trees with
       | Some c, Some t, Some h =>
           Some {| best_class_tree_result := c;
                   best_spec_tree_result := TreeProvider t;
                   best_hero_tree_result := h |}
       | _, _, _ => None
       end;
     result_best_dps := best_dps st |}.

Definition beam_search_optimal_talents (fuel : nat)
    (config : BeamSearchConfig)
    (forest_template : ClassTalentForest) (player : Player)
    (locked_talent_trees : option LockedTalentTrees)
    (talent_block_list : option TalentBlockList)
    : M (option BeamSearchOptimizationResult) :=
  let locked_talent_trees := default no_locked_trees locked_talent_trees in
  let talent_block_list :=
    default {| blocked_spec_talents := ∅ |} talent_block_list in
  st ← seed_search forest_template player locked_talent_trees
         talent_block_list;
  r ← while_beam config player locked_talent_trees fuel st;
  mret (search_result locked_talent_trees <$> r).
End search.

(** ** talents/parsers/icy_veins/models.py *)

(** The name of a spell may hold any character: it is the list of its
    code points. *)
Module Spell.
Record Spell := {
  spell_id : Z;
  name : list Z;
  max_ranks : Z;
}.
End Spell.
Abbreviation Spell := Spell.Spell.

Module SpecNode.
Record SpecNode := {
  id : Z;
  previous_node_ids : list Z;
  row : Z;
  column : Z;
  spells : list Spell;
}.
End SpecNode.
Abbreviation SpecNode := SpecNode.SpecNode.

Module RowCheckpoint.
Record RowCheckpoint := {
  row : Z;
  points : Z;
}.
End RowCheckpoint.
Abbreviation RowCheckpoint := RowCheckpoint.RowCheckpoint.

Module Spec.
Record Spec := {
  id : Z;
  name : string;
  spec_nodes : dict SpecNode;
  spec_checkpoints : list RowCheckpoint;
}.
End Spec.
Abbreviation Spec := Spec.Spec.

#[global] Instance Spell_eq_dec : EqDecision Spell.
Proof. solve_decision. Defined.
#[global] Instance SpecNode_eq_dec : EqDecision SpecNode.
Proof. solve_decision. Defined.
#[global] Instance RowCheckpoint_eq_dec : EqDecision RowCheckpoint.
Proof. solve_decision. Defined.

(** ** talents/converters/icy_veins

    A call of the converter returns, or raises one of the exceptions of
    [exn], or raises [AttributeError], which the modules above never
    do. *)

Inductive outcome (A : Type) :=
  | Returns (a : A)
  | Raises (e : exn)
  | RaisesAttributeError.
Arguments Returns {A} a.
Arguments Raises {A} e.
Arguments RaisesAttributeError {A}.

#[global] Instance outcome_eq_dec `{EqDecision A} : EqDecision (outcome A).
Proof. solve_decision. Defined.

#[global] Instance outcome_ret : MRet outcome := @Returns.
#[global] Instance outcome_bind : MBind outcome := λ A B f m,
  match m with
  | Returns a => f a
  | Raises e => Raises e
  | RaisesAttributeError => RaisesAttributeError
  end.

(** [d[k]] in the converter *)
Definition dict_item' {V} (k : string) (d : dict V) : outcome V :=
  match dict_get k d with
  | Some v => Returns v
  | None => Raises KeyError
  end.

Definition _convert_spec_id (iv_spec_id : Z) : outcome Specialization :=
  if decide (iv_spec_id = 577) then Returns HAVOC
  else if decide (iv_spec_id = 581) then Returns VENGEANCE
  else if decide (iv_spec_id = 1480) then Returns DEVOURER
  else Raises ValueError.

Definition _convert_checkpoints (checkpoints : list RowCheckpoint)
    : GateInfo :=
  let gates :=
    [ {| Gate.gate_id := 0; Gate.points_required_below := 0 |} ] in
  let sorted_checkpoints := sorted Z.leb RowCheckpoint.row checkpoints in
  {| gates :=
       foldl (λ gates checkpoint,
           let gate_id := Z.of_nat (length gates) in
           gates ++ [ {| Gate.gate_id := gate_id;
                         Gate.points_required_below :=
                           RowCheckpoint.points checkpoint |} ])
         gates sorted_checkpoints |}.

(** *** Strings of arbitrary characters

    The name of a spell is read from a parsed page and may hold any
    character.  Such a string is the list of its code points; a character
    is its code point, which is what [ord] gives. *)
Definition ord (char : Z) : Z := char.

(** The character written as the literal [c]. *)
Definition code_point (c : Ascii.ascii) : Z := Z.of_N (Ascii.N_of_ascii c).

(** The characters of a string of 8-bit characters. *)
Definition code_points (s : string) : list Z :=
  code_point <$> String.list_ascii_of_string s.

(** [str.join] of characters below 256, which is all that the converter
    joins: it appends letters [a]..[z] and underscores only. *)
Definition join_chars (sb : list Z) : string :=
  String.string_of_list_ascii ((λ c, Ascii.ascii_of_N (Z.to_N c)) <$> sb).

Section talent_names.
(** [char.isspace()]: whether the Unicode database classifies the
    character as whitespace. *)
Context (isspace : Z → bool).

(** The body of the loop over the characters of a name.  [char.lower()]
    of a letter [A]..[Z] is the letter 32 code points above it. *)
Definition append_char (sb : list Z) (char : Z) : list Z :=
  if decide (ord (code_point "a") ≤ ord char ≤ ord (code_point "z"))
  then sb ++ [char]
  else if decide (ord (code_point "A") ≤ ord char ≤ ord (code_point "Z"))
  then sb ++ [char + 32]
  else if isspace char then sb ++ [code_point "_"]
  else sb.

Definition _convert_talent_name (name : list Z) : string :=
  join_chars (foldl append_char [] name).
End talent_names.

Module _RowToGateMapper.
(** [max_gate_id] is assigned in the loop of [__init__]: it stays unset
    when there is no checkpoint. *)
Record _RowToGateMapper := {
  _row_cutoffs : list (Z * Z);
  max_gate_id : option Z;
}.

(** [_RowToGateMapper.__init__] *)
Definition new (checkpoints : list RowCheckpoint) : _RowToGateMapper :=
  let sorted_checkpoints := sorted Z.leb RowCheckpoint.row checkpoints in
  foldl (λ self checkpoint,
      let gate_id := Z.of_nat (length (_row_cutoffs self)) + 1 in
      {| _row_cutoffs :=
           _row_cutoffs self ++ [(RowCheckpoint.row checkpoint, gate_id)];
         max_gate_id := Some gate_id |})
    {| _row_cutoffs := []; max_gate_id := None |}
    sorted_checkpoints.

(** The loop of [map]: the gate of the first cutoff above [row]. *)
Fixpoint first_cutoff (row : Z) (cutoffs : list (Z * Z)) : option Z :=
  match cutoffs with
  | [] => None
  | (cutoff_row, gate_id) :: cutoffs' =>
      if decide (row < cutoff_row) then Some (gate_id - 1)
      else first_cutoff row cutoffs'
  end.

Definition map (self : _RowToGateMapper) (row : Z) : outcome Z :=
  match first_cutoff row (_row_cutoffs self) with
  | Some gate_id => Returns gate_id
  | None =>
      match max_gate_id self with
      | Some gate_id => Returns gate_id
      | None => RaisesAttributeError
      end
  end.
End _RowToGateMapper.
Abbreviation _RowToGateMapper := _RowToGateMapper._RowToGateMapper.

(** [str(iv_node_id).strip()]: the decimal numeral of an integer has no
    whitespace to strip. *)
Definition _iv_node_to_node_id (iv_node_id : Z) : string := pretty iv_node_id.

Section converter.
Context (isspace : Z → bool).

(** The node made for [iv_node] in the first loop of
    [_convert_spec_nodes]. *)
Definition new_node (row_to_gate_mapper : _RowToGateMapper)
    (iv_node : SpecNode) : outcome TalentTreeNode :=
  let node_id := _iv_node_to_node_id (SpecNode.id iv_node) in
  gate_id ← _RowToGateMapper.map row_to_gate_mapper (SpecNode.row iv_node);
  mret {| node_id := node_id;
          choices :=
            (λ spell,
               {| talent_name :=
                    _convert_talent_name isspace (Spell.name spell);
                  max_points := Spell.max_ranks spell |}) <$>
              SpecNode.spells iv_node;
          gate_id := gate_id;
          parent_nodes := [];
          child_nodes := [];
          sort_key :=
            pretty (SpecNode.row iv_node * 100 + SpecNode.column iv_node) |}.

(** The body of the loop over [previous_node_ids]: the two [append]s go
    to the nodes stored under the two ids, which are one node when a
    node names itself. *)
Definition link (child_node_id : string) (iv_parent_node_id : Z)
    (node_id_to_node : dict TalentTreeNode) : outcome (dict TalentTreeNode) :=
  let parent_node_id := _iv_node_to_node_id iv_parent_node_id in
  parent_node ← dict_item' parent_node_id node_id_to_node;
  let node_id_to_node :=
    dict_set parent_node_id
      {| node_id := node_id parent_node;
         choices := choices parent_node;
         gate_id := gate_id parent_node;
         parent_nodes := parent_nodes parent_node;
         child_nodes := child_nodes parent_node ++ [child_node_id];
         sort_key := sort_key parent_node |}
      node_id_to_node in
  child_node ← dict_item' child_node_id node_id_to_node;
  mret (dict_set child_node_id
          {| node_id := node_id child_node;
             choices := choices child_node;
             gate_id := gate_id child_node;
             parent_nodes := parent_nodes child_node ++ [parent_node_id];
             child_nodes := child_nodes child_node;
             sort_key := sort_key child_node |}
          node_id_to_node).

(** The body of the first loop of [_convert_spec_nodes]. *)
Definition add_node (row_to_gate_mapper : _RowToGateMapper)
    (iv_node : SpecNode) (node_id_to_node : dict TalentTreeNode)
    : outcome (dict TalentTreeNode) :=
  node ← new_node row_to_gate_mapper iv_node;
  mret (dict_set (node_id node) node node_id_to_node).

(** The body of the second loop of [_convert_spec_nodes]. *)
Definition link_node (iv_child_node : SpecNode)
    (node_id_to_node : dict TalentTreeNode) : outcome (dict TalentTreeNode) :=
  let child_node_id := _iv_node_to_node_id (SpecNode.id iv_child_node) in
  _ ← dict_item' child_node_id node_id_to_node;
  for_each (link child_node_id)
    (SpecNode.previous_node_ids iv_child_node) node_id_to_node.

Definition _convert_spec_nodes (spec_nodes : list SpecNode)
    (checkpoints : list RowCheckpoint) : outcome (list TalentTreeNode) :=
  let row_to_gate_mapper := _RowToGateMapper.new checkpoints in
  node_id_to_node ← for_each (add_node row_to_gate_mapper) spec_nodes [];
  node_id_to_node ← for_each link_node spec_nodes node_id_to_node;
  mret (dict_values node_id_to_node).

Definition convert (spec : Spec) : outcome ClassTalentForest :=
  specialization ← _convert_spec_id (Spec.id spec);
  let gate_info := _convert_checkpoints (Spec.spec_checkpoints spec) in
  nodes ← _convert_spec_nodes (dict_values (Spec.spec_nodes spec))
             (Spec.spec_checkpoints spec);
  mret {| spec := specialization;
          spec_tree := {| gate_info := gate_info; nodes := nodes |} |}.
End converter.

(** * Specification vocabulary *)

(** ** Allocations and their invariants *)
(** What [_get_empty_selections_dict] computes. *)
Definition empty_selections (tpl : TalentTree)
    : dict PlayerTalentNodeSelection :=
  foldl (λ d node,
      dict_set (node_id node)
        {| node_reference := node;
           points_spent_by_choice_index := (λ _, 0) <$> choices node |} d)
    [] (nodes tpl).

Definition selection_ok (t : PlayerTalentTree)
    (item : string * PlayerTalentNodeSelection) : Prop :=
  _template_node_by_id t !! item.1 = Some (node_reference item.2)
  ∧ node_id (node_reference item.2) = item.1
  ∧ length (points_spent_by_choice_index item.2)
    = length (choices (node_reference item.2)).

(** The relation between an allocation and its template that the
    constructor establishes and every operation keeps. *)
Definition wf_tree (t : PlayerTalentTree) : Prop :=
  _template_node_by_id t = template_node_by_id (_tree_template t)
  ∧ dict_keys (_selection_by_node_id t)
    = dict_keys (empty_selections (_tree_template t))
  ∧ Forall (selection_ok t) (_selection_by_node_id t).

(** Every parent and child reference of the template points to a node of
    the template. *)
Definition closed_tree (t : PlayerTalentTree) : Prop :=
  Forall (λ item : string * PlayerTalentNodeSelection,
      Forall (λ r, r ∈ dict_keys (_selection_by_node_id t))
        (child_nodes (node_reference item.2)
         ++ parent_nodes (node_reference item.2)))
    (_selection_by_node_id t).

#[global] Instance selection_ok_dec t item : Decision (selection_ok t item).
Proof. unfold selection_ok. apply _. Defined.
#[global] Instance wf_tree_dec t : Decision (wf_tree t).
Proof. unfold wf_tree. apply _. Defined.
#[global] Instance closed_tree_dec t : Decision (closed_tree t).
Proof. unfold closed_tree. apply _. Defined.

(** Points committed to the nodes of gate [g]. *)
Definition points_in_gate (d : dict PlayerTalentNodeSelection) (g : Z) : Z :=
  sum ((λ s, if decide (gate_id (node_reference s) = g)
             then sum (points_spent_by_choice_index s) else 0) <$>
         dict_values d).

(** The invariant relating the stored per-gate totals to the points. *)
Definition gate_totals_consistent (t : PlayerTalentTree) : Prop :=
  ∀ g, gate_get (_spent_points_by_gate t) g
       = points_in_gate (_selection_by_node_id t) g.

(** The allocation [PlayerTalentTree(tpl, budget)] builds. *)
Definition fresh_tree (tpl : TalentTree) (budget : Z) : PlayerTalentTree :=
  {| _tree_template := tpl;
     _template_node_by_id := template_node_by_id tpl;
     _max_points_available := budget;
     _selection_by_node_id := empty_selections tpl;
     _spent_points_by_gate := ∅ |}.

(** The contribution of one selection to gate [g]. *)
Definition points_of (g : Z) (s : PlayerTalentNodeSelection) : Z :=
  if decide (gate_id (node_reference s) = g)
  then sum (points_spent_by_choice_index s) else 0.

(** The selection after [remove_point_from_choice]. *)
Definition decremented (s : PlayerTalentNodeSelection) (i : nat) (p : Z)
    : PlayerTalentNodeSelection :=
  {| node_reference := node_reference s;
     points_spent_by_choice_index :=
       <[i := p - 1]> (points_spent_by_choice_index s) |}.

(** The allocation after [decrement_node], given where the node sits. *)
Definition decrement_result (t : PlayerTalentTree) (node_id : string)
    (s : PlayerTalentNodeSelection) (i : nat) (p : Z) : PlayerTalentTree :=
  {| _tree_template := _tree_template t;
     _template_node_by_id := _template_node_by_id t;
     _max_points_available := _max_points_available t;
     _selection_by_node_id :=
       dict_set node_id (decremented s i p) (_selection_by_node_id t);
     _spent_points_by_gate :=
       gate_add (_spent_points_by_gate t) (gate_id (node_reference s)) (-1) |}.

(** The points held by choice [i] of node [nid], if there is one. *)
Definition points_at (t : PlayerTalentTree) (nid : string) (i : nat)
    : option Z :=
  s ← dict_get nid (_selection_by_node_id t);
  points_spent_by_choice_index s !! i.

(** Same keys in the same order, same template nodes, same number of
    choices: what every mutation of an allocation preserves. *)
Definition same_shape (d d' : dict PlayerTalentNodeSelection) : Prop :=
  Forall2 (λ x y, x.1 = y.1
                  ∧ node_reference x.2 = node_reference y.2
                  ∧ length (points_spent_by_choice_index x.2)
                    = length (points_spent_by_choice_index y.2)) d d'.

(** No choice outside the block list holds points. *)
Definition unblocked_zero (except_for : gset (string * Z))
    (d : dict PlayerTalentNodeSelection) : Prop :=
  Forall (λ item : string * PlayerTalentNodeSelection,
      ∀ (j : nat) p,
        points_spent_by_choice_index item.2 !! j = Some p →
        (node_id (node_reference item.2), Z.of_nat j) ∉ except_for →
        p = 0) d.

(** Some choice holds a number of points other than 0. *)
Definition holds_points (s : PlayerTalentNodeSelection) : Prop :=
  ∃ (j : nat) p, points_spent_by_choice_index s !! j = Some p ∧ p ≠ 0.

(** Some choice is filled to its maximum capacity. *)
Definition filled_to_capacity (s : PlayerTalentNodeSelection) : Prop :=
  ∃ (j : nat) choice,
    choices (node_reference s) !! j = Some choice
    ∧ points_spent_by_choice_index s !! j = Some (max_points choice).

(** More than one choice holds points. *)
Definition several_choices_hold_points (s : PlayerTalentNodeSelection)
    : Prop :=
  ∃ (i j : nat) p q,
    i ≠ j
    ∧ points_spent_by_choice_index s !! i = Some p ∧ 0 < p
    ∧ points_spent_by_choice_index s !! j = Some q ∧ 0 < q.

(** The outcomes that the [try] block turns into a boolean. *)
Definition decided (r : result unit) : Prop :=
  r = Ok tt ∨ r = Raise DecrementNotPossible.

(** Points committed to the nodes whose gate id is strictly below [h]. *)
Definition points_committed_below (t : PlayerTalentTree) (h : Z) : Z :=
  sum ((λ s, if decide (gate_id (node_reference s) < h)
             then sum (points_spent_by_choice_index s) else 0) <$>
         dict_values (_selection_by_node_id t)).

(** Gate ids are unique and every node lies in a gate of the template. *)
Definition gates_ok (t : PlayerTalentTree) : Prop :=
  NoDup (Gate.gate_id <$> gates (gate_info (_tree_template t)))
  ∧ Forall (λ item : string * PlayerTalentNodeSelection,
        gate_id (node_reference item.2)
        ∈ Gate.gate_id <$> gates (gate_info (_tree_template t)))
      (_selection_by_node_id t).

#[global] Instance gates_ok_dec t : Decision (gates_ok t).
Proof. unfold gates_ok. apply _. Defined.

(** The running total when the scan reaches a gate. *)
Definition scanned (spent : gmap Z Z) (gs : list Gate) : Z :=
  sum ((λ gate, gate_get spent (Gate.gate_id gate)) <$> gs).

(** The removals of node [nid] accepted among the choices [idxs]. *)
Definition accepted (t : PlayerTalentTree) (nid : string) (idxs : list Z)
    : list (string * Z) :=
  (λ c, (nid, c)) <$>
    filter (λ c, can_node_be_decremented t nid c = Ok true) idxs.

(** The single-choice rule is violated at node [nid]: the node holds
    points in more than one choice. *)
Definition violating (t : PlayerTalentTree) (nid : string) : Prop :=
  ∃ s, dict_get nid (_selection_by_node_id t) = Some s
       ∧ several_choices_hold_points s.

(** What one node contributes: its accepted removals, over some
    ordering of its choices that hold points. *)
Definition contribution (t : PlayerTalentTree) (nid : string)
    (part : list (string * Z)) : Prop :=
  ∃ s idxs, dict_get nid (_selection_by_node_id t) = Some s
            ∧ idxs ≡ₚ get_choice_indices_with_points s
            ∧ part = accepted t nid idxs.

(** The canonical string a simulator invocation was made for. *)
Definition submitted (input : SimInput) : result string :=
  provider_to_talent_string (spec_talents (SimInput.talents input)).

(** Both trees that are not searched are locked. *)
Definition locked_ok (l : LockedTalentTrees) : Prop :=
  is_Some (locked_class_tree l) ∧ is_Some (locked_hero_tree l).

(** Every parent and child reference of a template names one of its
    nodes. *)
Definition closed_template (tpl : TalentTree) : Prop :=
  Forall (λ n, Forall (λ r, r ∈ node_id <$> nodes tpl)
                 (child_nodes n ++ parent_nodes n))
    (nodes tpl).

#[global] Instance closed_template_dec tpl : Decision (closed_template tpl).
Proof. unfold closed_template. apply _. Defined.

(** The gate ids at which a total is stored or a node sits. *)
Definition gate_keys (t : PlayerTalentTree) : list Z :=
  (map_to_list (_spent_points_by_gate t)).*1
  ++ ((λ s, gate_id (node_reference s)) <$>
        dict_values (_selection_by_node_id t)).

(** Whether the gate scan lets a removal from gate [g] through. *)
Definition gate_supported (t : PlayerTalentTree) (g : Z) : bool :=
  bool_decide
    (gate_scan (_spent_points_by_gate t) g
       (sorted Z.leb Gate.gate_id (gates (gate_info (_tree_template t)))) 0
     = Ok tt).

(** What a computation returned, if it did. *)
Definition returned {A} (r : result A) : option A :=
  match r with
  | Ok a => Some a
  | Raise _ => None
  end.

(** The points of every choice lie between 0 and the capacity of the
    choice. *)
Definition within_capacity (s : PlayerTalentNodeSelection) : Prop :=
  Forall2 (λ p (choice : ChoiceNodeTalent), 0 ≤ p ≤ max_points choice)
    (points_spent_by_choice_index s) (choices (node_reference s)).

#[global] Instance within_capacity_dec s : Decision (within_capacity s).
Proof. unfold within_capacity. apply _. Defined.

(** What [skill_all_nodes] leaves in each selection. *)
Definition skilled (except_for : gset (string * Z))
    (before after : string * PlayerTalentNodeSelection) : Prop :=
  after.1 = before.1
  ∧ node_reference after.2 = node_reference before.2
  ∧ ∀ (j : nat) choice,
      choices (node_reference before.2) !! j = Some choice →
      points_spent_by_choice_index after.2 !! j
      = if decide ((node_id (node_reference before.2), Z.of_nat j)
                   ∈ except_for)
        then points_spent_by_choice_index before.2 !! j
        else Some (max_points choice).

(** The threshold of every gate is covered by the points committed to the
    gates below it. *)
Definition thresholds_met (t : PlayerTalentTree) : Prop :=
  Forall (λ gate, Gate.points_required_below gate
                  ≤ points_committed_below t (Gate.gate_id gate))
    (gates (gate_info (_tree_template t))).

#[global] Instance thresholds_met_dec t : Decision (thresholds_met t).
Proof. unfold thresholds_met. apply _. Defined.

(** Node [r] is selected with a fully skilled choice. *)
Definition fully_skilled (t : PlayerTalentTree) (r : string) : Prop :=
  has_fully_skilled_choice <$> dict_get r (_selection_by_node_id t)
  = Some true.

(** Every node that holds points has no parent at all, or a parent with a
    fully skilled choice. *)
Definition supported (t : PlayerTalentTree) : Prop :=
  Forall (λ item : string * PlayerTalentNodeSelection,
      holds_talent_points item.2 = true →
      parent_nodes (node_reference item.2) = []
      ∨ Exists (fully_skilled t) (parent_nodes (node_reference item.2)))
    (_selection_by_node_id t).

(** Every parent of a node lists the node among its children. *)
Definition mirrored (t : PlayerTalentTree) : Prop :=
  Forall (λ item : string * PlayerTalentNodeSelection,
      Forall (λ r,
          from_option (λ ps, item.1 ∈ child_nodes (node_reference ps)) True
            (dict_get r (_selection_by_node_id t)))
        (parent_nodes (node_reference item.2)))
    (_selection_by_node_id t).

#[global] Instance supported_dec t : Decision (supported t).
Proof. unfold supported, fully_skilled. apply _. Defined.

#[global] Instance mirrored_dec t : Decision (mirrored t).
Proof.
  unfold mirrored. apply Forall_dec. intros item. apply Forall_dec. intros r.
  destruct (dict_get r _); simpl; apply _.
Defined.

(** ** Outcomes, logs and loop invariants of the search *)

Section vocabulary.
Context `{Runtime}.

(** [post I R r]: the outcome [r] of a computation satisfies [I] if it
    returned and [R] if it raised. *)
Definition post {S} (I : S → Env → Prop) (R : Env → Prop)
    (r : result S * Env) : Prop :=
  match r with
  | (Ok s, e) => I s e
  | (Raise _, e) => R e
  end.

(** No invocation is made for a string on which an earlier invocation
    succeeded. *)
Definition never_resubmitted
    (log : list (SimInput * option (SimOutput float))) : Prop :=
  ∀ (i j : nat) input out input' r,
    (i < j)%nat →
    log !! i = Some (input, Some out) →
    log !! j = Some (input', r) →
    submitted input ≠ submitted input'.

(** Every string on which an invocation succeeded is memoized. *)
Definition log_memo (memo : gmap string float)
    (log : list (SimInput * option (SimOutput float))) : Prop :=
  ∀ input out, (input, Some out) ∈ log →
    ∃ s, submitted input = Ok s ∧ is_Some (memo !! s).
End vocabulary.

(** The environment in which a run starts: nothing simulated yet. *)
Definition start `{Runtime} (w : World) : Env :=
  {| world := w; sim_log := [] |}.

(** The states in which the loop of the search is at its head. *)
Inductive at_loop_head `{Runtime} (config : BeamSearchConfig)
    (player : Player) (locked : LockedTalentTrees) (st0 : Locals) (e0 : Env)
    : Locals → Env → Prop :=
  | at_loop_entry : at_loop_head config player locked st0 e0 st0 e0
  | at_loop_next st e st' e' :
      at_loop_head config player locked st0 e0 st e →
      beam st ≠ [] →
      iterate config player locked st e = (Ok (st', true), e') →
      at_loop_head config player locked st0 e0 st' e'.

Section invariants.
Context `{Runtime} (seed : PlayerTalentTree).

Local Abbreviation T := (get_total_points_spent seed).
Local Abbreviation B := (_max_points_available seed).

(** What holds of every allocation the search handles. *)
Definition tree_ok (t : PlayerTalentTree) : Prop :=
  wf_tree t
  ∧ _max_points_available t = B
  ∧ (closed_tree seed → closed_tree t).

Definition in_memo (memo : gmap string float) (t : PlayerTalentTree)
    : Prop :=
  ∃ s, to_talent_string t = Ok s ∧ is_Some (memo !! s).

(** The invariant inside the loop over the beam, in iteration
    [iteration st]. *)
Definition Mid (st : Locals)
    (log : list (SimInput * option (SimOutput float))) : Prop :=
  Forall (λ t, tree_ok t ∧ in_memo (dps_by_talent_str st) t
               ∧ (get_total_points_spent t ≤ B
                  ∨ get_total_points_spent t = T - (iteration st - 1)))
    (beam st)
  ∧ Forall (λ c : PlayerTalentTree * float,
        tree_ok c.1 ∧ in_memo (dps_by_talent_str st) c.1
        ∧ (get_total_points_spent c.1 ≤ B
           ∨ get_total_points_spent c.1 = T - iteration st))
      (candidates st)
  ∧ (has_new_candidates st = true → B < T - (iteration st - 1))
  ∧ log_memo (dps_by_talent_str st) log
  ∧ never_resubmitted log.

(** The invariant at the head of the loop. *)
Definition Entry (st : Locals)
    (log : list (SimInput * option (SimOutput float))) : Prop :=
  0 ≤ iteration st
  ∧ Forall (λ t, tree_ok t ∧ in_memo (dps_by_talent_str st) t
                 ∧ (get_total_points_spent t ≤ B
                    ∨ get_total_points_spent t = T - iteration st))
      (beam st)
  ∧ log_memo (dps_by_talent_str st) log
  ∧ never_resubmitted log.

(** What holds when the search is aborted by an exception. *)
Definition Aborted (e : Env) : Prop :=
  never_resubmitted (sim_log e) ∧ ¬ closed_tree seed.

(** The invariant of the two inner loops: [Mid], with the beam and the
    iteration counter untouched. *)
Definition Mid_at (st0 : Locals) (st : Locals) (e : Env) : Prop :=
  Mid st (sim_log e) ∧ beam st = beam st0 ∧ iteration st = iteration st0.
End invariants.

Section updates.
Context `{Runtime}.

(** The locals at the start of the body of [while beam]. *)
Definition begin_iteration (st : Locals) : Locals :=
  {| dps_by_talent_str := dps_by_talent_str st; beam := beam st;
     best_dps := best_dps st; best_tree_so_far := best_tree_so_far st;
     iteration := iteration st + 1;
     candidates := [];
     has_new_candidates := false |}.

(** The locals after the candidates have been sorted and cut to the beam
    width. *)
Definition select_beam (config : BeamSearchConfig) (st : Locals) : Locals :=
  let sorted_candidates :=
    sorted (λ a b, negb (float_lt a b)) snd (candidates st) in
  {| dps_by_talent_str := dps_by_talent_str st;
     beam := (slice_to (beam_width config) sorted_candidates).*1;
     best_dps := best_dps st;
     best_tree_so_far := best_tree_so_far st;
     iteration := iteration st;
     candidates := sorted_candidates;
     has_new_candidates := has_new_candidates st |}.

(** The changes the loop makes to its locals and to the simulator log,
    one at a time, each with what the code has checked when it makes
    it. *)
Inductive update (config : BeamSearchConfig)
    : Locals * list (SimInput * option (SimOutput float)) →
      Locals * list (SimInput * option (SimOutput float)) → Prop :=
  | update_begin st log :
      update config (st, log) (begin_iteration st, log)
  | update_keep st log tree s d :
      tree ∈ beam st →
      get_total_points_spent tree ≤ get_total_points_available tree →
      to_talent_string tree = Ok s →
      dps_by_talent_str st !! s = Some d →
      update config (st, log) (add_candidate tree d st, log)
  | update_best st log tree s d :
      (tree, d) ∈ candidates st →
      get_total_points_spent tree ≤ get_total_points_available tree →
      to_talent_string tree = Ok s →
      dps_by_talent_str st !! s = Some d →
      update config (st, log) (set_best tree d st, log)
  | update_failed st log input :
      update config (st, log) (st, log ++ [(input, None)])
  | update_new st log tree nc t1 new_tree s input out :
      tree ∈ beam st →
      can_node_be_decremented tree nc.1 nc.2 = Ok true →
      copy tree = Ok t1 →
      decrement_node t1 nc.1 nc.2 = Ok new_tree →
      to_talent_string new_tree = Ok s →
      dps_by_talent_str st !! s = None →
      submitted input = Ok s →
      update config (st, log)
        (record_new s new_tree (dps out) st, log ++ [(input, Some out)])
  | update_select st log :
      update config (st, log) (select_beam config st, log).

(** Every memoized value is the output of a simulator invocation made
    for its key. *)
Definition memo_from_log (memo : gmap string float)
    (log : list (SimInput * option (SimOutput float))) : Prop :=
  ∀ s d, memo !! s = Some d →
    ∃ input out, (input, Some out) ∈ log
                 ∧ submitted input = Ok s ∧ dps out = d.

(** The best tree so far is within budget and memoized with the best DPS
    so far; without one the best DPS is still zero. *)
Definition best_is_evaluated (st : Locals) : Prop :=
  match best_tree_so_far st with
  | Some t =>
      get_total_points_spent t ≤ get_total_points_available t
      ∧ ∃ s, to_talent_string t = Ok s
             ∧ dps_by_talent_str st !! s = Some (best_dps st)
  | None => best_dps st = float_zero
  end.

(** Every tree the loop holds satisfies [P]. *)
Definition all_trees (P : PlayerTalentTree → Prop) (st : Locals) : Prop :=
  Forall P (beam st)
  ∧ Forall (λ c : PlayerTalentTree * float, P c.1) (candidates st)
  ∧ from_option P True (best_tree_so_far st).
End updates.

(** ** Converted specs *)

(** The row cutoffs for the checkpoints [l], numbered from [k + 1]. *)
Fixpoint numbered (k : nat) (l : list RowCheckpoint) : list (Z * Z) :=
  match l with
  | [] => []
  | c :: l' => (RowCheckpoint.row c, Z.of_nat k + 1) :: numbered (S k) l'
  end.

(** The node ids of the nodes of a spec. *)
Definition ids_of (spec_nodes : list SpecNode) : list string :=
  (λ iv_node, _iv_node_to_node_id (SpecNode.id iv_node)) <$> spec_nodes.

(** The links (child id, parent id) that [_convert_spec_nodes] makes, in
    the order in which it makes them. *)
Definition links_of (spec_nodes : list SpecNode) : list (string * string) :=
  iv_child_node ← spec_nodes;
  (λ iv_parent_node_id,
     (_iv_node_to_node_id (SpecNode.id iv_child_node),
      _iv_node_to_node_id iv_parent_node_id)) <$>
    SpecNode.previous_node_ids iv_child_node.

(** Every previous node id is the id of a node of the spec. *)
Definition previous_known (spec_nodes : list SpecNode) : Prop :=
  Forall (λ iv_node,
      Forall (λ iv_parent_node_id,
          _iv_node_to_node_id iv_parent_node_id ∈ ids_of spec_nodes)
        (SpecNode.previous_node_ids iv_node))
    spec_nodes.

#[global] Instance previous_known_dec spec_nodes :
  Decision (previous_known spec_nodes).
Proof. unfold previous_known. apply _. Defined.

(** The nodes stored under their ids carry exactly the links made so far,
    and lie in gates that satisfy [G]. *)
Definition linked (G : Z → Prop) (links : list (string * string))
    (d : dict TalentTreeNode) : Prop :=
  ∀ a na, dict_get a d = Some na →
    node_id na = a
    ∧ G (gate_id na)
    ∧ parent_nodes na = (filter (λ l, l.1 = a) links).*2
    ∧ child_nodes na = (filter (λ l, l.2 = a) links).*1.

(** In a template, a node is a parent of another exactly when the other is
    one of its children. *)
Definition mirrored_template (tpl : TalentTree) : Prop :=
  ∀ a b, a ∈ nodes tpl → b ∈ nodes tpl →
    node_id a ∈ parent_nodes b ↔ node_id b ∈ child_nodes a.

(** ** Example templates and runs *)

Module Examples.
Definition one_choice (id : string) (capacity gate : Z)
    (parents children : list string) : TalentTreeNode :=
  {| node_id := id;
     choices := [ {| talent_name := id; max_points := capacity |} ];
     gate_id := gate;
     parent_nodes := parents;
     child_nodes := children;
     sort_key := id |}.

Definition mk_gate (id threshold : Z) : Gate :=
  {| Gate.gate_id := id; Gate.points_required_below := threshold |}.

(** The allocation the search starts from. *)
Definition seeded (tpl : TalentTree) (budget : Z)
    (except_for : gset (string * Z)) : PlayerTalentTree :=
  match skill_all_nodes (fresh_tree tpl budget) except_for with
  | Ok t => t
  | Raise _ => fresh_tree tpl budget
  end.

(** [a] in gate 0 unlocks [b] in gate 1, which needs 5 points below. *)
Definition gated_template : TalentTree :=
  {| gate_info := {| gates := [mk_gate 0 0; mk_gate 1 5] |};
     nodes := [one_choice "a" 3 0 [] ["b"]; one_choice "b" 1 1 ["a"] []] |}.
Definition gated_tree : PlayerTalentTree := seeded gated_template 2 ∅.

(** [b] can be reached through [a] or through [a2]. *)
Definition diamond_template : TalentTree :=
  {| gate_info := {| gates := [mk_gate 0 0] |};
     nodes := [one_choice "a" 1 0 [] ["b"]; one_choice "a2" 1 0 [] ["b"];
               one_choice "b" 1 0 ["a"; "a2"] []] |}.
Definition diamond_tree : PlayerTalentTree := seeded diamond_template 2 ∅.

(** The nodes and gates of [gated_template] without the link between
    the nodes; seeded a second time. *)
Definition loose_template : TalentTree :=
  {| gate_info := {| gates := [mk_gate 0 0; mk_gate 1 5] |};
     nodes := [one_choice "a" 3 0 [] []; one_choice "b" 1 1 [] []] |}.
Definition loose_twice : PlayerTalentTree :=
  match skill_all_nodes (seeded loose_template 2 ∅) ∅ with
  | Ok t => t
  | Raise _ => seeded loose_template 2 ∅
  end.

(** The same nodes, with gate 0 listed twice. *)
Definition doubled_template : TalentTree :=
  {| gate_info := {| gates := [mk_gate 0 0; mk_gate 0 0; mk_gate 1 5] |};
     nodes := [one_choice "a" 3 0 [] []; one_choice "b" 1 1 [] []] |}.
Definition doubled_tree : PlayerTalentTree := seeded doubled_template 2 ∅.

(** [b] lists a second parent that is not a node of the template. *)
Definition dangling_template : TalentTree :=
  {| gate_info := {| gates := [mk_gate 0 0] |};
     nodes := [one_choice "a" 1 0 [] ["b"];
               one_choice "b" 1 0 ["a"; "ghost"] []] |}.
Definition dangling_tree : PlayerTalentTree := seeded dangling_template 1 ∅.

(** The second parent of [b] holds one of its two points. *)
Definition partial_template : TalentTree :=
  {| gate_info := {| gates := [mk_gate 0 0] |};
     nodes := [one_choice "a" 1 0 [] ["b"]; one_choice "a2" 2 0 [] ["b"];
               one_choice "b" 1 0 ["a"; "a2"] []] |}.
Definition partial_tree : PlayerTalentTree :=
  match decrement_node (seeded partial_template 2 ∅) "a2" 0 with
  | Ok t => t
  | Raise _ => seeded partial_template 2 ∅
  end.

(** A node with two talents of which one may be taken. *)
Definition two_choices (id : string) (gate : Z)
    (parents children : list string) : TalentTreeNode :=
  {| node_id := id;
     choices := [ {| talent_name := id +:+ "x"; max_points := 1 |};
                  {| talent_name := id +:+ "y"; max_points := 1 |} ];
     gate_id := gate;
     parent_nodes := parents;
     child_nodes := children;
     sort_key := id |}.

(** [v] holds points in both of its choices and unlocks [b]. *)
Definition clash_template : TalentTree :=
  {| gate_info := {| gates := [mk_gate 0 0] |};
     nodes := [two_choices "v" 0 [] ["b"]; one_choice "b" 1 0 ["v"] []] |}.
Definition clash_tree : PlayerTalentTree := seeded clash_template 1 ∅.

(** A single node seeded twice. *)
Definition single_template : TalentTree :=
  {| gate_info := {| gates := [mk_gate 0 0] |};
     nodes := [one_choice "a" 1 0 [] []] |}.
Definition single_tree : PlayerTalentTree := seeded single_template 1 ∅.
Definition single_twice : PlayerTalentTree :=
  match skill_all_nodes single_tree ∅ with
  | Ok t => t
  | Raise _ => single_tree
  end.

(** Two independent nodes of capacity 16: 32 points for a budget of 30. *)
Definition pair_template : TalentTree :=
  {| gate_info := {| gates := [mk_gate 0 0] |};
     nodes := [one_choice "a" 16 0 [] []; one_choice "b" 16 0 [] []] |}.

Definition player80 : Player :=
  {| name := "p"; level := 80; race := "night_elf" |}.

Definition locked_trees : LockedTalentTrees :=
  {| locked_class_tree := Some (FixedTalentStringProvider "c:1");
     locked_spec_tree := None;
     locked_hero_tree := Some (FixedTalentStringProvider "h:1") |}.

Definition no_blocks : TalentBlockList := {| blocked_spec_talents := ∅ |}.

(** A world without randomness: [shuffle] reverses, and the simulator
    scores a build by the length of its spec string, except that it fails
    on ["a:15/b:15"]. *)
#[local] Instance runtime : Runtime :=
  {| World := unit;
     float := Z;
     float_zero := 0;
     float_lt := Z.ltb;
     shuffle := λ A l w, (reverse l, w);
     uuid4 := λ w, ("0", w);
     run_simulation := λ input w,
       (match provider_to_talent_string
                (spec_talents (SimInput.talents input)) with
        | Ok s =>
            if decide (s = "a:15/b:15") then None
            else Some {| dps := Z.of_nat (String.length s) |}
        | Raise _ => None
        end, w);
     shuffle_perm := λ A l w, reverse_Permutation l |}.

Definition pair_seed : result Locals * Env :=
  seed_search {| spec := DEVOURER; spec_tree := pair_template |} player80 locked_trees no_blocks
    (start ()).

Definition pair_run : result (option Locals) * Env :=
  match pair_seed with
  | (Ok st, e) => while_beam default_config player80 locked_trees 3 st e
  | (Raise x, e) => (Raise x, e)
  end.

Definition single_seed : result Locals * Env :=
  seed_search {| spec := DEVOURER; spec_tree := single_template |} player80 locked_trees no_blocks
    (start ()).

Definition single_run : result (option Locals) * Env :=
  match single_seed with
  | (Ok st, e) => while_beam default_config player80 locked_trees 5 st e
  | (Raise x, e) => (Raise x, e)
  end.

Definition pair_forest : ClassTalentForest := {| spec := DEVOURER; spec_tree := pair_template |}.
Definition pair_tree : PlayerTalentTree := seeded pair_template 30 ∅.

(** The state and the environment in which the loop is entered. *)
Definition pair_st0 : Locals :=
  match pair_seed.1 with
  | Ok st => st
  | Raise _ => initial_locals (H := runtime) pair_tree "" 0
  end.
Definition pair_e0 : Env := pair_seed.2.

(** The state and the environment after the first iteration. *)
Definition pair_st1 : Locals :=
  match (iterate default_config player80 locked_trees pair_st0 pair_e0).1 with
  | Ok r => r.1
  | Raise _ => pair_st0
  end.
Definition pair_e1 : Env :=
  (iterate default_config player80 locked_trees pair_st0 pair_e0).2.

(** Seeded, this template serializes to the string the simulator of
    [runtime] fails on. *)
Definition failing_forest : ClassTalentForest :=
  {| spec := DEVOURER;
     spec_tree :=
       {| gate_info := {| gates := [mk_gate 0 0] |};
          nodes := [one_choice "a" 15 0 [] []; one_choice "b" 15 0 [] []] |}
  |}.

(** A choice node with a point in its first choice. *)
Definition choice_node : TalentTreeNode :=
  {| node_id := "n";
     choices := [ {| talent_name := "left"; max_points := 2 |};
                  {| talent_name := "right"; max_points := 1 |} ];
     gate_id := 0; parent_nodes := []; child_nodes := [];
     sort_key := "n" |}.
Definition left_chosen : PlayerTalentNodeSelection :=
  {| node_reference := choice_node;
     points_spent_by_choice_index := [1; 0] |}.


(** The search over [pair_template] and the locals with which its loop
    ends. *)
Definition pair_search
    : result (option (BeamSearchOptimizationResult (H := runtime)))
      * Env (H := runtime) :=
  beam_search_optimal_talents 3 default_config pair_forest player80
    (Some locked_trees) (Some no_blocks) (start (H := runtime) ()).
Definition pair_result : BeamSearchOptimizationResult (H := runtime) :=
  match pair_search.1 with
  | Ok (Some res) => res
  | _ => search_result locked_trees pair_st0
  end.
Definition pair_loop : result (option (Locals (H := runtime)))
                       * Env (H := runtime) :=
  while_beam default_config player80 locked_trees 3 pair_st0 pair_e0.
Definition pair_final : Locals (H := runtime) :=
  match pair_loop.1 with
  | Ok (Some st) => st
  | _ => pair_st0
  end.

(** Twenty points below a gate that needs eighteen, fifteen above it:
    five more than a level 80 player has. *)
Definition tall_forest : ClassTalentForest :=
  {| spec := DEVOURER;
     spec_tree :=
       {| gate_info := {| gates := [mk_gate 0 0; mk_gate 1 18] |};
          nodes := [one_choice "a" 20 0 [] []; one_choice "b" 15 1 [] []] |}
  |}.
Definition tall_search
    : result (option (BeamSearchOptimizationResult (H := runtime)))
      * Env (H := runtime) :=
  beam_search_optimal_talents 6 default_config tall_forest player80
    (Some locked_trees) (Some no_blocks) (start (H := runtime) ()).
Definition tall_result : BeamSearchOptimizationResult (H := runtime) :=
  match tall_search.1 with
  | Ok (Some res) => res
  | _ => search_result locked_trees pair_st0
  end.
Definition tall_best : BestTalentTreeResult :=
  default {| best_class_tree_result := FixedTalentStringProvider "";
             best_spec_tree_result := FixedTalentStringProvider "";
             best_hero_tree_result := FixedTalentStringProvider "" |}
    (best_tree_result tall_result).

Definition two_checkpoints : list RowCheckpoint :=
  [ {| RowCheckpoint.row := 6; RowCheckpoint.points := 20 |};
    {| RowCheckpoint.row := 3; RowCheckpoint.points := 8 |} ].

(** The space and the em space U+2003 count as whitespace. *)
Definition em_space (c : Z) : bool := bool_decide (c ∈ [32; 8195]).

(** The name [Void], an em space, [Ray]. *)
Definition void_ray : list Z :=
  code_points "Void" ++ [8195] ++ code_points "Ray".

(** Two nodes, the second a choice node below the first, and one
    checkpoint between their rows. *)
Definition small_spec : Spec :=
  {| Spec.id := 1480;
     Spec.name := "Devourer";
     Spec.spec_nodes :=
       [("1", {| SpecNode.id := 1; SpecNode.previous_node_ids := [];
                 SpecNode.row := 0; SpecNode.column := 2;
                 SpecNode.spells :=
                   [ {| Spell.spell_id := 10;
                        Spell.name := code_points "Void Ray";
                        Spell.max_ranks := 1 |} ] |});
        ("2", {| SpecNode.id := 2; SpecNode.previous_node_ids := [1];
                 SpecNode.row := 4; SpecNode.column := 1;
                 SpecNode.spells :=
                   [ {| Spell.spell_id := 20;
                        Spell.name := code_points "Entropy";
                        Spell.max_ranks := 1 |};
                     {| Spell.spell_id := 21;
                        Spell.name := code_points "Waste Not";
                        Spell.max_ranks := 1 |} ] |})];
     Spec.spec_checkpoints :=
       [ {| RowCheckpoint.row := 3; RowCheckpoint.points := 1 |} ] |}.

(** The same spec without its first node. *)
Definition dangling_spec : Spec :=
  {| Spec.id := 1480;
     Spec.name := "Devourer";
     Spec.spec_nodes := drop 1 (Spec.spec_nodes small_spec);
     Spec.spec_checkpoints := Spec.spec_checkpoints small_spec |}.

Definition blank (c : Z) : bool := bool_decide (c = code_point " ").

Definition small_forest : ClassTalentForest :=
  match convert blank small_spec with
  | Returns forest => forest
  | _ => {| spec := DEVOURER;
            spec_tree := {| gate_info := {| gates := [] |}; nodes := [] |} |}
  end.

Definition small_seed : result (Locals (H := runtime)) * Env (H := runtime) :=
  seed_search small_forest player80 locked_trees no_blocks
    (start (H := runtime) ()).
Definition small_tree : PlayerTalentTree :=
  seeded (spec_tree small_forest) 30 ∅.
Definition small_st0 : Locals (H := runtime) :=
  match small_seed.1 with
  | Ok st => st
  | Raise _ => initial_locals (H := runtime) small_tree "" 0
  end.
End Examples.

Import Examples.

(** * Properties *)

(** Closes a decidable goal by evaluation. *)
Ltac by_computation := apply (bool_decide_unpack _); vm_compute; exact I.

(** ** The exception monad *)

Lemma bind_Ok {A B} (f : A → result B) (m : result A) b :
  m ≫= f = Ok b ↔ ∃ a, m = Ok a ∧ f a = Ok b.
Proof.
  destruct m; simpl; split; try by eauto.
  - by intros (? & [= <-] & ?).
  - by intros (? & [=] & ?).
Qed.

Lemma for_each_app {A S} (f : A → S → result S) l1 l2 s :
  for_each f (l1 ++ l2) s = for_each f l1 s ≫= for_each f l2.
Proof.
  revert s. induction l1 as [|x l1 IH]; intros s; simpl; [done|].
  destruct (f x s) as [s'|e]; simpl; [apply IH|done].
Qed.

(** A loop whose body keeps an invariant and cannot fail under it
    succeeds and keeps the invariant. *)
Lemma for_each_inv {A S} (I : S → Prop) (f : A → S → result S) l s :
  I s →
  (∀ x s, x ∈ l → I s → ∃ s', f x s = Ok s' ∧ I s') →
  ∃ s', for_each f l s = Ok s' ∧ I s'.
Proof.
  revert s. induction l as [|x l IH]; intros s Hs Hf; simpl; [by eauto|].
  destruct (Hf x s) as (s' & -> & Hs'); [left|done|]. simpl.
  apply IH; [done|]. intros y s0 Hy. apply Hf. by right.
Qed.

(** ** Sums *)

Lemma sum_app l1 l2 : sum (l1 ++ l2) = sum l1 + sum l2.
Proof. induction l1; simpl; lia. Qed.

Lemma sum_insert (l : list Z) i p q :
  l !! i = Some p → sum (<[i:=q]> l) = sum l - p + q.
Proof.
  revert i. induction l as [|x l IH]; intros [|i] Hi; simplify_eq/=; [lia|].
  rewrite (IH _ Hi). lia.
Qed.

Lemma sum_zeros {A} (l : list A) : sum ((λ _, 0) <$> l) = 0.
Proof. induction l as [|x l IH]; csimpl; [done|]. by rewrite IH. Qed.

Lemma sum_Permutation l1 l2 : l1 ≡ₚ l2 → sum l1 = sum l2.
Proof. induction 1; simpl; lia. Qed.

(** ** Dictionaries *)

Section dict.
Context {V : Type}.
Implicit Types (d : dict V) (k : string) (v : V).

Lemma dict_get_None k d : dict_get k d = None ↔ k ∉ dict_keys d.
Proof.
  unfold dict_keys. induction d as [|[k' v'] d IH]; simpl.
  - split; [intros _; apply not_elem_of_nil|done].
  - rewrite not_elem_of_cons. case_decide; naive_solver.
Qed.

Lemma dict_get_is_Some k d : is_Some (dict_get k d) ↔ k ∈ dict_keys d.
Proof.
  rewrite <-not_eq_None_Some, dict_get_None.
  split; [apply dec_stable|naive_solver].
Qed.

Lemma dict_get_elem_of k v d : dict_get k d = Some v → (k, v) ∈ d.
Proof.
  induction d as [|[k' v'] d IH]; simpl; [done|].
  case_decide; intros; simplify_eq; [left|right; auto].
Qed.

Lemma elem_of_dict_get k v d :
  NoDup (dict_keys d) → (k, v) ∈ d → dict_get k d = Some v.
Proof.
  unfold dict_keys. induction d as [|[k' v'] d IH]; simpl.
  - by intros _ ?%elem_of_nil.
  - rewrite NoDup_cons. intros [Hk Hd] Hin.
    apply elem_of_cons in Hin as [?|Hin]; simplify_eq.
    + by case_decide.
    + case_decide; [|auto]. subst. destruct Hk.
      apply list_elem_of_fmap. by exists (k, v).
Qed.

(** Where a present key sits, and what assigning to it does. *)
Lemma dict_get_split k v d :
  dict_get k d = Some v →
  ∃ d1 d2, d = d1 ++ ((k, v) :: d2) ∧ (k ∉ dict_keys d1) ∧
           (∀ v', dict_set k v' d = d1 ++ ((k, v') :: d2)).
Proof.
  induction d as [|[k' v0] d IH]; [done|].
  intros Hg. simpl in Hg. case_decide as Hk; simplify_eq.
  - exists [], d. split_and!; [done|apply not_elem_of_nil|].
    intros v'. simpl. by rewrite decide_True.
  - destruct (IH Hg) as (d1 & d2 & -> & Hd1 & Hset).
    exists ((k', v0) :: d1), d2. split_and!; [done| |].
    + unfold dict_keys in *. simpl. rewrite not_elem_of_cons. naive_solver.
    + intros v'. simpl. rewrite decide_False by done. by rewrite Hset.
Qed.

Lemma dict_get_app_r k d1 d2 :
  k ∉ dict_keys d1 → dict_get k (d1 ++ d2) = dict_get k d2.
Proof.
  unfold dict_keys. induction d1 as [|[k' v'] d1 IH]; simpl; [done|].
  rewrite not_elem_of_cons. intros [??]. rewrite decide_False by done. auto.
Qed.

Lemma dict_get_set k k' v d :
  dict_get k' (dict_set k v d)
  = if decide (k = k') then Some v else dict_get k' d.
Proof.
  induction d as [|[k0 v0] d IH]; simpl.
  - by repeat case_decide.
  - destruct (decide (k0 = k)) as [->|Hk0]; simpl.
    + by repeat case_decide.
    + rewrite IH. by repeat case_decide; simplify_eq.
Qed.

Lemma dict_keys_set_present k v d :
  k ∈ dict_keys d → dict_keys (dict_set k v d) = dict_keys d.
Proof.
  intros [v0 Hv0]%dict_get_is_Some.
  destruct (dict_get_split _ _ _ Hv0) as (d1 & d2 & -> & _ & ->).
  unfold dict_keys. by rewrite !fmap_app.
Qed.

Lemma dict_keys_set_absent k v d :
  k ∉ dict_keys d → dict_set k v d = d ++ [(k, v)].
Proof.
  unfold dict_keys. induction d as [|[k0 v0] d IH]; simpl; [done|].
  rewrite not_elem_of_cons. intros [??].
  rewrite decide_False by done. by rewrite IH.
Qed.

Lemma dict_set_NoDup k v d :
  NoDup (dict_keys d) → NoDup (dict_keys (dict_set k v d)).
Proof.
  intros Hd. destruct (decide (k ∈ dict_keys d)) as [Hk|Hk].
  - by rewrite dict_keys_set_present.
  - rewrite dict_keys_set_absent by done. unfold dict_keys in *.
    rewrite fmap_app. apply NoDup_app. split_and!; [done| |].
    + intros x Hx [->|[]%elem_of_nil]%elem_of_cons. done.
    + apply NoDup_singleton.
Qed.

End dict.

Section dict_more.
Context {V : Type}.
Implicit Types (d : dict V) (k : string) (v : V).

Lemma dict_set_app_r k v d1 d2 :
  k ∉ dict_keys d1 → dict_set k v (d1 ++ d2) = d1 ++ dict_set k v d2.
Proof.
  unfold dict_keys. induction d1 as [|[k' v'] d1 IH]; simpl; [done|].
  rewrite not_elem_of_cons. intros [??].
  rewrite decide_False by done. by rewrite IH.
Qed.

(** Assigning, in order, to every key of a dictionary replaces all of
    its values and keeps the order of the keys. *)
Lemma dict_overwrite d1 d2 d2' :
  dict_keys d2 = dict_keys d2' →
  NoDup (dict_keys (d1 ++ d2)) →
  foldl (λ d item, dict_set item.1 item.2 d) (d1 ++ d2) d2' = d1 ++ d2'.
Proof.
  unfold dict_keys. revert d1 d2.
  induction d2' as [|[k v] d2' IH]; intros d1 [|[k0 v0] d2] Hk Hnd;
    simplify_eq/=.
  - done.
  - assert (k ∉ d1.*1) as Hk1.
    { rewrite fmap_app in Hnd. apply NoDup_app in Hnd as (_ & Hd & _).
      intros ?. apply (Hd k); [done|]. simpl. left. }
    rewrite dict_set_app_r by done. simpl. rewrite decide_True by done.
    rewrite (cons_middle _ d1 d2), (cons_middle _ d1 d2'), !assoc by apply _.
    apply IH; [done|].
    replace ((d1 ++ [(k, v)]) ++ d2).*1 with ((d1 ++ (k, v0) :: d2).*1);
      [done|]. rewrite !fmap_app. simpl. by rewrite <-app_assoc.
Qed.

Lemma dict_set_Forall (P : string * V → Prop) k v d :
  P (k, v) → Forall P d → Forall P (dict_set k v d).
Proof.
  intros Hkv. induction 1 as [|[k' v'] d Hx Hd IH]; simpl.
  - by repeat constructor.
  - case_decide; constructor; auto.
Qed.
End dict_more.

(** ** Construction and copying *)

Lemma new_selection_Ok node pts :
  length pts = length (choices node) →
  new_selection node pts
  = Ok {| node_reference := node; points_spent_by_choice_index := pts |}.
Proof. intros Hl. unfold new_selection. by rewrite decide_False by congruence. Qed.

Lemma _get_empty_selections_dict_Ok tpl :
  _get_empty_selections_dict tpl = Ok (empty_selections tpl).
Proof.
  unfold _get_empty_selections_dict, empty_selections.
  generalize (@nil (string * PlayerTalentNodeSelection)).
  induction (nodes tpl) as [|n ns IH]; intros d; simpl; [done|].
  rewrite new_selection_Ok by by rewrite length_fmap. simpl. apply IH.
Qed.

Lemma new_PlayerTalentTree_Ok tpl budget :
  new_PlayerTalentTree tpl budget = Ok (fresh_tree tpl budget).
Proof.
  unfold new_PlayerTalentTree. by rewrite _get_empty_selections_dict_Ok.
Qed.

Lemma empty_selections_NoDup tpl : NoDup (dict_keys (empty_selections tpl)).
Proof.
  unfold empty_selections.
  assert (NoDup (dict_keys (@nil (string * PlayerTalentNodeSelection))))
    as Hnil by constructor.
  revert Hnil. generalize (@nil (string * PlayerTalentNodeSelection)).
  induction (nodes tpl) as [|n ns IH]; intros d Hd; simpl; [done|].
  apply IH. by apply dict_set_NoDup.
Qed.

Lemma wf_tree_NoDup t : wf_tree t → NoDup (dict_keys (_selection_by_node_id t)).
Proof. intros (_ & -> & _). apply empty_selections_NoDup. Qed.

Lemma fresh_tree_wf tpl budget : wf_tree (fresh_tree tpl budget).
Proof.
  split_and!; [done..|]. simpl.
  unfold selection_ok, empty_selections, template_node_by_id. simpl.
  cut (∀ (d : dict PlayerTalentNodeSelection) (m : gmap string TalentTreeNode),
    NoDup (dict_keys d) →
    Forall (λ item, m !! item.1 = Some (node_reference item.2)
                    ∧ node_id (node_reference item.2) = item.1
                    ∧ length (points_spent_by_choice_index item.2)
                      = length (choices (node_reference item.2))) d →
    Forall (λ item,
        foldl (λ m node, <[node_id node:=node]> m) m (nodes tpl) !! item.1
          = Some (node_reference item.2)
        ∧ node_id (node_reference item.2) = item.1
        ∧ length (points_spent_by_choice_index item.2)
          = length (choices (node_reference item.2)))
      (foldl (λ d node,
           dict_set (node_id node)
             {| node_reference := node;
                points_spent_by_choice_index := (λ _, 0) <$> choices node |} d)
         d (nodes tpl))).
  { intros Hcut. apply Hcut; constructor. }
  induction (nodes tpl) as [|n ns IH]; intros d m Hnd Hd; simpl; [done|].
  apply IH; [by apply dict_set_NoDup|].
  assert (∀ d' : dict PlayerTalentNodeSelection,
    node_id n ∉ dict_keys d' →
    Forall (λ item, m !! item.1 = Some (node_reference item.2)
                    ∧ node_id (node_reference item.2) = item.1
                    ∧ length (points_spent_by_choice_index item.2)
                      = length (choices (node_reference item.2))) d' →
    Forall (λ item, <[node_id n:=n]> m !! item.1
                      = Some (node_reference item.2)
                    ∧ node_id (node_reference item.2) = item.1
                    ∧ length (points_spent_by_choice_index item.2)
                      = length (choices (node_reference item.2))) d')
    as Hkeep.
  { intros d' Hk Hd'. apply Forall_forall. intros [k s] Hin.
    rewrite Forall_forall in Hd'. destruct (Hd' _ Hin) as (? & ? & ?).
    simpl in *. split_and!; [|done..].
    rewrite lookup_insert_ne; [done|]. intros <-.
    apply Hk, list_elem_of_fmap. by exists (node_id n, s). }
  destruct (dict_get (node_id n) d) as [s0|] eqn:Hg.
  - destruct (dict_get_split _ _ _ Hg) as (d1 & d2 & -> & Hk1 & ->).
    unfold dict_keys in Hnd. rewrite fmap_app in Hnd. simpl in Hnd.
    apply NoDup_app in Hnd as (_ & Hd12 & [Hk2 _]%NoDup_cons).
    rewrite Forall_app, Forall_cons in Hd. destruct Hd as (Hd1 & _ & Hd2).
    rewrite Forall_app, Forall_cons. simpl. split_and!; [by apply Hkeep| | | |by apply Hkeep].
    + by rewrite lookup_insert_eq.
    + done.
    + by rewrite length_fmap.
  - apply dict_get_None in Hg. rewrite dict_keys_set_absent by done.
    rewrite Forall_app, Forall_singleton. simpl.
    split_and!; [by apply Hkeep| | |].
    + by rewrite lookup_insert_eq.
    + done.
    + by rewrite length_fmap.
Qed.

(** [copy] returns an allocation equal to the original. *)
Lemma copy_Ok t : wf_tree t → copy t = Ok t.
Proof.
  intros (Hby & Hkeys & Hsel). unfold copy.
  rewrite new_PlayerTalentTree_Ok. simpl.
  assert (for_each (λ item d,
              new_selection ← new_selection (node_reference item.2)
                                (points_spent_by_choice_index item.2);
              Ok (dict_set item.1 new_selection d))
            (_selection_by_node_id t) (empty_selections (_tree_template t))
          = Ok (_selection_by_node_id t)) as ->.
  { transitivity (Ok (foldl (λ d item, dict_set item.1 item.2 d)
                       (empty_selections (_tree_template t))
                       (_selection_by_node_id t))).
    - clear Hkeys Hby. generalize (empty_selections (_tree_template t)).
      induction Hsel as [|[k s] d (_ & _ & Hl) _ IH]; intros d0; simpl; [done|].
      rewrite new_selection_Ok by done. simpl. destruct s. apply IH.
    - f_equal.
      apply (dict_overwrite [] (empty_selections (_tree_template t))
               (_selection_by_node_id t)); [done|].
      apply empty_selections_NoDup. }
  simpl. destruct t; simpl in *. by rewrite Hby.
Qed.

(** ** Per-gate totals *)

Lemma gate_get_add m g x g' :
  gate_get (gate_add m g x) g'
  = gate_get m g' + (if decide (g = g') then x else 0).
Proof.
  unfold gate_add, gate_get. case_decide as Hg.
  - subst. rewrite lookup_insert_eq. simpl. done.
  - rewrite lookup_insert_ne by done. lia.
Qed.

Lemma gate_get_empty g : gate_get ∅ g = 0.
Proof. unfold gate_get. by rewrite lookup_empty. Qed.

Lemma points_in_gate_nil g : points_in_gate [] g = 0.
Proof. done. Qed.

Lemma points_in_gate_cons k s d g :
  points_in_gate ((k, s) :: d) g = points_of g s + points_in_gate d g.
Proof. done. Qed.

Lemma points_in_gate_app d1 d2 g :
  points_in_gate (d1 ++ d2) g = points_in_gate d1 g + points_in_gate d2 g.
Proof.
  unfold points_in_gate, dict_values. by rewrite !fmap_app, sum_app.
Qed.

Lemma total_points_app (d1 d2 : dict PlayerTalentNodeSelection) :
  sum ((λ s, sum (points_spent_by_choice_index s)) <$> dict_values (d1 ++ d2))
  = sum ((λ s, sum (points_spent_by_choice_index s)) <$> dict_values d1)
    + sum ((λ s, sum (points_spent_by_choice_index s)) <$> dict_values d2).
Proof. unfold dict_values. by rewrite !fmap_app, sum_app. Qed.

(** ** Removing a point *)

Lemma remove_point_from_choice_inv s c s' :
  remove_point_from_choice s c = Ok s' →
  ∃ p, 0 ≤ c < Z.of_nat (length (choices (node_reference s)))
       ∧ points_spent_by_choice_index s !! Z.to_nat c = Some p
       ∧ 0 < p
       ∧ s' = decremented s (Z.to_nat c) p.
Proof.
  unfold remove_point_from_choice. case_decide as Hc; [done|].
  destruct (_ !! _) as [p|] eqn:Hp; [|done].
  case_decide; [done|]. intros [= <-]. exists p. split_and!; [lia..|done|lia|done].
Qed.

Lemma remove_point_from_choice_Ok s c p :
  0 ≤ c < Z.of_nat (length (choices (node_reference s))) →
  points_spent_by_choice_index s !! Z.to_nat c = Some p →
  0 < p →
  remove_point_from_choice s c = Ok (decremented s (Z.to_nat c) p).
Proof.
  intros Hc Hp Hpos. unfold remove_point_from_choice.
  rewrite decide_False by lia. rewrite Hp. by rewrite decide_False by lia.
Qed.

Lemma decrement_node_inv t nid c t' :
  decrement_node t nid c = Ok t' →
  ∃ s p, dict_get nid (_selection_by_node_id t) = Some s
         ∧ 0 ≤ c < Z.of_nat (length (choices (node_reference s)))
         ∧ points_spent_by_choice_index s !! Z.to_nat c = Some p
         ∧ 0 < p
         ∧ t' = decrement_result t nid s (Z.to_nat c) p.
Proof.
  unfold decrement_node, dict_item.
  destruct (dict_get nid _) as [s|] eqn:Hs; simpl; [|done].
  destruct (remove_point_from_choice s c) as [s'|] eqn:Hrm; simpl; [|done].
  apply remove_point_from_choice_inv in Hrm as (p & ? & ? & ? & ->).
  intros [= <-]. by exists s, p.
Qed.

Lemma decrement_node_Ok t nid c s p :
  dict_get nid (_selection_by_node_id t) = Some s →
  0 ≤ c < Z.of_nat (length (choices (node_reference s))) →
  points_spent_by_choice_index s !! Z.to_nat c = Some p →
  0 < p →
  decrement_node t nid c = Ok (decrement_result t nid s (Z.to_nat c) p).
Proof.
  intros Hs Hc Hp Hpos. unfold decrement_node, dict_item. rewrite Hs. simpl.
  by rewrite (remove_point_from_choice_Ok _ _ p).
Qed.

Lemma decrement_result_total t nid s i p :
  dict_get nid (_selection_by_node_id t) = Some s →
  points_spent_by_choice_index s !! i = Some p →
  get_total_points_spent (decrement_result t nid s i p)
  = get_total_points_spent t - 1.
Proof.
  intros Hs Hp. unfold get_total_points_spent. simpl.
  destruct (dict_get_split _ _ _ Hs) as (d1 & d2 & -> & _ & ->).
  rewrite !total_points_app. unfold dict_values. simpl.
  rewrite (sum_insert _ _ p) by done. lia.
Qed.

Lemma decrement_result_points_in_gate t nid s i p g :
  dict_get nid (_selection_by_node_id t) = Some s →
  points_spent_by_choice_index s !! i = Some p →
  points_in_gate (_selection_by_node_id (decrement_result t nid s i p)) g
  = points_in_gate (_selection_by_node_id t) g
    + (if decide (gate_id (node_reference s) = g) then -1 else 0).
Proof.
  intros Hs Hp. simpl.
  destruct (dict_get_split _ _ _ Hs) as (d1 & d2 & -> & _ & ->).
  rewrite !points_in_gate_app, !points_in_gate_cons. unfold points_of. simpl.
  case_decide; [|lia]. rewrite (sum_insert _ _ p) by done. lia.
Qed.

Lemma decrement_result_points_at t nid s i p nid' i' :
  dict_get nid (_selection_by_node_id t) = Some s →
  points_spent_by_choice_index s !! i = Some p →
  points_at (decrement_result t nid s i p) nid' i'
  = if decide ((nid', i') = (nid, i)) then Some (p - 1)
    else points_at t nid' i'.
Proof.
  intros Hs Hp. unfold points_at. simpl. rewrite dict_get_set.
  destruct (decide (nid = nid')) as [<-|Hn]; simpl.
  - rewrite Hs. simpl. destruct (decide (i = i')) as [<-|Hi].
    + rewrite decide_True by done. apply list_lookup_insert_eq.
      by eapply lookup_lt_Some.
    + rewrite decide_False by congruence. by apply list_lookup_insert_ne.
  - by rewrite decide_False by congruence.
Qed.

(** ** Allocations of the same shape *)

Lemma same_shape_refl d : same_shape d d.
Proof. apply Forall_Forall2_diag, Forall_forall. done. Qed.

Lemma same_shape_keys d d' : same_shape d d' → dict_keys d' = dict_keys d.
Proof.
  unfold dict_keys. induction 1 as [|[??] [??] ?? (? & _) _ IH];
    simplify_eq/=; [done|]. by rewrite IH.
Qed.

Lemma same_shape_app d1 d2 d1' d2' :
  same_shape d1 d1' → same_shape d2 d2' → same_shape (d1 ++ d2) (d1' ++ d2').
Proof. apply Forall2_app. Qed.

Lemma same_shape_set k s s' d :
  dict_get k d = Some s →
  node_reference s' = node_reference s →
  length (points_spent_by_choice_index s')
    = length (points_spent_by_choice_index s) →
  same_shape d (dict_set k s' d).
Proof.
  intros Hs Hn Hl. destruct (dict_get_split _ _ _ Hs) as (d1 & d2 & -> & _ & ->).
  apply same_shape_app; [apply same_shape_refl|].
  constructor; [done|apply same_shape_refl].
Qed.

Lemma wf_tree_same_shape t t' :
  wf_tree t →
  _tree_template t' = _tree_template t →
  _template_node_by_id t' = _template_node_by_id t →
  same_shape (_selection_by_node_id t) (_selection_by_node_id t') →
  wf_tree t'.
Proof.
  intros (Hby & Hkeys & Hsel) Htpl Hby' Hshape. split_and!.
  - by rewrite Hby', Htpl.
  - by rewrite Htpl, (same_shape_keys _ _ Hshape).
  - unfold selection_ok in *. rewrite Hby'. clear Hkeys.
    induction Hshape as [|[k s] [k' s'] d d' (? & Hn & Hl) _ IH];
      simplify_eq/=; [done|].
    apply Forall_cons in Hsel as [(? & ? & ?) Hsel]. simpl in *.
    constructor; [|by apply IH]. simpl. rewrite <-Hn, <-Hl. done.
Qed.

Lemma closed_tree_same_shape t t' :
  closed_tree t →
  same_shape (_selection_by_node_id t) (_selection_by_node_id t') →
  closed_tree t'.
Proof.
  unfold closed_tree. intros Hc Hshape.
  rewrite (same_shape_keys _ _ Hshape).
  generalize dependent (dict_keys (_selection_by_node_id t)). intros ks Hc.
  induction Hshape as [|[k s] [k' s'] d d' (? & Hn & Hl) _ IH];
    simplify_eq/=; [done|].
  apply Forall_cons in Hc as [Hs Hc]. simpl in *.
  constructor; [|by apply IH]. simpl. by rewrite <-Hn.
Qed.

Lemma decrement_result_same_shape t nid s i p :
  dict_get nid (_selection_by_node_id t) = Some s →
  same_shape (_selection_by_node_id t)
    (_selection_by_node_id (decrement_result t nid s i p)).
Proof.
  intros Hs. simpl. eapply same_shape_set; [done..|].
  simpl. by rewrite length_insert.
Qed.

Lemma decrement_node_wf t nid c t' :
  wf_tree t → decrement_node t nid c = Ok t' → wf_tree t'.
Proof.
  intros Hwf (s & p & Hs & _ & _ & _ & ->)%decrement_node_inv.
  eapply wf_tree_same_shape; [done..|]. by apply decrement_result_same_shape.
Qed.

Lemma decrement_node_closed t nid c t' :
  closed_tree t → decrement_node t nid c = Ok t' → closed_tree t'.
Proof.
  intros Hwf (s & p & Hs & _ & _ & _ & ->)%decrement_node_inv.
  eapply closed_tree_same_shape; [done|]. by apply decrement_result_same_shape.
Qed.

(** ** Seeding *)

Lemma skill_choice_blocked except_for node i c st :
  (node_id node, i) ∈ except_for →
  skill_choice except_for node (i, c) st = Ok st.
Proof. intros. unfold skill_choice. simpl. by rewrite bool_decide_eq_true_2. Qed.

Lemma skill_choice_unblocked except_for node i c pts spent :
  (node_id node, i) ∉ except_for →
  (Z.to_nat i < length pts)%nat →
  skill_choice except_for node (i, c) (pts, spent)
  = Ok (<[Z.to_nat i := max_points c]> pts,
        gate_add spent (gate_id node) (max_points c)).
Proof.
  intros. unfold skill_choice. simpl.
  rewrite bool_decide_eq_false_2 by done. by rewrite decide_True.
Qed.

Lemma skill_choices_spec except_for node cs n pts spent :
  0 ≤ n →
  length pts = (Z.to_nat n + length cs)%nat →
  (∀ (j : nat) p, n ≤ Z.of_nat j → pts !! j = Some p →
     (node_id node, Z.of_nat j) ∉ except_for → p = 0) →
  ∃ pts' spent',
    for_each (skill_choice except_for node) (enumerate_from n cs) (pts, spent)
      = Ok (pts', spent')
    ∧ length pts' = length pts
    ∧ ∀ g, gate_get spent' g - gate_get spent g
           = if decide (gate_id node = g) then sum pts' - sum pts else 0.
Proof.
  revert n pts spent.
  induction cs as [|c cs IH]; intros n pts spent Hn Hlen Hzero; simpl.
  - exists pts, spent. split_and!; [done..|]. intros g. case_decide; lia.
  - destruct (decide ((node_id node, n) ∈ except_for)) as [Hblocked|Hblocked].
    + rewrite skill_choice_blocked by done. simpl.
      destruct (IH (n + 1) pts spent) as (pts' & spent' & Heq & ? & ?);
        [lia|simpl in *; lia| |by eauto].
      intros j p ?. apply Hzero. lia.
    + rewrite skill_choice_unblocked by (simpl in *; done || lia). simpl.
      destruct (lookup_lt_is_Some_2 pts (Z.to_nat n)) as [p0 Hp0];
        [simpl in *; lia|].
      assert (p0 = 0) as ->.
      { apply (Hzero (Z.to_nat n)); [lia|done|]. by rewrite Z2Nat.id. }
      destruct (IH (n + 1) (<[Z.to_nat n := max_points c]> pts)
                  (gate_add spent (gate_id node) (max_points c)))
        as (pts' & spent' & Heq & Hl & Hg).
      * lia.
      * rewrite length_insert. simpl in *. lia.
      * intros j p ? Hj. rewrite list_lookup_insert_ne in Hj by lia.
        apply Hzero; [lia|done].
      * exists pts', spent'. rewrite length_insert in Hl.
        split_and!; [done..|]. intros g. specialize (Hg g).
        rewrite gate_get_add in Hg.
        rewrite (sum_insert _ _ 0) in Hg by done.
        repeat case_decide; simplify_eq; lia.
Qed.

Lemma skill_selections_spec except_for d spent :
  Forall (λ item : string * PlayerTalentNodeSelection,
      length (points_spent_by_choice_index item.2)
      = length (choices (node_reference item.2))) d →
  unblocked_zero except_for d →
  ∃ d' spent',
    skill_selections except_for d spent = Ok (d', spent')
    ∧ same_shape d d'
    ∧ ∀ g, gate_get spent' g - gate_get spent g
           = points_in_gate d' g - points_in_gate d g.
Proof.
  intros Hlen. revert spent.
  induction Hlen as [|[k s] d Hl _ IH]; intros spent Hz; simpl.
  - exists [], spent. split_and!; [done|constructor|]. intros g. lia.
  - apply Forall_cons in Hz as [Hzs Hz]. simpl in *.
    destruct (skill_choices_spec except_for (node_reference s)
                (choices (node_reference s)) 0
                (points_spent_by_choice_index s) spent)
      as (pts' & spent1 & Heq1 & Hl1 & Hg1); [done|simpl; lia| |].
    { intros j p _. apply Hzs. }
    fold (enumerate (choices (node_reference s))) in Heq1.
    rewrite Heq1. simpl.
    destruct (IH spent1 Hz) as (d' & spent' & Heq & Hshape & Hg).
    rewrite Heq.
    simpl. eexists _, _. split_and!; [done| |].
    + constructor; [|done]. simpl. by rewrite Hl1.
    + intros g. rewrite !points_in_gate_cons. unfold points_of. simpl.
      specialize (Hg g). specialize (Hg1 g). case_decide; lia.
Qed.

Lemma wf_tree_lengths t :
  wf_tree t →
  Forall (λ item : string * PlayerTalentNodeSelection,
      length (points_spent_by_choice_index item.2)
      = length (choices (node_reference item.2))) (_selection_by_node_id t).
Proof.
  intros (_ & _ & Hsel). eapply Forall_impl; [done|]. by intros ? (_ & _ & ?).
Qed.

(** [skill_all_nodes] on an allocation whose unblocked choices are all
    empty: it succeeds, keeps the shape and adds to every gate total what
    it added to the nodes of that gate. *)
Lemma skill_all_nodes_spec t except_for :
  wf_tree t →
  unblocked_zero except_for (_selection_by_node_id t) →
  ∃ t', skill_all_nodes t except_for = Ok t'
        ∧ _tree_template t' = _tree_template t
        ∧ _template_node_by_id t' = _template_node_by_id t
        ∧ _max_points_available t' = _max_points_available t
        ∧ same_shape (_selection_by_node_id t) (_selection_by_node_id t')
        ∧ ∀ g, gate_get (_spent_points_by_gate t') g
               - gate_get (_spent_points_by_gate t) g
               = points_in_gate (_selection_by_node_id t') g
                 - points_in_gate (_selection_by_node_id t) g.
Proof.
  intros Hwf Hz. unfold skill_all_nodes.
  destruct (skill_selections_spec except_for (_selection_by_node_id t)
              (_spent_points_by_gate t) (wf_tree_lengths _ Hwf) Hz)
    as (d' & spent' & Heq & ? & ?).
  rewrite Heq. simpl. eexists. split_and!; [done..|]. done.
Qed.

Lemma empty_selections_zero tpl :
  Forall (λ item : string * PlayerTalentNodeSelection,
      Forall (λ p, p = 0) (points_spent_by_choice_index item.2))
    (empty_selections tpl).
Proof.
  unfold empty_selections.
  assert (Forall (λ item : string * PlayerTalentNodeSelection,
            Forall (λ p, p = 0) (points_spent_by_choice_index item.2)) [])
    as Hnil by constructor.
  revert Hnil. generalize (@nil (string * PlayerTalentNodeSelection)).
  induction (nodes tpl) as [|n ns IH]; intros d Hd; simpl; [done|].
  apply IH. apply dict_set_Forall; [|done]. simpl.
  apply Forall_fmap, Forall_forall. done.
Qed.

Lemma fresh_tree_unblocked_zero tpl budget except_for :
  unblocked_zero except_for (_selection_by_node_id (fresh_tree tpl budget)).
Proof.
  eapply Forall_impl; [apply empty_selections_zero|].
  intros [k s] Hs j p Hj _. simpl in *.
  rewrite Forall_forall in Hs. apply Hs. by eapply list_elem_of_lookup_2.
Qed.

Lemma sum_all_zero l : Forall (λ p, p = 0) l → sum l = 0.
Proof. induction 1 as [|p ps -> _ IH]; simpl; [done|]. by rewrite IH. Qed.

Lemma fresh_tree_consistent tpl budget :
  gate_totals_consistent (fresh_tree tpl budget).
Proof.
  intros g. simpl. rewrite gate_get_empty.
  pose proof (empty_selections_zero tpl) as Hz.
  induction Hz as [|[k s] d Hs _ IH]; [done|].
  rewrite points_in_gate_cons, <-IH. unfold points_of.
  case_decide; [|done]. simpl in Hs. by rewrite sum_all_zero.
Qed.

(** ** The gate-total invariant *)

Lemma skill_all_nodes_consistent t except_for :
  wf_tree t →
  gate_totals_consistent t →
  unblocked_zero except_for (_selection_by_node_id t) →
  ∃ t', skill_all_nodes t except_for = Ok t' ∧ gate_totals_consistent t'.
Proof.
  intros Hwf Hc Hz.
  destruct (skill_all_nodes_spec t except_for Hwf Hz)
    as (t' & Ht' & _ & _ & _ & _ & Hg).
  exists t'. split; [done|]. intros g. specialize (Hg g). rewrite Hc in Hg. lia.
Qed.

Lemma decrement_node_consistent t nid c t' :
  gate_totals_consistent t →
  decrement_node t nid c = Ok t' →
  gate_totals_consistent t'.
Proof.
  intros Hc (s & p & Hs & _ & Hp & _ & ->)%decrement_node_inv g.
  rewrite (decrement_result_points_in_gate _ _ _ _ _ _ Hs Hp). simpl.
  rewrite gate_get_add, Hc. done.
Qed.

(** ** Choices that hold points *)

Lemma elem_of_enumerate_from {A} (l : list A) n i x :
  (i, x) ∈ enumerate_from n l ↔ ∃ j : nat, i = n + Z.of_nat j ∧ l !! j = Some x.
Proof.
  revert n. induction l as [|y l IH]; intros n; simpl.
  - split; [by intros ?%elem_of_nil|by intros (j & _ & ?)].
  - rewrite elem_of_cons, IH. split.
    + intros [[= -> ->]|(j & -> & Hj)].
      * exists 0%nat. split; [lia|done].
      * exists (S j). split; [lia|done].
    + intros ([|j] & -> & Hj); simplify_eq/=.
      * left. f_equal. lia.
      * right. exists j. split; [lia|done].
Qed.

Lemma enumerate_from_NoDup {A} (l : list A) n :
  NoDup (enumerate_from n l).*1.
Proof.
  revert n. induction l as [|y l IH]; intros n; simpl; [constructor|].
  constructor; [|apply IH].
  intros ([i x] & ? & (j & ? & _)%elem_of_enumerate_from)%list_elem_of_fmap.
  simpl in *. lia.
Qed.

Lemma elem_of_choice_indices s i :
  i ∈ get_choice_indices_with_points s
  ↔ ∃ p, 0 ≤ i ∧ points_spent_by_choice_index s !! Z.to_nat i = Some p ∧ 0 < p.
Proof.
  unfold get_choice_indices_with_points, enumerate.
  rewrite list_elem_of_fmap. split.
  - intros ([i' p] & -> & [Hp (j & -> & Hj)%elem_of_enumerate_from]%list_elem_of_filter).
    simpl in *. exists p. rewrite Z.add_0_l, Nat2Z.id. split_and!; [lia|done..].
  - intros (p & Hi & Hp & Hpos). exists (i, p). split; [done|].
    apply list_elem_of_filter. split; [done|].
    apply elem_of_enumerate_from. exists (Z.to_nat i). split; [lia|done].
Qed.

Lemma choice_indices_NoDup s : NoDup (get_choice_indices_with_points s).
Proof.
  unfold get_choice_indices_with_points, enumerate.
  eapply sublist_NoDup;
    [apply (enumerate_from_NoDup (points_spent_by_choice_index s) 0)|].
  apply fmap_sublist, sublist_filter.
Qed.

Lemma holds_talent_points_true s i p :
  points_spent_by_choice_index s !! i = Some p → p ≠ 0 →
  holds_talent_points s = true.
Proof.
  intros Hi Hp. apply bool_decide_eq_true_2, Exists_exists.
  exists p. split; [by eapply list_elem_of_lookup_2|done].
Qed.

(** *** The selection predicates in terms of the points

    What the three predicates of a selection say about the points of its
    choices, independently of how they are computed. *)

Lemma holds_talent_points_spec s :
  holds_talent_points s = true ↔ holds_points s.
Proof.
  unfold holds_talent_points, holds_points.
  rewrite bool_decide_eq_true, Exists_exists. split.
  - intros (p & [j Hj]%list_elem_of_lookup & Hp). by exists j, p.
  - intros (j & p & Hj & Hp). exists p.
    split; [by eapply list_elem_of_lookup_2|done].
Qed.

Lemma has_fully_skilled_choice_spec s :
  has_fully_skilled_choice s = true ↔ filled_to_capacity s.
Proof.
  unfold has_fully_skilled_choice, filled_to_capacity.
  rewrite bool_decide_eq_true, Exists_exists. split.
  - intros ([choice p] & [j Hj]%list_elem_of_lookup & Hp). simpl in Hp.
    apply lookup_zip_with_Some in Hj as (choice' & p' & [= <- <-] & Hc & Hj).
    exists j, choice. by rewrite Hp.
  - intros (j & choice & Hc & Hj). exists (choice, max_points choice).
    split; [|done]. apply list_elem_of_lookup. exists j.
    apply lookup_zip_with_Some. by exists choice, (max_points choice).
Qed.

Lemma filter_nonempty_lookup {A} (P : A → Prop) `{∀ x, Decision (P x)} l :
  (0 < length (filter P l))%nat ↔ ∃ (i : nat) x, l !! i = Some x ∧ P x.
Proof.
  split.
  - destruct (filter P l) as [|x k] eqn:Hk; simpl; [lia|]. intros _.
    assert (x ∈ filter P l) as [HP [i Hi]%list_elem_of_lookup]%list_elem_of_filter
      by (rewrite Hk; left).
    by exists i, x.
  - intros (i & x & Hi & HP).
    assert (x ∈ filter P l) as Hin.
    { apply list_elem_of_filter. split; [done|].
      by eapply list_elem_of_lookup_2. }
    destruct (filter P l); [by apply elem_of_nil in Hin|simpl; lia].
Qed.

Lemma filter_several_lookup {A} (P : A → Prop) `{∀ x, Decision (P x)} l :
  (1 < length (filter P l))%nat
  ↔ ∃ (i j : nat) x y, i ≠ j ∧ l !! i = Some x ∧ P x ∧ l !! j = Some y ∧ P y.
Proof.
  induction l as [|z l IH].
  - split; [simpl; lia|]. by intros (i & j & x & y & _ & ? & _).
  - rewrite filter_cons. split.
    + destruct (decide (P z)) as [Hz|Hz]; simpl.
      * intros Hlen.
        destruct (proj1 (filter_nonempty_lookup P l)) as (j & y & Hj & Hy);
          [lia|].
        by exists 0%nat, (S j), z, y.
      * intros (i & j & x & y & Hne & Hi & Hx & Hj & Hy)%IH.
        exists (S i), (S j), x, y. split_and!; [lia|done..].
    + intros (i & j & x & y & Hne & Hi & Hx & Hj & Hy).
      assert (∀ (k : nat) w, l !! k = Some w → P w →
                (0 < length (filter P l))%nat) as Hone.
      { intros k w Hk Hw. apply filter_nonempty_lookup. by exists k, w. }
      destruct i as [|i], j as [|j]; simplify_eq/=.
      * rewrite decide_True by done. simpl.
        pose proof (Hone _ _ Hj Hy). lia.
      * rewrite decide_True by done. simpl.
        pose proof (Hone _ _ Hi Hx). lia.
      * assert (1 < length (filter P l))%nat.
        { apply IH. exists i, j, x, y. split_and!; [lia|done..]. }
        destruct (decide (P z)); simpl; lia.
Qed.

Lemma violates_single_choice_rule_spec s :
  violates_single_choice_rule s = true ↔ several_choices_hold_points s.
Proof.
  unfold violates_single_choice_rule, several_choices_hold_points.
  rewrite bool_decide_eq_true.
  rewrite (filter_several_lookup (λ p, 0 < p)). naive_solver.
Qed.

Lemma violates_single_choice_rule_false s :
  violates_single_choice_rule s = false ↔ ¬ several_choices_hold_points s.
Proof.
  rewrite <- violates_single_choice_rule_spec.
  by destruct (violates_single_choice_rule s).
Qed.

Lemma has_fully_skilled_choice_false s :
  has_fully_skilled_choice s = false ↔ ¬ filled_to_capacity s.
Proof.
  rewrite <- has_fully_skilled_choice_spec.
  by destruct (has_fully_skilled_choice s).
Qed.

(** ** The legality check *)

(** What the [try] block does for a node of the allocation. *)
Lemma can_node_be_decremented_body_known t nid c s :
  dict_get nid (_selection_by_node_id t) = Some s →
  can_node_be_decremented_body t nid c
  = if negb (holds_talent_points s) then Raise DecrementNotPossible
    else if decide (c ∉ get_choice_indices_with_points s)
    then Raise DecrementNotPossible
    else
      template_node ← template_item t nid;
      _ ← for_each (check_child t nid (violates_single_choice_rule s))
            (child_nodes template_node) tt;
      gate_scan (_spent_points_by_gate t) (gate_id (node_reference s))
        (sorted Z.leb Gate.gate_id (gates (gate_info (_tree_template t)))) 0.
Proof.
  intros Hs. unfold can_node_be_decremented_body, dict_item. rewrite Hs.
  by rewrite decide_False.
Qed.

Lemma can_node_be_decremented_unknown t nid c :
  dict_get nid (_selection_by_node_id t) = None →
  can_node_be_decremented t nid c = Raise ValueError.
Proof.
  intros Hs. unfold can_node_be_decremented, can_node_be_decremented_body.
  by rewrite decide_True.
Qed.

Lemma decided_can_node_be_decremented t nid c :
  decided (can_node_be_decremented_body t nid c) →
  ∃ b, can_node_be_decremented t nid c = Ok b.
Proof. unfold can_node_be_decremented. intros [-> | ->]; eauto. Qed.

Lemma wf_tree_lookup t nid s :
  wf_tree t → dict_get nid (_selection_by_node_id t) = Some s →
  selection_ok t (nid, s).
Proof.
  intros (_ & _ & Hsel) Hs%dict_get_elem_of.
  rewrite Forall_forall in Hsel. by apply Hsel.
Qed.

Lemma wf_tree_template_item t nid s :
  wf_tree t → dict_get nid (_selection_by_node_id t) = Some s →
  template_item t nid = Ok (node_reference s).
Proof.
  intros Hwf Hs. destruct (wf_tree_lookup _ _ _ Hwf Hs) as (Hby & _).
  unfold template_item. simpl in Hby. by rewrite Hby.
Qed.

Lemma closed_tree_lookup t nid s r :
  closed_tree t → dict_get nid (_selection_by_node_id t) = Some s →
  r ∈ child_nodes (node_reference s) ++ parent_nodes (node_reference s) →
  is_Some (dict_get r (_selection_by_node_id t)).
Proof.
  intros Hc Hs%dict_get_elem_of Hr. unfold closed_tree in Hc.
  rewrite Forall_forall in Hc. specialize (Hc _ Hs). simpl in Hc.
  rewrite Forall_forall in Hc. by apply dict_get_is_Some, Hc.
Qed.

Lemma has_valid_parent_Ok t nid parents :
  Forall (λ r, is_Some (dict_get r (_selection_by_node_id t))) parents →
  ∃ b, has_valid_parent t nid parents = Ok b.
Proof.
  induction 1 as [|r parents [s Hs] _ IH]; simpl; [by eauto|].
  case_decide; [done|]. unfold dict_item. rewrite Hs. simpl.
  destruct (has_fully_skilled_choice s); eauto.
Qed.

(** [has_valid_parent] finds a fully skilled parent other than the node
    itself exactly when there is one. *)
Lemma has_valid_parent_true t nid parents :
  has_valid_parent t nid parents = Ok true →
  ∃ r s, r ∈ parents ∧ r ≠ nid
         ∧ dict_get r (_selection_by_node_id t) = Some s
         ∧ has_fully_skilled_choice s = true.
Proof.
  induction parents as [|r parents IH]; simpl; [done|].
  case_decide as Hr.
  - intros (r' & s & ? & ?)%IH. exists r', s. split; [by right|done].
  - unfold dict_item. destruct (dict_get r _) as [s|] eqn:Hs; simpl; [|done].
    destruct (has_fully_skilled_choice s) eqn:Hf.
    + intros _. exists r, s. split_and!; [left|done..].
    + intros (r' & s' & ? & ?)%IH. exists r', s'. split; [by right|done].
Qed.

Lemma has_valid_parent_found t nid parents r s :
  Forall (λ r, is_Some (dict_get r (_selection_by_node_id t))) parents →
  r ∈ parents → r ≠ nid →
  dict_get r (_selection_by_node_id t) = Some s →
  has_fully_skilled_choice s = true →
  has_valid_parent t nid parents = Ok true.
Proof.
  intros Hknown Hr Hne Hs Hf.
  induction Hknown as [|r' parents [s' Hs'] _ IH]; simpl.
  - by apply elem_of_nil in Hr.
  - case_decide as Hr'.
    + apply IH. apply elem_of_cons in Hr as [->|?]; done.
    + unfold dict_item. rewrite Hs'. simpl.
      destruct (has_fully_skilled_choice s') eqn:Hf'; [done|].
      apply IH. apply elem_of_cons in Hr as [->|?]; [|done]. congruence.
Qed.

Lemma check_child_decided t nid violated child :
  is_Some (dict_get child (_selection_by_node_id t)) →
  closed_tree t →
  decided (check_child t nid violated child tt).
Proof.
  intros [cs Hcs] Hc. unfold check_child, dict_item. rewrite Hcs. simpl.
  destruct (holds_talent_points cs); [|by left].
  destruct (has_valid_parent_Ok t nid (parent_nodes (node_reference cs)))
    as [b ->].
  { apply Forall_forall. intros r Hr.
    eapply closed_tree_lookup; [done..|]. apply elem_of_app. by right. }
  simpl. destruct (negb _); [by right|by left].
Qed.

Lemma check_children_decided t nid violated children :
  Forall (λ r, is_Some (dict_get r (_selection_by_node_id t))) children →
  closed_tree t →
  decided (for_each (check_child t nid violated) children tt).
Proof.
  intros Hknown Hc. induction Hknown as [|r children Hr _ IH]; simpl.
  - by left.
  - destruct (check_child_decided t nid violated r Hr Hc) as [-> | ->];
      simpl; [done|by right].
Qed.

Lemma gate_scan_decided spent g gs running :
  decided (gate_scan spent g gs running).
Proof.
  revert running. induction gs as [|gate gs IH]; intros running; simpl.
  - by left.
  - case_decide; [by right|apply IH].
Qed.

(** On a closed template the check of a known node always answers. *)
Lemma can_node_be_decremented_body_decided t nid c s :
  wf_tree t → closed_tree t →
  dict_get nid (_selection_by_node_id t) = Some s →
  decided (can_node_be_decremented_body t nid c).
Proof.
  intros Hwf Hc Hs. rewrite (can_node_be_decremented_body_known _ _ _ _ Hs).
  destruct (negb _); [by right|]. case_decide; [by right|].
  rewrite (wf_tree_template_item _ _ _ Hwf Hs). simpl.
  destruct (check_children_decided t nid (violates_single_choice_rule s)
              (child_nodes (node_reference s))) as [-> | ->]; simpl.
  - apply Forall_forall. intros r Hr.
    eapply closed_tree_lookup; [done..|]. apply elem_of_app. by left.
  - done.
  - apply gate_scan_decided.
  - by right.
Qed.

(** The dependency loop stops at a points-holding child without another
    fully skilled parent, unless the node violates the single-choice rule. *)
Lemma check_children_stranded t nid children child cs :
  closed_tree t →
  Forall (λ r, is_Some (dict_get r (_selection_by_node_id t))) children →
  child ∈ children →
  dict_get child (_selection_by_node_id t) = Some cs →
  holds_talent_points cs = true →
  (∀ r s, r ∈ parent_nodes (node_reference cs) → r ≠ nid →
     dict_get r (_selection_by_node_id t) = Some s →
     has_fully_skilled_choice s = false) →
  for_each (check_child t nid false) children tt = Raise DecrementNotPossible.
Proof.
  intros Hc Hknown Hchild Hcs Hholds Hnone.
  induction Hknown as [|r children Hr _ IH]; simpl.
  - by apply elem_of_nil in Hchild.
  - destruct (check_child_decided t nid false r Hr Hc) as [Heq | Heq];
      rewrite Heq; simpl; [|done].
    apply elem_of_cons in Hchild as [->|?]; [|by apply IH].
    exfalso. revert Heq. unfold check_child, dict_item. rewrite Hcs. simpl.
    rewrite Hholds.
    destruct (has_valid_parent t nid _) as [[]|] eqn:Hvp; simpl; [|done..].
    apply has_valid_parent_true in Hvp as (r' & s & Hr' & Hne & Hs & Hf).
    rewrite (Hnone r' s) in Hf; done.
Qed.

(** The dependency loop lets the removal through when the node violates
    the single-choice rule or every points-holding child has another fully
    skilled parent. *)
Lemma check_children_pass t nid violated children :
  closed_tree t →
  Forall (λ r, is_Some (dict_get r (_selection_by_node_id t))) children →
  violated = true
  ∨ (∀ child cs, child ∈ children →
       dict_get child (_selection_by_node_id t) = Some cs →
       holds_talent_points cs = true →
       ∃ r s, r ∈ parent_nodes (node_reference cs) ∧ r ≠ nid
              ∧ dict_get r (_selection_by_node_id t) = Some s
              ∧ has_fully_skilled_choice s = true) →
  for_each (check_child t nid violated) children tt = Ok tt.
Proof.
  intros Hc Hknown Hpass.
  induction Hknown as [|child children [cs Hcs] _ IH]; simpl; [done|].
  assert (check_child t nid violated child tt = Ok tt) as ->.
  { unfold check_child, dict_item. rewrite Hcs. simpl.
    destruct (holds_talent_points cs) eqn:Hholds; [|done].
    assert (Forall (λ r, is_Some (dict_get r (_selection_by_node_id t)))
              (parent_nodes (node_reference cs))) as Hparents.
    { apply Forall_forall. intros r Hr.
      eapply closed_tree_lookup; [done..|]. apply elem_of_app. by right. }
    destruct Hpass as [->|Hpass].
    - destruct (has_valid_parent_Ok t nid _ Hparents) as [b ->]. simpl.
      by rewrite orb_true_r.
    - destruct (Hpass child cs) as (r & s & ? & ? & ? & ?); [left|done..|].
      by erewrite has_valid_parent_found. }
  simpl. apply IH. destruct Hpass as [?|Hpass]; [by left|right].
  intros child' cs' ?. apply Hpass. by right.
Qed.

(** ** Sorting *)

Section sorted.
Context {A K : Type} (le : K → K → bool) (key : A → K).

Lemma insert_sorted_Permutation x l : insert_sorted le key x l ≡ₚ x :: l.
Proof.
  induction l as [|y l IH]; simpl; [done|].
  destruct (le _ _); [done|]. rewrite IH. apply Permutation_swap.
Qed.

Lemma sorted_Permutation l : sorted le key l ≡ₚ l.
Proof.
  induction l as [|x l IH]; simpl; [done|].
  by rewrite insert_sorted_Permutation, IH.
Qed.
End sorted.

Lemma insert_sorted_StronglySorted {A} (key : A → Z) x l :
  StronglySorted (λ a b, key a ≤ key b) l →
  StronglySorted (λ a b, key a ≤ key b) (insert_sorted Z.leb key x l).
Proof.
  induction 1 as [|y l Hl IH Hy]; simpl.
  - repeat constructor.
  - destruct (Z.leb_spec (key x) (key y)) as [Hle|Hlt].
    + constructor; [by constructor|].
      constructor; [done|]. eapply Forall_impl; [done|]. simpl. lia.
    + constructor; [done|].
      rewrite insert_sorted_Permutation. constructor; [lia|done].
Qed.

Lemma sorted_StronglySorted {A} (key : A → Z) l :
  StronglySorted (λ a b, key a ≤ key b) (sorted Z.leb key l).
Proof.
  induction l as [|x l IH]; simpl; [constructor|].
  by apply insert_sorted_StronglySorted.
Qed.

(** ** Gate support *)

Lemma gate_scan_raises spent node_gate pre gate post running :
  Gate.gate_id gate > node_gate →
  Gate.points_required_below gate >= running + scanned spent pre →
  gate_scan spent node_gate (pre ++ gate :: post) running
  = Raise DecrementNotPossible.
Proof.
  revert running. induction pre as [|g pre IH]; intros running Hid Hthr; simpl.
  - unfold scanned in Hthr. simpl in Hthr. rewrite decide_True; [done|].
lia.
  - case_decide; [done|]. apply IH; [done|].
    change (scanned spent (g :: pre))
      with (gate_get spent (Gate.gate_id g) + scanned spent pre) in Hthr.
    lia.
Qed.

(** The selections of one gate counted over a duplicate-free list of
    gate ids. *)
Lemma sum_cons x l : sum (x :: l) = x + sum l.
Proof. done. Qed.

Lemma sum_points_of_ids (ids : list Z) s :
  NoDup ids →
  sum ((λ g, points_of g s) <$> ids)
  = if decide (gate_id (node_reference s) ∈ ids)
    then sum (points_spent_by_choice_index s) else 0.
Proof.
  induction 1 as [|g ids Hg _ IH].
  - rewrite decide_False; [done|]. apply not_elem_of_nil.
  - rewrite fmap_cons, sum_cons, IH. unfold points_of.
    destruct (decide (gate_id (node_reference s) = g)) as [->|Hne].
    + rewrite decide_False by done. rewrite decide_True by left. lia.
    + destruct (decide (gate_id (node_reference s) ∈ ids)).
      * rewrite decide_True by by right. lia.
      * rewrite decide_False; [lia|]. rewrite not_elem_of_cons. done.
Qed.

Lemma sum_points_in_gate_ids (ids : list Z) d :
  NoDup ids →
  sum ((λ g, points_in_gate d g) <$> ids)
  = sum ((λ s, if decide (gate_id (node_reference s) ∈ ids)
               then sum (points_spent_by_choice_index s) else 0) <$>
           dict_values d).
Proof.
  intros Hnd. induction d as [|[k s] d IH].
  - clear Hnd. induction ids as [|g ids IHg]; [done|].
    by rewrite fmap_cons, sum_cons, IHg.
  - unfold dict_values in *. rewrite !fmap_cons, sum_cons, <-IH.
    cbn [snd]. rewrite <-(sum_points_of_ids ids s Hnd). clear.
    induction ids as [|g ids IHg]; [done|].
    rewrite !fmap_cons, !sum_cons, points_in_gate_cons, IHg. lia.
Qed.

(** In a list sorted by a duplicate-free key, what comes before an
    element is what has a smaller key. *)
Lemma sorted_split_below (gs pre post : list Gate) gate :
  StronglySorted (λ a b, Gate.gate_id a ≤ Gate.gate_id b) gs →
  NoDup (Gate.gate_id <$> gs) →
  gs = pre ++ gate :: post →
  ∀ h, h ∈ Gate.gate_id <$> gs →
       (h ∈ Gate.gate_id <$> pre ↔ h < Gate.gate_id gate).
Proof.
  intros Hsorted Hnd -> h Hh.
  apply StronglySorted_app in Hsorted as (Hle & _ & Hsorted_r).
  apply StronglySorted_cons in Hsorted_r as [Hpost _].
  rewrite fmap_app, fmap_cons in Hnd, Hh.
  apply NoDup_app in Hnd as (_ & Hpre & [Hgate _]%NoDup_cons).
  split.
  - intros Hin. pose proof (Hpre h Hin) as Hnot.
    apply list_elem_of_fmap in Hin as (g & -> & Hg).
    specialize (Hle g gate Hg). rewrite not_elem_of_cons in Hnot.
    assert (Gate.gate_id g ≤ Gate.gate_id gate) by (apply Hle; left). lia.
  - intros Hlt.
    apply elem_of_app in Hh as [?|[->|Hin]%elem_of_cons]; [done|lia|].
    apply list_elem_of_fmap in Hin as (g & -> & Hg).
    rewrite Forall_forall in Hpost. specialize (Hpost g Hg). simpl in *. lia.
Qed.

(** With consistent totals the running total at a gate is the number of
    points committed below it. *)
Lemma scanned_committed_below t pre gate post :
  gates_ok t →
  gate_totals_consistent t →
  sorted Z.leb Gate.gate_id (gates (gate_info (_tree_template t)))
    = pre ++ gate :: post →
  scanned (_spent_points_by_gate t) pre
  = points_committed_below t (Gate.gate_id gate).
Proof.
  intros [Hnd Hnodes] Hc Hsplit.
  pose proof (sorted_Permutation Z.leb Gate.gate_id
                (gates (gate_info (_tree_template t)))) as Hperm.
  assert (NoDup (Gate.gate_id <$>
            sorted Z.leb Gate.gate_id (gates (gate_info (_tree_template t)))))
    as Hnd' by by rewrite Hperm.
  pose proof (sorted_split_below _ pre post gate
                (sorted_StronglySorted _ _) Hnd' Hsplit) as Hbelow.
  unfold scanned, points_committed_below.
  transitivity (sum ((λ g, points_in_gate (_selection_by_node_id t) g) <$>
                       (Gate.gate_id <$> pre))).
  { rewrite <-list_fmap_compose. f_equal. apply list_fmap_ext.
    intros _ g _. simpl. apply Hc. }
  rewrite sum_points_in_gate_ids.
  - f_equal. apply Forall_fmap_ext. unfold dict_values.
    rewrite Forall_fmap. eapply Forall_impl; [exact Hnodes|].
    intros [k s] Hs. simpl in *.
    assert (gate_id (node_reference s) ∈ Gate.gate_id <$> pre
            ↔ gate_id (node_reference s) < Gate.gate_id gate) as Hiff.
    { apply Hbelow. by rewrite Hperm. }
    repeat case_decide; tauto.
  - rewrite Hsplit, fmap_app in Hnd'. by apply NoDup_app in Hnd' as (? & _).
Qed.

(** The gate scan rejects the removal when some higher gate's threshold
    is not exceeded by the points committed below it. *)
Lemma gate_scan_unsupported t node_gate gate :
  gates_ok t →
  gate_totals_consistent t →
  gate ∈ gates (gate_info (_tree_template t)) →
  Gate.gate_id gate > node_gate →
  Gate.points_required_below gate
    >= points_committed_below t (Gate.gate_id gate) →
  gate_scan (_spent_points_by_gate t) node_gate
    (sorted Z.leb Gate.gate_id (gates (gate_info (_tree_template t)))) 0
  = Raise DecrementNotPossible.
Proof.
  intros Hok Hc Hgate Hid Hthr.
  rewrite <-(sorted_Permutation Z.leb Gate.gate_id) in Hgate.
  apply list_elem_of_split in Hgate as (pre & post & Hsplit).
  rewrite Hsplit. apply gate_scan_raises; [done|].
  rewrite (scanned_committed_below t pre gate post); [lia|done..].
Qed.

(** ** Candidate removals *)

Lemma can_node_be_decremented_true_inv t nid c :
  can_node_be_decremented t nid c = Ok true →
  ∃ s, dict_get nid (_selection_by_node_id t) = Some s
       ∧ c ∈ get_choice_indices_with_points s.
Proof.
  unfold can_node_be_decremented.
  destruct (dict_get nid (_selection_by_node_id t)) as [s|] eqn:Hs.
  - rewrite (can_node_be_decremented_body_known _ _ _ _ Hs).
    destruct (negb _); [done|]. case_decide as Hc; [done|].
    intros _. by exists s.
  - unfold can_node_be_decremented_body. by rewrite decide_True.
Qed.

Lemma can_node_be_decremented_Ok t nid c :
  wf_tree t → closed_tree t →
  nid ∈ dict_keys (_selection_by_node_id t) →
  ∃ b, can_node_be_decremented t nid c = Ok b.
Proof.
  intros Hwf Hc [s Hs]%dict_get_is_Some.
  by eapply decided_can_node_be_decremented,
    can_node_be_decremented_body_decided.
Qed.

Lemma elem_of_violating_ids t nid :
  NoDup (dict_keys (_selection_by_node_id t)) →
  nid ∈ get_node_ids_with_violated_single_choice t ↔ violating t nid.
Proof.
  intros Hnd. unfold get_node_ids_with_violated_single_choice, violating.
  rewrite list_elem_of_fmap. split.
  - intros ([k s] & -> & [Hv Hin]%list_elem_of_filter). simpl in *.
    exists s. split; [by apply elem_of_dict_get|].
    by apply violates_single_choice_rule_spec.
  - intros (s & Hs%dict_get_elem_of & Hv). exists (nid, s).
    split; [done|]. apply list_elem_of_filter.
    split; [|done]. by apply violates_single_choice_rule_spec.
Qed.

Lemma violating_ids_sublist t :
  get_node_ids_with_violated_single_choice t
    `sublist_of` dict_keys (_selection_by_node_id t).
Proof. apply fmap_sublist, sublist_filter. Qed.

Section candidates.
Context `{Runtime}.

Lemma M_bind_unfold {A B} (m : M A) (f : A → M B) e :
  (m ≫= f) e
  = match m e with
    | (Ok a, e') => f a e'
    | (Raise x, e') => (Raise x, e')
    end.
Proof. done. Qed.

Lemma for_each_M_app {A S} (f : A → S → M S) l1 l2 s e :
  for_each f (l1 ++ l2) s e
  = match for_each f l1 s e with
    | (Ok s', e') => for_each f l2 s' e'
    | (Raise x, e') => (Raise x, e')
    end.
Proof.
  revert s e. induction l1 as [|x l1 IH]; intros s e; simpl; [done|].
  rewrite !M_bind_unfold. destruct (f x s e) as [[s'|x'] e']; [apply IH|done].
Qed.

Lemma bind_lift_Ok {A B} (a : A) (f : A → M B) e :
  (lift (Ok a) ≫= f) e = f a e.
Proof. done. Qed.

Lemma bind_lift_Raise {A B} x (f : A → M B) e :
  (lift (Raise x) ≫= f) e = (Raise x, e).
Proof. done. Qed.

Lemma bind_shuffled {A B} (l : list A) (f : list A → M B) e :
  (shuffled l ≫= f) e
  = f (shuffle l (world e)).1
      {| world := (shuffle l (world e)).2; sim_log := sim_log e |}.
Proof. done. Qed.

Lemma bind_mret {A B} (a : A) (f : A → M B) e : (mret a ≫= f) e = f a e.
Proof. done. Qed.

Lemma for_each_M_cons {A S} (f : A → S → M S) x l s e :
  for_each f (x :: l) s e
  = match f x s e with
    | (Ok s', e') => for_each f l s' e'
    | (Raise x, e') => (Raise x, e')
    end.
Proof. done. Qed.

Lemma try_choice_Ok t nid c cands e b :
  can_node_be_decremented t nid c = Ok b →
  try_choice t nid c cands e
  = (Ok (if b then cands ++ [(nid, c)] else cands), e).
Proof. intros Hb. unfold try_choice. by rewrite Hb. Qed.

(** The loop over the choices of one node leaves the world alone and
    appends the accepted removals. *)
Lemma choices_loop t nid idxs cands e :
  Forall (λ c, ∃ b, can_node_be_decremented t nid c = Ok b) idxs →
  for_each (try_choice t nid) idxs cands e
  = (Ok (cands ++ accepted t nid idxs), e).
Proof.
  intros Hok. revert cands.
  induction Hok as [|c idxs [b Hb] _ IH]; intros cands.
  - unfold accepted. simpl. by rewrite app_nil_r.
  - rewrite for_each_M_cons, (try_choice_Ok _ _ _ _ _ b Hb), IH.
    unfold accepted. rewrite filter_cons. destruct b.
    + rewrite decide_True by done. by rewrite fmap_cons, <-app_assoc.
    + rewrite decide_False by (rewrite Hb; done). done.
Qed.

Lemma try_node_Ok t nid cands e s :
  wf_tree t → closed_tree t →
  dict_get nid (_selection_by_node_id t) = Some s →
  ∃ part e',
    try_node t nid cands e = (Ok (cands ++ part), e')
    ∧ sim_log e' = sim_log e
    ∧ contribution t nid part.
Proof.
  intros Hwf Hc Hs. unfold try_node, dict_item. rewrite Hs.
  rewrite bind_lift_Ok, bind_shuffled, choices_loop.
  - eexists _, _. split_and!; [done..|].
    eexists s, _. split_and!; [done| |done]. apply shuffle_perm.
  - apply Forall_forall. intros c _.
    apply can_node_be_decremented_Ok; [done..|].
    apply dict_get_is_Some. by eexists.
Qed.

Lemma nodes_loop t ids cands e :
  wf_tree t → closed_tree t →
  Forall (λ nid, nid ∈ dict_keys (_selection_by_node_id t)) ids →
  ∃ parts e',
    for_each (try_node t) ids cands e = (Ok (cands ++ concat parts), e')
    ∧ sim_log e' = sim_log e
    ∧ Forall2 (contribution t) ids parts.
Proof.
  intros Hwf Hc Hids. revert cands e.
  induction Hids as [|nid ids Hnid _ IH]; intros cands e.
  - exists [], e. split_and!; [by rewrite app_nil_r|done|constructor].
  - pose proof Hnid as [s Hs]%dict_get_is_Some.
    destruct (try_node_Ok t nid cands e s Hwf Hc Hs)
      as (part & e1 & Heq1 & Hlog1 & Hpart).
    destruct (IH (cands ++ part) e1) as (parts & e' & Heq & Hlog & Hparts).
    exists (part :: parts), e'. rewrite for_each_M_cons, Heq1, Heq.
    split_and!; [by rewrite <-app_assoc|congruence|by constructor].
Qed.

Lemma elem_of_contribution t nid part x :
  contribution t nid part →
  x ∈ part ↔ x.1 = nid ∧ can_node_be_decremented t x.1 x.2 = Ok true.
Proof.
  intros (s & idxs & Hs & Hperm & ->). unfold accepted.
  rewrite list_elem_of_fmap. split.
  - intros (c & -> & [Hc _]%list_elem_of_filter). done.
  - destruct x as [k c]. simpl. intros [-> Hc]. exists c. split; [done|].
    apply list_elem_of_filter. split; [done|]. rewrite Hperm.
    apply can_node_be_decremented_true_inv in Hc as (s' & ? & ?).
    by simplify_eq.
Qed.

Lemma contribution_NoDup t nid part : contribution t nid part → NoDup part.
Proof.
  intros (s & idxs & Hs & Hperm & ->). unfold accepted.
  apply NoDup_fmap_2; [by intros ?? [=]|].
  apply NoDup_filter. rewrite Hperm. apply choice_indices_NoDup.
Qed.

Lemma elem_of_contributions t ids parts x :
  Forall2 (contribution t) ids parts →
  x ∈ concat parts
  ↔ x.1 ∈ ids ∧ can_node_be_decremented t x.1 x.2 = Ok true.
Proof.
  induction 1 as [|nid part ids parts Hpart _ IH]; simpl.
  - split; [by intros ?%elem_of_nil|by intros [?%elem_of_nil _]].
  - rewrite elem_of_app, IH, (elem_of_contribution _ _ _ _ Hpart),
      elem_of_cons.
    split; [intros [[-> ?]|[? ?]]; split; auto|].
    intros [[?|?] ?]; [left|right]; auto.
Qed.

Lemma contributions_NoDup t ids parts :
  NoDup ids → Forall2 (contribution t) ids parts → NoDup (concat parts).
Proof.
  intros Hnd Hparts. induction Hparts as [|nid part ids parts Hpart Hparts IH];
    simpl; [constructor|].
  apply NoDup_cons in Hnd as [Hnid Hnd]. apply NoDup_app. split_and!.
  - by eapply contribution_NoDup.
  - intros x [Hx _]%(elem_of_contribution _ _ _ _ Hpart)
             [Hin _]%(elem_of_contributions _ _ _ _ Hparts).
    by rewrite Hx in Hin.
  - by apply IH.
Qed.

(** The node ids the outer loop runs over: every node of the allocation
    exactly once. *)
Lemma candidate_node_ids_spec t ks :
  NoDup (dict_keys (_selection_by_node_id t)) →
  ks ≡ₚ dict_keys (_selection_by_node_id t) →
  let vs := get_node_ids_with_violated_single_choice t in
  NoDup (vs ++ filter (λ nid, nid ∉ vs) ks)
  ∧ ∀ nid, nid ∈ vs ++ filter (λ nid, nid ∉ vs) ks
           ↔ nid ∈ dict_keys (_selection_by_node_id t).
Proof.
  intros Hnd Hperm vs. split.
  - apply NoDup_app. split_and!.
    + eapply sublist_NoDup; [exact Hnd|apply violating_ids_sublist].
    + by intros nid Hv [Hnv _]%list_elem_of_filter.
    + apply NoDup_filter. by rewrite Hperm.
  - intros nid. rewrite elem_of_app, list_elem_of_filter, Hperm. split.
    + intros [Hv|[_ ?]]; [|done].
      eapply elem_of_sublist; [done|apply violating_ids_sublist].
    + intros Hk. destruct (decide (nid ∈ vs)); [by left|by right].
Qed.

(** On a closed template [find_nodes_to_decrement] returns. *)
Lemma find_nodes_to_decrement_Ok t e :
  wf_tree t → closed_tree t →
  ∃ l e', find_nodes_to_decrement t e = (Ok l, e').
Proof.
  intros Hwf Hc. unfold find_nodes_to_decrement. rewrite bind_shuffled.
  destruct (candidate_node_ids_spec t
              (shuffle (dict_keys (_selection_by_node_id t)) (world e)).1
              (wf_tree_NoDup _ Hwf) (shuffle_perm _ _ _)) as [_ Hids].
  edestruct (nodes_loop t) as (parts & e' & Heq & _); [done..| |by eauto].
  apply Forall_forall. intros nid. apply Hids.
Qed.
End candidates.

(** ** Loops in the search monad *)

Section post.
Context `{Runtime}.

Lemma post_impl {S} (I I' : S → Env → Prop) (R R' : Env → Prop) r :
  post I R r → (∀ s e, I s e → I' s e) → (∀ e, R e → R' e) → post I' R' r.
Proof. destruct r as [[s|x] e]; simpl; auto. Qed.

Lemma post_bind {A B} (m : M A) (f : A → M B)
    (I : A → Env → Prop) (J : B → Env → Prop) (R : Env → Prop) e :
  post I R (m e) →
  (∀ a e', I a e' → post J R (f a e')) →
  post J R ((m ≫= f) e).
Proof.
  intros Hm Hf. rewrite M_bind_unfold. destruct (m e) as [[a|x] e']; simpl in *;
    [by apply Hf|done].
Qed.

Lemma for_each_M_post {A S} (I : S → Env → Prop) (R : Env → Prop)
    (f : A → S → M S) l s e :
  I s e →
  (∀ x s e, x ∈ l → I s e → post I R (f x s e)) →
  post I R (for_each f l s e).
Proof.
  revert s e. induction l as [|x l IH]; intros s e Hs Hf; [done|].
  rewrite for_each_M_cons.
  pose proof (Hf x s e (list_elem_of_here _ _) Hs) as Hx.
  destruct (f x s e) as [[s'|x'] e']; simpl in *; [|done].
  apply IH; [done|]. intros y s0 e0 Hy. apply Hf. by right.
Qed.

(** Whatever [find_nodes_to_decrement] returns was accepted by the
    checker, and the simulator is not involved. *)
Lemma find_nodes_to_decrement_sound t e :
  post (λ l e', sim_log e' = sim_log e
                ∧ ∀ x, x ∈ l → can_node_be_decremented t x.1 x.2 = Ok true)
       (λ e', sim_log e' = sim_log e)
       (find_nodes_to_decrement t e).
Proof.
  unfold find_nodes_to_decrement. rewrite bind_shuffled.
  set (e1 := {| world := _; sim_log := _ |}).
  change (sim_log e) with (sim_log e1). generalize e1. clear e1. intros e1.
  apply for_each_M_post.
  { split; [done|]. by intros x ?%elem_of_nil. }
  intros nid cands e2 _ [Hlog Hcands]. unfold try_node.
  eapply post_bind with (I := λ _ e', e' = e2).
  { unfold lift. by destruct (dict_item _ _). }
  intros s ? ->. rewrite bind_shuffled.
  set (e3 := {| world := _; sim_log := _ |}).
  assert (sim_log e3 = sim_log e1) as Hlog3 by done.
  revert Hlog3. generalize e3. clear e3. intros e3 Hlog3.
  apply for_each_M_post; [done|].
  intros c cands' e4 _ [Hlog4 Hcands']. unfold try_choice.
  eapply post_bind
    with (I := λ b e', e' = e4 ∧ can_node_be_decremented t nid c = Ok b).
  { unfold lift. by destruct (can_node_be_decremented _ _ _). }
  intros b ? [-> Hb]. simpl. split; [done|].
  destruct b; [|done].
  intros x [?|Hx]%elem_of_app; [by apply Hcands'|].
  apply list_elem_of_singleton in Hx. by subst.
Qed.
End post.

(** ** Serialization succeeds on well-formed allocations *)

Lemma map_each_Ok {A B} (f : A → result B) l :
  Forall (λ x, ∃ y, f x = Ok y) l → ∃ ys, map_each f l = Ok ys.
Proof.
  induction 1 as [|x l [y Hy] _ [ys IH]]; simpl; [by eauto|].
  rewrite Hy. simpl. rewrite IH. simpl. by eauto.
Qed.

Lemma to_talent_string_Ok t : wf_tree t → ∃ s, to_talent_string t = Ok s.
Proof.
  intros (_ & _ & Hsel). unfold to_talent_string.
  destruct (map_each_Ok (λ n,
      node ← template_item t (node_id (node_reference n));
      Ok (sort_key node, n)) (dict_values (_selection_by_node_id t)))
    as [keyed ->]; [|simpl; by eauto].
  unfold dict_values. apply Forall_fmap.
  eapply Forall_impl; [exact Hsel|]. intros [k s] (Hby & Hid & _). simpl in *.
  unfold template_item. rewrite Hid, Hby. simpl. by eauto.
Qed.

Lemma slice_to_subseteq {A} n (l : list A) x : x ∈ slice_to n l → x ∈ l.
Proof.
  unfold slice_to. case_decide; intros (i & Hi & _)%elem_of_take;
    by eapply list_elem_of_lookup_2.
Qed.

(** An accepted removal can be carried out, and takes one point. *)
Lemma accepted_decrement t nid c :
  wf_tree t →
  can_node_be_decremented t nid c = Ok true →
  ∃ t', decrement_node t nid c = Ok t'
        ∧ get_total_points_spent t' = get_total_points_spent t - 1
        ∧ _max_points_available t' = _max_points_available t
        ∧ wf_tree t'
        ∧ (closed_tree t → closed_tree t').
Proof.
  intros Hwf (s & Hs & (p & Hc & Hp & Hpos)%elem_of_choice_indices)
    %can_node_be_decremented_true_inv.
  destruct (wf_tree_lookup _ _ _ Hwf Hs) as (_ & _ & Hlen). simpl in Hlen.
  pose proof (lookup_lt_Some _ _ _ Hp) as Hlt.
  assert (decrement_node t nid c
          = Ok (decrement_result t nid s (Z.to_nat c) p)) as Hdec.
  { apply decrement_node_Ok; [done|lia|done..]. }
  eexists. split_and!; [done| |done| |].
  - by apply decrement_result_total.
  - by eapply decrement_node_wf.
  - intros ?. by eapply decrement_node_closed.
Qed.

(** ** The simulator log *)

Lemma _make_talents_record_Ok l p :
  locked_ok l →
  ∃ r, _make_talents_record l None (Some p) None = Ok r ∧ spec_talents r = p.
Proof.
  intros [[c Hc] [h Hh]]. unfold _make_talents_record.
  rewrite decide_False by (by intros [? _]).
  rewrite decide_False by (rewrite Hc; by intros [_ ?]).
  rewrite decide_False by (rewrite Hh; by intros [_ ?]).
  rewrite Hc, Hh. simpl. by eauto.
Qed.

Lemma _make_talents_record_inv l p r :
  _make_talents_record l None (Some p) None = Ok r →
  locked_ok l ∧ spec_talents r = p.
Proof.
  unfold _make_talents_record, locked_ok.
  repeat case_decide; try done.
  destruct (locked_class_tree l), (locked_hero_tree l); simpl;
    try done; try (exfalso; naive_solver).
  intros [= <-]. by eauto.
Qed.

Section log.
Context `{Runtime}.

Lemma never_resubmitted_nil : never_resubmitted [].
Proof. by intros i j ?????. Qed.

Lemma never_resubmitted_singleton x : never_resubmitted [x].
Proof.
  intros i j ???? Hij Hi Hj.
  apply lookup_lt_Some in Hi, Hj. simpl in *. lia.
Qed.

Lemma never_resubmitted_snoc memo log input r s :
  never_resubmitted log →
  log_memo memo log →
  submitted input = Ok s →
  memo !! s = None →
  never_resubmitted (log ++ [(input, r)]).
Proof.
  intros Hlog Hmemo Hs Hnew i j input1 out input2 r2 Hij Hi Hj.
  pose proof (lookup_lt_Some _ _ _ Hj) as Hjlt.
  rewrite length_app in Hjlt. simpl in Hjlt.
  rewrite lookup_app_l in Hi by lia.
  destruct (decide (j < length log)%nat).
  - rewrite lookup_app_l in Hj by done.
    by apply (Hlog i j input1 out input2 r2).
  - rewrite lookup_app_r in Hj by lia.
    replace (j - length log)%nat with 0%nat in Hj by lia. simplify_eq/=.
    destruct (Hmemo input1 out) as (s1 & Hs1 & [d Hd]);
      [by eapply list_elem_of_lookup_2|].
    rewrite Hs, Hs1. intros [= ->]. congruence.
Qed.

Lemma log_memo_snoc_None memo log input :
  log_memo memo log → log_memo memo (log ++ [(input, None)]).
Proof.
  intros Hmemo input1 out [?|Hin]%elem_of_app; [by eapply Hmemo|].
  apply list_elem_of_singleton in Hin. done.
Qed.

Lemma log_memo_snoc_Some memo log input out s d :
  log_memo memo log →
  submitted input = Ok s →
  log_memo (<[s := d]> memo) (log ++ [(input, Some out)]).
Proof.
  intros Hmemo Hs input1 out1 [Hin|Hin]%elem_of_app.
  - destruct (Hmemo _ _ Hin) as (s1 & Hs1 & Hd). exists s1. split; [done|].
    rewrite lookup_insert_is_Some. destruct (decide (s = s1)); auto.
  - apply list_elem_of_singleton in Hin. simplify_eq. exists s.
    split; [done|]. rewrite lookup_insert_eq. by eauto.
Qed.

Lemma _run_sim_spec player r e :
  ∃ input out w,
    _run_sim player r e
    = (Ok out, {| world := w; sim_log := sim_log e ++ [(input, out)] |})
    ∧ SimInput.talents input = r.
Proof. unfold _run_sim. by eexists _, _, _. Qed.
End log.

(** ** The search loop *)

Section loop_invariants.
Context `{Runtime}.
Context (seed : PlayerTalentTree) (config : BeamSearchConfig)
        (player : Player) (locked : LockedTalentTrees).
Context (Hlocked : locked_ok locked).

Local Abbreviation T := (get_total_points_spent seed).
Local Abbreviation B := (_max_points_available seed).
Local Abbreviation tree_ok := (tree_ok seed).
Local Abbreviation Mid := (Mid seed).
Local Abbreviation Mid_at := (Mid_at seed).
Local Abbreviation Aborted := (Aborted seed).

Lemma in_memo_insert memo s d t :
  in_memo memo t → in_memo (<[s := d]> memo) t.
Proof.
  intros (s' & Hs' & Hd). exists s'. split; [done|].
  rewrite lookup_insert_is_Some. destruct (decide (s = s')); auto.
Qed.

Lemma Mid_set_best tree d st log :
  Mid (set_best tree d st) log ↔ Mid st log.
Proof. done. Qed.

(** A valid beam member is retained. *)
Lemma Mid_add_candidate tree d st log :
  Mid st log →
  tree_ok tree → in_memo (dps_by_talent_str st) tree →
  get_total_points_spent tree ≤ B →
  Mid (add_candidate tree d st) log.
Proof.
  intros (Hbeam & Hcands & Hnew & Hmemo & Hlog) Hok Hin Htot.
  split_and!; simpl; [done| |done..].
  apply Forall_app. split; [done|]. apply Forall_singleton. simpl. auto.
Qed.

(** A failed evaluation changes nothing but the log. *)
Lemma Mid_failed st log input s :
  Mid st log →
  submitted input = Ok s → dps_by_talent_str st !! s = None →
  Mid st (log ++ [(input, None)]).
Proof.
  intros (Hbeam & Hcands & Hnew & Hmemo & Hlog) Hs Hnone.
  split_and!; [done..| |].
  - by apply log_memo_snoc_None.
  - by eapply never_resubmitted_snoc.
Qed.

(** A successful evaluation memoizes and records the new candidate. *)
Lemma Mid_record_new st log input out s tree parent :
  Mid st log →
  submitted input = Ok s → dps_by_talent_str st !! s = None →
  tree_ok tree → to_talent_string tree = Ok s →
  get_total_points_spent tree = get_total_points_spent parent - 1 →
  get_total_points_spent parent = T - (iteration st - 1) →
  B < get_total_points_spent parent →
  Mid (record_new s tree (dps out) st) (log ++ [(input, Some out)]).
Proof.
  intros (Hbeam & Hcands & Hnew & Hmemo & Hlog) Hs Hnone Hok Hstr Htot
    Hparent Hover.
  split_and!; simpl.
  - eapply Forall_impl; [exact Hbeam|]. intros t (? & ? & ?).
    split_and!; [done| |done]. by apply in_memo_insert.
  - apply Forall_app. split.
    + eapply Forall_impl; [exact Hcands|]. intros c (? & ? & ?).
      split_and!; [done| |done]. by apply in_memo_insert.
    + apply Forall_singleton. simpl. split_and!; [done| |right; lia].
      exists s. split; [done|]. rewrite lookup_insert_eq. by eauto.
  - intros _. lia.
  - by apply log_memo_snoc_Some.
  - by eapply never_resubmitted_snoc.
Qed.

Lemma explore_spec st0 tree nc st e :
  Mid_at st0 st e →
  tree_ok tree →
  get_total_points_spent tree = T - (iteration st - 1) →
  B < get_total_points_spent tree →
  can_node_be_decremented tree nc.1 nc.2 = Ok true →
  post (Mid_at st0) Aborted (explore player locked tree nc st e).
Proof.
  intros (HMid & Hbeam & Hiter) (Hwf & Havail & Hclosed) Htot Hover Hcan.
  destruct (accepted_decrement _ _ _ Hwf Hcan)
    as (t' & Hdec & Htot' & Havail' & Hwf' & Hclosed').
  destruct (to_talent_string_Ok _ Hwf') as [s Hs].
  unfold explore. rewrite copy_Ok by done. rewrite bind_lift_Ok, Hdec.
  rewrite bind_lift_Ok, Hs, bind_lift_Ok.
  case_decide as Hknown; [done|].
  apply eq_None_not_Some in Hknown.
  destruct (_make_talents_record_Ok locked (TreeProvider t') Hlocked)
    as (r & -> & Hr).
  rewrite bind_lift_Ok, M_bind_unfold.
  destruct (_run_sim_spec player r e) as (input & out & w & -> & Hinput).
  assert (submitted input = Ok s) as Hsub.
  { unfold submitted. by rewrite Hinput, Hr. }
  assert (tree_ok t') as Hok'.
  { split_and!; [done|congruence|auto]. }
  destruct out as [out|]; simpl.
  - assert (Mid (record_new s t' (dps out) st)
              (sim_log e ++ [(input, Some out)])) as HMid'.
    { by eapply Mid_record_new. }
    by destruct (_ && _).
  - split_and!; [|done..]. by eapply Mid_failed.
Qed.

Lemma visit_spec st0 tree st e :
  Mid_at st0 st e →
  tree ∈ beam st0 →
  post (Mid_at st0) Aborted (visit config player locked tree st e).
Proof.
  intros (HMid & Hbeam & Hiter) Htree.
  pose proof HMid as (Hbeam_ok & _ & _ & _ & Hlog).
  rewrite <-Hbeam in Htree. rewrite Forall_forall in Hbeam_ok.
  destruct (Hbeam_ok _ Htree) as (Hok & (s & Hs & [d Hd]) & Htot).
  unfold visit, get_total_points_available.
  pose proof Hok as (Hwf & Havail & Hclosed).
  case_decide as Hvalid.
  - rewrite Hs, bind_lift_Ok, Hd.
    assert (Mid (add_candidate tree d st) (sim_log e)) as HMid'.
    { apply Mid_add_candidate; [done..| |lia]. exists s. by eauto. }
    by destruct (float_lt _ _).
  - destruct Htot as [?|Htot]; [lia|].
    eapply post_bind with (I := λ l e',
        sim_log e' = sim_log e
        ∧ ∀ x, x ∈ l → can_node_be_decremented tree x.1 x.2 = Ok true).
    { pose proof (find_nodes_to_decrement_sound tree e) as Hsound.
      destruct (find_nodes_to_decrement tree e) as [[l|x] e'] eqn:Hfind;
        simpl in *; [done|].
      split; [by rewrite Hsound|]. intros Hc.
      destruct (find_nodes_to_decrement_Ok tree e Hwf (Hclosed Hc))
        as (l & e'' & Heq). congruence. }
    intros l e1 [Hlog1 Hl]. rewrite bind_shuffled.
    set (e2 := {| world := _; sim_log := _ |}).
    apply for_each_M_post.
    { split_and!; [|done..]. simpl. by rewrite Hlog1. }
    intros nc st' e' Hnc%slice_to_subseteq (HMid' & Hbeam' & Hiter').
    apply explore_spec; [done|done|congruence|lia|].
    apply Hl. by rewrite <-(shuffle_perm _ l (world e1)).
Qed.
End loop_invariants.

Section iterations.
Context `{Runtime}.
Context (seed : PlayerTalentTree) (config : BeamSearchConfig)
        (player : Player) (locked : LockedTalentTrees).
Context (Hlocked : locked_ok locked).

Local Abbreviation T := (get_total_points_spent seed).
Local Abbreviation B := (_max_points_available seed).

(** One pass through the loop body: the counter advances by one, and the
    loop only goes on, with its invariant, when the beam held an
    over-budget allocation. *)
Lemma iterate_spec st e :
  Entry seed st (sim_log e) →
  post (λ r e',
          iteration r.1 = iteration st + 1
          ∧ never_resubmitted (sim_log e')
          ∧ (r.2 = true →
             Entry seed r.1 (sim_log e')
             ∧ iteration st < T - B
             ∧ beam r.1 ≠ []))
       (Aborted seed)
       (iterate config player locked st e).
Proof.
  intros (Hiter & Hbeam & Hmemo & Hlog). unfold iterate.
  set (st0 := {| dps_by_talent_str := dps_by_talent_str st;
                 beam := beam st; best_dps := best_dps st;
                 best_tree_so_far := best_tree_so_far st;
                 iteration := iteration st + 1; candidates := [];
                 has_new_candidates := false |}).
  eapply post_bind with (I := Mid_at seed st0).
  { apply for_each_M_post; [|by intros; apply visit_spec].
    split_and!; [|done..]. split_and!; simpl; [|done..].
    eapply Forall_impl; [exact Hbeam|]. intros t (? & ? & ?).
    split_and!; [done..|]. lia. }
  intros st1 e1 ((Hbeam1 & Hcands1 & Hnew1 & Hmemo1 & Hlog1) & Hb1 & Hi1).
  simpl in Hi1.
  destruct (has_new_candidates st1) eqn:Hnew; simpl.
  2: { split_and!; [done..|]. by intros [=]. }
  specialize (Hnew1 eq_refl).
  set (sc := sorted (λ a b, negb (float_lt a b)) snd (candidates st1)).
  assert (Forall (λ c : PlayerTalentTree * float,
            tree_ok seed c.1 ∧ in_memo (dps_by_talent_str st1) c.1
            ∧ (get_total_points_spent c.1 ≤ B
               ∨ get_total_points_spent c.1 = T - iteration st1))
            (slice_to (beam_width config) sc)) as Htop.
  { apply Forall_forall. intros c Hc%slice_to_subseteq.
    unfold sc in Hc. rewrite sorted_Permutation in Hc.
    rewrite Forall_forall in Hcands1. by apply Hcands1. }
  destruct (map_each_Ok (λ c : PlayerTalentTree * float,
              to_talent_string c.1) (slice_to (beam_width config) sc))
    as [strs ->].
  { eapply Forall_impl; [exact Htop|]. intros c ((Hwf & _) & _).
    by apply to_talent_string_Ok. }
  rewrite bind_lift_Ok. simpl. split_and!; [done..|].
  intros Hne%bool_decide_eq_true. split_and!; [|lia|done].
  split_and!; simpl; [lia| |done..].
  by apply Forall_fmap.
Qed.

Lemma while_beam_unfold fuel st :
  while_beam config player locked fuel st
  = if decide (beam st = []) then mret (Some st)
    else
      match fuel with
      | O => mret None
      | S fuel' =>
          r ← iterate config player locked st;
          if r.2 : bool then while_beam config player locked fuel' r.1
          else mret (Some r.1)
      end.
Proof. by destruct fuel. Qed.

(** The loop stops within the bound on its iterations. *)
Lemma while_beam_spec fuel st e :
  Entry seed st (sim_log e) →
  iteration st ≤ Z.max (T - B) 0 →
  (Z.to_nat (Z.max (T - B) 0 + 1 - iteration st) ≤ fuel)%nat →
  post (λ r e',
          ∃ st', r = Some st'
                 ∧ iteration st' ≤ Z.max (T - B) 0 + 1
                 ∧ (beam st ≠ [] → iteration st < iteration st')
                 ∧ never_resubmitted (sim_log e'))
       (Aborted seed)
       (while_beam config player locked fuel st e).
Proof.
  revert st e. induction fuel as [|fuel IH]; intros st e HEntry Hiter Hfuel;
    rewrite while_beam_unfold; case_decide as Hbeam.
  - simpl. exists st. split_and!; [done|lia|done|]. apply HEntry.
  - lia.
  - simpl. exists st. split_and!; [done|lia|done|]. apply HEntry.
  - eapply post_bind; [by apply iterate_spec|].
    intros [st1 [|]] e1 (Hiter1 & Hlog1 & Hcont); simpl in *.
    + destruct (Hcont eq_refl) as (HEntry1 & Hlt & Hbeam1).
      eapply post_impl; [apply IH; [done|lia|lia]| |done].
      intros r e' (st' & -> & ? & Hgrow & ?). exists st'.
      split_and!; [done..| |done]. intros _. specialize (Hgrow Hbeam1). lia.
    + exists st1. split_and!; [done|lia|lia|done].
Qed.
End iterations.

(** ** Seeding the search *)

Lemma empty_selections_keys tpl k :
  k ∈ node_id <$> nodes tpl → k ∈ dict_keys (empty_selections tpl).
Proof.
  unfold empty_selections.
  cut (∀ d : dict PlayerTalentNodeSelection,
         k ∈ dict_keys d ∨ k ∈ node_id <$> nodes tpl →
         k ∈ dict_keys
               (foldl (λ d node,
                    dict_set (node_id node)
                      {| node_reference := node;
                         points_spent_by_choice_index :=
                           (λ _, 0) <$> choices node |} d)
                  d (nodes tpl))).
  { intros Hcut ?. apply Hcut. by right. }
  induction (nodes tpl) as [|n ns IH]; intros d Hk; simpl.
  - destruct Hk as [?|Hk]; [done|]. by apply elem_of_nil in Hk.
  - apply IH. rewrite fmap_cons, elem_of_cons in Hk.
    destruct (decide (k = node_id n)) as [->|Hne].
    + left. apply dict_get_is_Some. rewrite dict_get_set, decide_True by done.
      by eauto.
    + destruct Hk as [Hk|[?|?]]; [|done|by right].
      left. apply dict_get_is_Some. rewrite dict_get_set, decide_False by done.
      by apply dict_get_is_Some.
Qed.

Lemma empty_selections_refs tpl :
  Forall (λ item : string * PlayerTalentNodeSelection,
      node_reference item.2 ∈ nodes tpl) (empty_selections tpl).
Proof.
  unfold empty_selections.
  cut (∀ ns (d : dict PlayerTalentNodeSelection),
         ns ⊆ nodes tpl →
         Forall (λ item, node_reference item.2 ∈ nodes tpl) d →
         Forall (λ item, node_reference item.2 ∈ nodes tpl)
           (foldl (λ d node,
                dict_set (node_id node)
                  {| node_reference := node;
                     points_spent_by_choice_index :=
                       (λ _, 0) <$> choices node |} d)
              d ns)).
  { intros Hcut. apply Hcut; [done|constructor]. }
  induction ns as [|n ns IH]; intros d Hns Hd; simpl; [done|].
  apply IH.
  - intros x Hx. apply Hns. by right.
  - apply dict_set_Forall; [|done]. simpl. apply Hns. left.
Qed.

Lemma fresh_tree_closed tpl budget :
  closed_template tpl → closed_tree (fresh_tree tpl budget).
Proof.
  intros Hc. unfold closed_tree. simpl.
  eapply Forall_impl; [apply empty_selections_refs|].
  intros [k s] Hs. simpl in *.
  unfold closed_template in Hc. rewrite Forall_forall in Hc.
  eapply Forall_impl; [by apply Hc|]. intros r. apply empty_selections_keys.
Qed.

(** The seed allocation: every choice outside the block list at capacity. *)
Lemma seed_tree_spec tpl budget except_for :
  ∃ tree,
    skill_all_nodes (fresh_tree tpl budget) except_for = Ok tree
    ∧ wf_tree tree
    ∧ gate_totals_consistent tree
    ∧ _max_points_available tree = budget
    ∧ (closed_template tpl → closed_tree tree).
Proof.
  destruct (skill_all_nodes_spec (fresh_tree tpl budget) except_for)
    as (tree & Htree & Htpl & Hby & Hmax & Hshape & Hg).
  { apply fresh_tree_wf. }
  { apply fresh_tree_unblocked_zero. }
  exists tree. split_and!; [done| | |done|].
  - eapply wf_tree_same_shape; [apply fresh_tree_wf|done..].
  - intros g. specialize (Hg g).
    rewrite (fresh_tree_consistent tpl budget g) in Hg. lia.
  - intros Hc. eapply closed_tree_same_shape; [|done].
    by apply fresh_tree_closed.
Qed.

Section seeding.
Context `{Runtime}.

(** When the seed evaluation succeeds the loop is entered with its
    invariant. *)
Lemma seed_search_spec forest player locked block e :
  sim_log e = [] →
  post (λ st e',
          ∃ tree,
            skill_all_nodes
              (fresh_tree (spec_tree forest) (_max_points_available tree))
              (blocked_spec_talents block) = Ok tree
            ∧ get_available_spec_talent_points player
              = Ok (_max_points_available tree)
            ∧ beam st = [tree]
            ∧ iteration st = 0
            ∧ locked_ok locked
            ∧ Entry tree st (sim_log e')
            ∧ (closed_template (spec_tree forest) → closed_tree tree))
       (λ e', never_resubmitted (sim_log e'))
       (seed_search forest player locked block e).
Proof.
  intros Hlog. unfold seed_search.
  destruct (get_available_spec_talent_points player) as [budget|] eqn:Hbudget.
  2: { rewrite bind_lift_Raise. simpl. rewrite Hlog.
       apply never_resubmitted_nil. }
  rewrite bind_lift_Ok, new_PlayerTalentTree_Ok, bind_lift_Ok.
  destruct (seed_tree_spec (spec_tree forest) budget
              (blocked_spec_talents block))
    as (tree & Hskill & Hwf & _ & Hmax & Hclosed).
  rewrite Hskill, bind_lift_Ok.
  destruct (_make_talents_record locked None (Some (TreeProvider tree)) None)
    as [r|] eqn:Hr.
  2: { rewrite bind_lift_Raise. simpl. rewrite Hlog.
       apply never_resubmitted_nil. }
  apply _make_talents_record_inv in Hr as [Hlocked Hr].
  rewrite bind_lift_Ok, M_bind_unfold.
  destruct (_run_sim_spec player r e) as (input & out & w & -> & Hinput).
  rewrite Hlog. simpl.
  destruct out as [out|].
  2: { simpl. apply never_resubmitted_singleton. }
  destruct (to_talent_string_Ok _ Hwf) as [s Hs].
  rewrite Hs, bind_lift_Ok. simpl.
  exists tree. rewrite Hmax. split_and!; [done..| |done].
  assert (submitted input = Ok s) as Hsub.
  { unfold submitted. by rewrite Hinput, Hr. }
  split_and!; simpl; [done| | |apply never_resubmitted_singleton].
  - apply Forall_singleton. split_and!.
    + split_and!; done.
    + exists s. split; [done|]. rewrite lookup_singleton_eq. by eauto.
    + right. lia.
  - intros input' out' Hin%list_elem_of_singleton. simplify_eq.
    exists s. split; [done|]. rewrite lookup_singleton_eq. by eauto.
Qed.
End seeding.

(** ** Deciding the gate-total invariant *)

Lemma points_in_gate_absent d g :
  g ∉ (λ s, gate_id (node_reference s)) <$> dict_values d →
  points_in_gate d g = 0.
Proof.
  induction d as [|[k s] d IH]; [done|].
  unfold dict_values. rewrite !fmap_cons, not_elem_of_cons. intros [Hg Hd].
  rewrite points_in_gate_cons, IH by done. unfold points_of. simpl in *.
  by rewrite decide_False.
Qed.

Lemma gate_get_absent (m : gmap Z Z) g :
  g ∉ (map_to_list m).*1 → gate_get m g = 0.
Proof.
  intros Hg. unfold gate_get. destruct (m !! g) as [x|] eqn:Hx; [|done].
  destruct Hg. apply list_elem_of_fmap. exists (g, x).
  split; [done|]. by apply elem_of_map_to_list.
Qed.

Lemma gate_totals_consistent_keys t :
  gate_totals_consistent t
  ↔ Forall (λ g, gate_get (_spent_points_by_gate t) g
                 = points_in_gate (_selection_by_node_id t) g) (gate_keys t).
Proof.
  split.
  - intros Hc. apply Forall_forall. intros g _. apply Hc.
  - intros Hk g. destruct (decide (g ∈ gate_keys t)) as [Hg|Hg].
    + rewrite Forall_forall in Hk. by apply Hk.
    + unfold gate_keys in Hg. rewrite not_elem_of_app in Hg.
      destruct Hg as [Hg1 Hg2].
      by rewrite gate_get_absent, points_in_gate_absent.
Qed.

#[global] Instance gate_totals_consistent_dec t :
  Decision (gate_totals_consistent t).
Proof.
  refine (cast_if (decide (Forall (λ g,
            gate_get (_spent_points_by_gate t) g
            = points_in_gate (_selection_by_node_id t) g) (gate_keys t))));
    by rewrite gate_totals_consistent_keys.
Defined.

(** ** The claims *)

(** C1, as stated, fails.  The check reads the stored gate totals: after
    a second [skill_all_nodes] they are twice the points held, and with
    gate 0 listed twice its total is counted twice.  In both allocations 3
    points lie below gate 1, which needs 5, and the removal from [a] is
    accepted. *)
Lemma stale_gate_totals_accept_removal :
  (wf_tree loose_twice ∧ closed_tree loose_twice ∧ gates_ok loose_twice
   ∧ dict_get "a" (_selection_by_node_id loose_twice)
     = Some {| node_reference := one_choice "a" 3 0 [] [];
               points_spent_by_choice_index := [3] |}
   ∧ mk_gate 1 5 ∈ gates (gate_info (_tree_template loose_twice))
   ∧ points_committed_below loose_twice 1 = 3
   ∧ can_node_be_decremented loose_twice "a" 0 = Ok true)
  ∧ (wf_tree doubled_tree ∧ closed_tree doubled_tree
     ∧ gate_totals_consistent doubled_tree
     ∧ dict_get "a" (_selection_by_node_id doubled_tree)
       = Some {| node_reference := one_choice "a" 3 0 [] [];
                 points_spent_by_choice_index := [3] |}
     ∧ mk_gate 1 5 ∈ gates (gate_info (_tree_template doubled_tree))
     ∧ points_committed_below doubled_tree 1 = 3
     ∧ can_node_be_decremented doubled_tree "a" 0 = Ok true).
Proof.
  split; split_and!; try by_computation; by vm_compute.
Qed.

(** C1, amended: for an allocation whose stored gate totals are
    consistent with the points held, over a template with unique gate ids
    in which every node lies in a listed gate, the legality check never
    answers true for a node of gate G when some gate H with a larger id has
    a threshold that is at least the number of points committed to the
    nodes in gates below H; it answers false when the allocation is
    well-formed and no parent or child reference dangles. *)
Theorem gate_support_blocks_removal t nid c s gate :
  gates_ok t →
  gate_totals_consistent t →
  dict_get nid (_selection_by_node_id t) = Some s →
  gate ∈ gates (gate_info (_tree_template t)) →
  Gate.gate_id gate > gate_id (node_reference s) →
  Gate.points_required_below gate
    >= points_committed_below t (Gate.gate_id gate) →
  can_node_be_decremented t nid c ≠ Ok true
  ∧ (wf_tree t → closed_tree t → can_node_be_decremented t nid c = Ok false).
Proof.
  intros Hok Hc Hs Hgate Hid Hthr.
  pose proof (gate_scan_unsupported t _ gate Hok Hc Hgate Hid Hthr) as Hscan.
  assert (can_node_be_decremented_body t nid c ≠ Ok tt) as Hbody.
  { rewrite (can_node_be_decremented_body_known _ _ _ _ Hs).
    destruct (negb _); [done|]. case_decide; [done|].
    destruct (template_item t nid); simpl; [|done].
    destruct (for_each _ _ _); simpl; [|done]. by rewrite Hscan. }
  split.
  - unfold can_node_be_decremented.
    destruct (can_node_be_decremented_body t nid c) as [[]|[]]; done.
  - intros Hwf Hclosed.
    destruct (can_node_be_decremented_body_decided t nid c s Hwf Hclosed Hs)
      as [?|Heq]; [done|].
    unfold can_node_be_decremented. by rewrite Heq.
Qed.

Lemma gate_support_blocks_removal_witness :
  Gate.points_required_below (mk_gate 1 5)
    >= points_committed_below gated_tree 1
  ∧ can_node_be_decremented gated_tree "a" 0 ≠ Ok true
  ∧ (wf_tree gated_tree → closed_tree gated_tree →
     can_node_be_decremented gated_tree "a" 0 = Ok false).
Proof.
  split; [by_computation|].
  apply (gate_support_blocks_removal gated_tree "a" 0
           {| node_reference := one_choice "a" 3 0 [] ["b"];
              points_spent_by_choice_index := [3] |} (mk_gate 1 5));
    by_computation.
Defined.

(** C2, as stated, fails on a template with a dangling reference: [b]
    holds a point, its only other parent is not a node of the template (so
    no other parent is filled to capacity), [a] holds points in one choice,
    and the check raises [KeyError] where the claim says it returns
    false. *)
Lemma dangling_parent_raises_KeyError :
  wf_tree dangling_tree
  ∧ dict_get "a" (_selection_by_node_id dangling_tree)
    = Some {| node_reference := one_choice "a" 1 0 [] ["b"];
              points_spent_by_choice_index := [1] |}
  ∧ dict_get "b" (_selection_by_node_id dangling_tree)
    = Some {| node_reference := one_choice "b" 1 0 ["a"; "ghost"] [];
              points_spent_by_choice_index := [1] |}
  ∧ dict_get "ghost" (_selection_by_node_id dangling_tree) = None
  ∧ can_node_be_decremented dangling_tree "a" 0 = Raise KeyError.
Proof. split_and!; try by_computation; by vm_compute. Qed.

(** C2, amended: on a well-formed allocation over a template without
    dangling references, when choice c of N holds a point: if some child
    of N holds points, no other parent of that child has a choice filled
    to its capacity, and N does not hold points in more than one choice,
    the check returns false; when N holds points in more than one choice,
    or every points-holding child has another parent with a choice filled
    to its capacity, the dependency condition does not block and the
    answer is that of the gate scan. *)
Theorem dependency_preservation t nid c s p :
  wf_tree t → closed_tree t →
  dict_get nid (_selection_by_node_id t) = Some s →
  0 ≤ c →
  points_spent_by_choice_index s !! Z.to_nat c = Some p →
  1 ≤ p →
  ((∃ child cs,
      child ∈ child_nodes (node_reference s)
      ∧ dict_get child (_selection_by_node_id t) = Some cs
      ∧ holds_points cs
      ∧ ∀ r ps, r ∈ parent_nodes (node_reference cs) → r ≠ nid →
          dict_get r (_selection_by_node_id t) = Some ps →
          ¬ filled_to_capacity ps) →
   ¬ several_choices_hold_points s →
   can_node_be_decremented t nid c = Ok false)
  ∧ (several_choices_hold_points s
     ∨ (∀ child cs,
          child ∈ child_nodes (node_reference s) →
          dict_get child (_selection_by_node_id t) = Some cs →
          holds_points cs →
          ∃ r ps, r ∈ parent_nodes (node_reference cs) ∧ r ≠ nid
                  ∧ dict_get r (_selection_by_node_id t) = Some ps
                  ∧ filled_to_capacity ps) →
     can_node_be_decremented t nid c
     = Ok (gate_supported t (gate_id (node_reference s)))).
Proof.
  intros Hwf Hclosed Hs Hc Hp Hpos.
  assert (Forall (λ r, is_Some (dict_get r (_selection_by_node_id t)))
            (child_nodes (node_reference s))) as Hchildren.
  { apply Forall_forall. intros r Hr.
    eapply closed_tree_lookup; [done..|]. apply elem_of_app. by left. }
  assert (can_node_be_decremented_body t nid c
          = (_ ← for_each (check_child t nid (violates_single_choice_rule s))
                   (child_nodes (node_reference s)) tt;
             gate_scan (_spent_points_by_gate t)
               (gate_id (node_reference s))
               (sorted Z.leb Gate.gate_id
                  (gates (gate_info (_tree_template t)))) 0)) as Hbody.
  { rewrite (can_node_be_decremented_body_known _ _ _ _ Hs).
    rewrite (holds_talent_points_true s (Z.to_nat c) p) by (done || lia).
    simpl. rewrite decide_False.
    - by rewrite (wf_tree_template_item _ _ _ Hwf Hs).
    - intros Hnot. apply Hnot, elem_of_choice_indices. exists p.
      split_and!; [done..|lia]. }
  unfold can_node_be_decremented. rewrite Hbody. split.
  - intros (child & cs & Hchild & Hcs & Hholds & Hnone)
      Hv%violates_single_choice_rule_false.
    rewrite Hv.
    rewrite (check_children_stranded t nid _ child cs); [done..| |].
    + by apply holds_talent_points_spec.
    + intros r ps Hr Hne Hps.
      apply has_fully_skilled_choice_false. by eapply Hnone.
  - intros Hpass. rewrite check_children_pass; [|done..|].
    + simpl. unfold gate_supported.
      destruct (gate_scan_decided (_spent_points_by_gate t)
                  (gate_id (node_reference s))
                  (sorted Z.leb Gate.gate_id
                     (gates (gate_info (_tree_template t)))) 0) as [-> | ->].
      * by rewrite bool_decide_eq_true_2.
      * by rewrite bool_decide_eq_false_2.
    + destruct Hpass as [Hv|Hpass];
        [left; by apply violates_single_choice_rule_spec|right].
      intros child cs Hchild Hcs Hholds%holds_talent_points_spec.
      destruct (Hpass child cs Hchild Hcs Hholds)
        as (r & ps & Hr & Hne & Hps & Hfull).
      exists r, ps. split_and!; [done..|].
      by apply has_fully_skilled_choice_spec.
Qed.

Lemma dependency_preservation_witness :
  can_node_be_decremented partial_tree "a" 0 = Ok false
  ∧ several_choices_hold_points
      {| node_reference := two_choices "v" 0 [] ["b"];
         points_spent_by_choice_index := [1; 1] |}
  ∧ can_node_be_decremented clash_tree "v" 0
    = Ok (gate_supported clash_tree 0)
  ∧ gate_supported clash_tree 0 = true
  ∧ can_node_be_decremented diamond_tree "a" 0
    = Ok (gate_supported diamond_tree 0).
Proof.
  assert (several_choices_hold_points
            {| node_reference := two_choices "v" 0 [] ["b"];
               points_spent_by_choice_index := [1; 1] |}) as Hclash.
  { exists 0%nat, 1%nat, 1, 1. split_and!; by_computation. }
  split_and!; [| done | | by vm_compute |].
  - destruct (dependency_preservation partial_tree "a" 0
                {| node_reference := one_choice "a" 1 0 [] ["b"];
                   points_spent_by_choice_index := [1] |} 1)
      as [Hblock _]; [by_computation..|].
    apply Hblock.
    + exists "b", {| node_reference := one_choice "b" 1 0 ["a"; "a2"] [];
                     points_spent_by_choice_index := [1] |}.
      split_and!; [by_computation..| |].
      * exists 0%nat, 1. split; by_computation.
      * intros r ps Hr Hne Hps.
        apply has_fully_skilled_choice_false.
        apply elem_of_cons in Hr as [->|Hr]; [done|].
        apply elem_of_cons in Hr as [->|Hr]; [|by apply elem_of_nil in Hr].
        vm_compute in Hps. by injection Hps as <-.
    + apply violates_single_choice_rule_false. by vm_compute.
  - destruct (dependency_preservation clash_tree "v" 0
                {| node_reference := two_choices "v" 0 [] ["b"];
                   points_spent_by_choice_index := [1; 1] |} 1)
      as [_ Hpass]; [by_computation..|].
    apply Hpass. by left.
  - destruct (dependency_preservation diamond_tree "a" 0
                {| node_reference := one_choice "a" 1 0 [] ["b"];
                   points_spent_by_choice_index := [1] |} 1)
      as [_ Hpass]; [by_computation..|].
    apply Hpass.
    right. intros child cs [->|[]%elem_of_nil]%elem_of_cons [= <-] _.
    exists "a2", {| node_reference := one_choice "a2" 1 0 [] ["b"];
                    points_spent_by_choice_index := [1] |}.
    split_and!; [by_computation..|].
    apply has_fully_skilled_choice_spec. by vm_compute.
Defined.

(** C3, as stated, fails: [skill_all_nodes] adds the capacities to the gate
    totals again when it is applied to an allocation that already holds
    points. *)
Lemma skill_all_nodes_twice_inconsistent :
  gate_totals_consistent single_tree
  ∧ skill_all_nodes single_tree ∅ = Ok single_twice
  ∧ ¬ gate_totals_consistent single_twice.
Proof.
  split_and!.
  - by_computation.
  - by vm_compute.
  - intros Hc. specialize (Hc 0). vm_compute in Hc. discriminate.
Qed.

(** C3, amended: construction establishes the gate-total invariant;
    [skill_all_nodes] keeps it when no choice outside the block list holds
    points (as in a freshly constructed allocation); [decrement_node],
    under its precondition, and [copy] keep it. *)
Theorem gate_totals_invariant :
  (∀ tpl budget,
     ∃ t, new_PlayerTalentTree tpl budget = Ok t
          ∧ wf_tree t
          ∧ unblocked_zero ∅ (_selection_by_node_id t)
          ∧ gate_totals_consistent t)
  ∧ (∀ t except_for,
       wf_tree t → gate_totals_consistent t →
       unblocked_zero except_for (_selection_by_node_id t) →
       ∃ t', skill_all_nodes t except_for = Ok t'
             ∧ wf_tree t'
             ∧ gate_totals_consistent t')
  ∧ (∀ t nid c s p,
       wf_tree t → gate_totals_consistent t →
       dict_get nid (_selection_by_node_id t) = Some s →
       0 ≤ c →
       points_spent_by_choice_index s !! Z.to_nat c = Some p →
       1 ≤ p →
       ∃ t', decrement_node t nid c = Ok t'
             ∧ wf_tree t'
             ∧ gate_totals_consistent t')
  ∧ (∀ t,
       wf_tree t → gate_totals_consistent t →
       ∃ t', copy t = Ok t' ∧ wf_tree t' ∧ gate_totals_consistent t').
Proof.
  split_and!.
  - intros tpl budget. exists (fresh_tree tpl budget). split_and!.
    + apply new_PlayerTalentTree_Ok.
    + apply fresh_tree_wf.
    + apply fresh_tree_unblocked_zero.
    + apply fresh_tree_consistent.
  - intros t except_for Hwf Hc Hz.
    destruct (skill_all_nodes_spec t except_for Hwf Hz)
      as (t' & Ht' & Htpl & Hby & _ & Hshape & Hg).
    exists t'. split_and!; [done| |].
    + by eapply wf_tree_same_shape.
    + intros g. specialize (Hg g). rewrite Hc in Hg. lia.
  - intros t nid c s p Hwf Hc Hs Hc0 Hp Hpos.
    destruct (wf_tree_lookup _ _ _ Hwf Hs) as (_ & _ & Hlen). simpl in Hlen.
    pose proof (lookup_lt_Some _ _ _ Hp) as Hlt.
    assert (decrement_node t nid c
            = Ok (decrement_result t nid s (Z.to_nat c) p)) as Hdec.
    { apply decrement_node_Ok; [done|lia|done|lia]. }
    eexists. split_and!; [done| |].
    + by eapply decrement_node_wf.
    + by eapply decrement_node_consistent.
  - intros t Hwf Hc. exists t. split_and!; [by apply copy_Ok|done..].
Qed.

Lemma gate_totals_invariant_witness :
  (∃ t', skill_all_nodes (fresh_tree single_template 1) ∅ = Ok t'
         ∧ wf_tree t' ∧ gate_totals_consistent t')
  ∧ (∃ t', decrement_node gated_tree "a" 0 = Ok t'
           ∧ wf_tree t' ∧ gate_totals_consistent t')
  ∧ (∃ t', copy gated_tree = Ok t' ∧ wf_tree t' ∧ gate_totals_consistent t').
Proof.
  destruct gate_totals_invariant as (Hnew & Hskill & Hdec & Hcopy).
  split_and!.
  - apply Hskill; [by_computation..|]. apply fresh_tree_unblocked_zero.
  - apply (Hdec gated_tree "a" 0
             {| node_reference := one_choice "a" 3 0 [] ["b"];
                points_spent_by_choice_index := [3] |} 3); by_computation.
  - apply Hcopy; by_computation.
Defined.

(** C4: when choice c of node N holds at least one point,
    [decrement_node] succeeds, [get_total_points_spent] and the stored
    total of N's gate both go down by exactly 1, the totals of all other
    gates are unchanged, and so are the points of every other (node,
    choice). *)
Theorem decrement_node_frame t nid c s p :
  dict_get nid (_selection_by_node_id t) = Some s →
  length (points_spent_by_choice_index s)
    = length (choices (node_reference s)) →
  0 ≤ c →
  points_spent_by_choice_index s !! Z.to_nat c = Some p →
  1 ≤ p →
  ∃ t',
    decrement_node t nid c = Ok t'
    ∧ get_total_points_spent t' = get_total_points_spent t - 1
    ∧ gate_get (_spent_points_by_gate t') (gate_id (node_reference s))
      = gate_get (_spent_points_by_gate t) (gate_id (node_reference s)) - 1
    ∧ (∀ g, g ≠ gate_id (node_reference s) →
         gate_get (_spent_points_by_gate t') g
         = gate_get (_spent_points_by_gate t) g)
    ∧ points_at t' nid (Z.to_nat c) = Some (p - 1)
    ∧ (∀ nid' i, (nid', i) ≠ (nid, Z.to_nat c) →
         points_at t' nid' i = points_at t nid' i).
Proof.
  intros Hs Hlen Hc Hp Hpos.
  exists (decrement_result t nid s (Z.to_nat c) p).
  assert (Z.to_nat c < length (points_spent_by_choice_index s))%nat
    by by eapply lookup_lt_Some.
  split_and!.
  - apply decrement_node_Ok; [done|lia|done|lia].
  - by apply decrement_result_total.
  - simpl. rewrite gate_get_add, decide_True by done. lia.
  - intros g Hg. simpl. rewrite gate_get_add, decide_False by done. lia.
  - rewrite (decrement_result_points_at _ _ _ _ _ _ _ Hs Hp).
    by rewrite decide_True.
  - intros nid' i Hne.
    rewrite (decrement_result_points_at _ _ _ _ _ _ _ Hs Hp).
    by rewrite decide_False.
Qed.

Lemma decrement_node_frame_witness :
  ∃ t',
    decrement_node gated_tree "a" 0 = Ok t'
    ∧ get_total_points_spent t' = get_total_points_spent gated_tree - 1
    ∧ gate_get (_spent_points_by_gate t') 0
      = gate_get (_spent_points_by_gate gated_tree) 0 - 1
    ∧ (∀ g, g ≠ 0 →
         gate_get (_spent_points_by_gate t') g
         = gate_get (_spent_points_by_gate gated_tree) g)
    ∧ points_at t' "a" 0 = Some 2
    ∧ (∀ nid' i, (nid', i) ≠ ("a", 0%nat) →
         points_at t' nid' i = points_at gated_tree nid' i).
Proof.
  apply (decrement_node_frame gated_tree "a" 0
           {| node_reference := one_choice "a" 3 0 [] ["b"];
              points_spent_by_choice_index := [3] |} 3); by_computation.
Defined.

(** C8: the check has no range test on the choice index.  An index
    outside the choices of a known node, negative or too large, is not
    among the indices that hold points, so the check answers false where
    the claim says it raises. *)
Lemma out_of_range_choice_returns_false :
  dict_get "a" (_selection_by_node_id single_tree)
  = Some {| node_reference := one_choice "a" 1 0 [] [];
            points_spent_by_choice_index := [1] |}
  ∧ Z.of_nat (length (choices (one_choice "a" 1 0 [] []))) ≤ 5
  ∧ can_node_be_decremented single_tree "a" 5 = Ok false
  ∧ can_node_be_decremented single_tree "a" (-1) = Ok false.
Proof. split_and!; by vm_compute. Qed.

(** X26: an unknown node id raises [ValueError]; on a well-formed
    allocation over a template without dangling references the check
    returns a boolean for every known node id, whatever the choice index;
    on a well-formed allocation it answers false when the choice index is
    outside the choices of the node. *)
Theorem legality_failure_signaling t nid c :
  (dict_get nid (_selection_by_node_id t) = None →
   can_node_be_decremented t nid c = Raise ValueError)
  ∧ (wf_tree t → closed_tree t →
     is_Some (dict_get nid (_selection_by_node_id t)) →
     ∃ b, can_node_be_decremented t nid c = Ok b)
  ∧ (wf_tree t →
     ∀ s, dict_get nid (_selection_by_node_id t) = Some s →
          c < 0 ∨ Z.of_nat (length (choices (node_reference s))) ≤ c →
          can_node_be_decremented t nid c = Ok false).
Proof.
  split_and!.
  - apply can_node_be_decremented_unknown.
  - intros Hwf Hclosed [s Hs].
    by eapply decided_can_node_be_decremented,
      can_node_be_decremented_body_decided.
  - intros Hwf s Hs Hrange. unfold can_node_be_decremented.
    rewrite (can_node_be_decremented_body_known _ _ _ _ Hs).
    destruct (negb _); [done|]. rewrite decide_True; [done|].
    intros (p & Hc & Hp%lookup_lt_Some & _)%elem_of_choice_indices.
    destruct (wf_tree_lookup _ _ _ Hwf Hs) as (_ & _ & Hlen). simpl in Hlen.
    lia.
Qed.

Lemma legality_failure_signaling_witness :
  can_node_be_decremented gated_tree "zz" 0 = Raise ValueError
  ∧ (∃ b, can_node_be_decremented gated_tree "a" 0 = Ok b)
  ∧ can_node_be_decremented gated_tree "a" 1 = Ok false.
Proof.
  split_and!.
  - destruct (legality_failure_signaling gated_tree "zz" 0) as (Hunknown & _).
    apply Hunknown. by vm_compute.
  - destruct (legality_failure_signaling gated_tree "a" 0) as (_ & Hknown & _).
    apply Hknown; by_computation.
  - destruct (legality_failure_signaling gated_tree "a" 1) as (_ & _ & Hrange).
    apply (Hrange ltac:(by_computation)
             {| node_reference := one_choice "a" 3 0 [] ["b"];
                points_spent_by_choice_index := [3] |});
      [by vm_compute|right; by_computation].
Defined.

(** C5, as stated, fails on a template with a dangling reference: the
    legality check of [a] raises [KeyError], and so does
    [find_nodes_to_decrement] instead of returning the accepted pairs. *)
Lemma dangling_reference_breaks_candidates :
  wf_tree dangling_tree
  ∧ can_node_be_decremented dangling_tree "b" 0 = Ok true
  ∧ (find_nodes_to_decrement dangling_tree (start (H := runtime) ())).1
    = Raise KeyError.
Proof. split_and!; [by_computation|by vm_compute..]. Qed.

(** C5, amended: on a well-formed allocation over a template without
    dangling references, whatever the shuffles do,
    [find_nodes_to_decrement] returns each pair accepted by
    [can_node_be_decremented] exactly once and nothing else, the pairs of
    the nodes that hold points in more than one choice first. *)
Theorem find_nodes_to_decrement_exact `{Runtime} t e :
  wf_tree t → closed_tree t →
  ∃ l e',
    find_nodes_to_decrement t e = (Ok l, e')
    ∧ NoDup l
    ∧ (∀ nid c, (nid, c) ∈ l ↔ can_node_be_decremented t nid c = Ok true)
    ∧ ∃ l1 l2, l = l1 ++ l2
               ∧ (∀ x, x ∈ l1 → violating t x.1)
               ∧ (∀ x, x ∈ l2 → ¬ violating t x.1).
Proof.
  intros Hwf Hc. pose proof (wf_tree_NoDup _ Hwf) as Hnd.
  unfold find_nodes_to_decrement. rewrite bind_shuffled.
  set (ks := (shuffle (dict_keys (_selection_by_node_id t)) (world e)).1).
  set (vs := get_node_ids_with_violated_single_choice t).
  set (e1 := {| world := _; sim_log := _ |}).
  destruct (candidate_node_ids_spec t ks Hnd (shuffle_perm _ _ _))
    as [Hids_nd Hids]. fold vs in Hids_nd, Hids.
  destruct (nodes_loop t (vs ++ filter (λ nid, nid ∉ vs) ks) [] e1 Hwf Hc)
    as (parts & e' & Heq & _ & Hparts).
  { apply Forall_forall. intros nid. apply Hids. }
  exists (concat parts), e'. split_and!; [done| | |].
  - by eapply contributions_NoDup.
  - intros nid c.
    rewrite (elem_of_contributions _ _ _ _ Hparts), Hids. simpl.
    split; [by intros [_ ?]|]. intros Hcan. split; [|done].
    apply can_node_be_decremented_true_inv in Hcan as (s & Hs & _).
    apply dict_get_is_Some. by eexists.
  - apply Forall2_app_inv_l in Hparts as (p1 & p2 & Hp1 & Hp2 & ->).
    exists (concat p1), (concat p2). split_and!; [by rewrite concat_app| |].
    + intros x [Hx _]%(elem_of_contributions _ _ _ _ Hp1).
      by apply elem_of_violating_ids.
    + intros x [[Hx _]%list_elem_of_filter _]%(elem_of_contributions _ _ _ _ Hp2).
      by rewrite <-elem_of_violating_ids.
Qed.

Lemma find_nodes_to_decrement_exact_witness :
  violating clash_tree "v"
  ∧ can_node_be_decremented clash_tree "v" 0 = Ok true
  ∧ ∃ l e',
      find_nodes_to_decrement clash_tree (start (H := runtime) ()) = (Ok l, e')
      ∧ NoDup l
      ∧ (∀ nid c, (nid, c) ∈ l
                  ↔ can_node_be_decremented clash_tree nid c = Ok true)
      ∧ ∃ l1 l2, l = l1 ++ l2
                 ∧ (∀ x, x ∈ l1 → violating clash_tree x.1)
                 ∧ (∀ x, x ∈ l2 → ¬ violating clash_tree x.1).
Proof.
  split_and!.
  - exists {| node_reference := two_choices "v" 0 [] ["b"];
              points_spent_by_choice_index := [1; 1] |}.
    split; [by vm_compute|].
    exists 0%nat, 1%nat, 1, 1. split_and!; by_computation.
  - by vm_compute.
  - apply find_nodes_to_decrement_exact; by_computation.
Defined.

(** ** The whole search *)

(** A run that returned is the pair of its result and its final
    environment. *)
Lemma returned_eta {A B} (d : A) (p : result A * B) :
  is_Some (returned p.1) →
  p = (Ok (match p.1 with Ok a => a | Raise _ => d end), p.2).
Proof. destruct p as [[a|x] b]; simpl; [done|]. by intros [? ?]. Qed.

Lemma returned_continue_eta {A B} (d : A) (p : result (A * bool) * B) :
  snd <$> returned p.1 = Some true →
  p = (Ok (match p.1 with Ok r => r.1 | Raise _ => d end, true), p.2).
Proof. destruct p as [[[a c]|x] b]; simpl; [|done]. by intros [= ->]. Qed.

Section search_facts.
Context `{Runtime}.

(** The log property holds however much fuel the loop is given. *)
Lemma while_beam_log seed config player locked fuel st e :
  locked_ok locked →
  Entry seed st (sim_log e) →
  post (λ _ e', never_resubmitted (sim_log e'))
       (λ e', never_resubmitted (sim_log e'))
       (while_beam config player locked fuel st e).
Proof.
  intros Hlocked. revert st e.
  induction fuel as [|fuel IH]; intros st e HEntry;
    rewrite while_beam_unfold; case_decide as Hbeam;
    try (simpl; apply HEntry).
  eapply post_bind.
  { eapply post_impl; [by apply iterate_spec|done|]. by intros e' [? _]. }
  intros [st1 [|]] e1 (_ & Hlog1 & Hcont); simpl in *; [|done].
  destruct (Hcont eq_refl) as (HEntry1 & _). by apply IH.
Qed.

(** A derived allocation on which the simulator fails leaves the state
    of the search as it was. *)
Lemma explore_failed player locked tree nc st e t1 t2 s r :
  copy tree = Ok t1 →
  decrement_node t1 nc.1 nc.2 = Ok t2 →
  to_talent_string t2 = Ok s →
  dps_by_talent_str st !! s = None →
  _make_talents_record locked None (Some (TreeProvider t2)) None = Ok r →
  (_run_sim player r e).1 = Ok None →
  explore player locked tree nc st e = (Ok st, (_run_sim player r e).2).
Proof.
  intros Hcopy Hdec Hs Hmemo Hr Hsim. unfold explore.
  rewrite Hcopy, bind_lift_Ok, Hdec, bind_lift_Ok, Hs, bind_lift_Ok.
  rewrite decide_False by (rewrite Hmemo; by intros [? ?]).
  rewrite Hr, bind_lift_Ok, M_bind_unfold.
  destruct (_run_sim player r e) as [[[out|]|x] e'] eqn:Hrun;
    simpl in *; by simplify_eq.
Qed.

Lemma seed_failed forest player locked block e budget tree r :
  get_available_spec_talent_points player = Ok budget →
  skill_all_nodes (fresh_tree (spec_tree forest) budget)
    (blocked_spec_talents block) = Ok tree →
  _make_talents_record locked None (Some (TreeProvider tree)) None = Ok r →
  (_run_sim player r e).1 = Ok None →
  (seed_search forest player locked block e).1 = Raise RuntimeError.
Proof.
  intros Hbudget Htree Hr Hsim. unfold seed_search.
  rewrite Hbudget, bind_lift_Ok, new_PlayerTalentTree_Ok, bind_lift_Ok.
  rewrite Htree, bind_lift_Ok, Hr, bind_lift_Ok, M_bind_unfold.
  destruct (_run_sim player r e) as [[[out|]|x] e'] eqn:Hrun;
    simpl in *; by simplify_eq.
Qed.

(** With fuel for the bound on its iterations the loop over a closed
    template returns. *)
Lemma while_beam_returns fuel config forest player locked block w st0 e0
    seed :
  closed_template (spec_tree forest) →
  seed_search forest player locked block (start w) = (Ok st0, e0) →
  beam st0 = [seed] →
  (Z.to_nat (Z.max (get_total_points_spent seed
                    - _max_points_available seed) 0 + 1) ≤ fuel)%nat →
  ∃ st e', while_beam config player locked fuel st0 e0 = (Ok (Some st), e').
Proof.
  intros Hclosed Hseed Hbeam Hfuel.
  pose proof (seed_search_spec forest player locked block (start w) eq_refl)
    as Hspec.
  rewrite Hseed in Hspec. simpl in Hspec.
  destruct Hspec as (tree & _ & _ & Hbeam' & Hiter & Hlocked & HEntry & Hcl).
  assert (tree = seed) as -> by congruence.
  pose proof (while_beam_spec seed config player locked Hlocked fuel st0 e0
                HEntry) as Hloop.
  rewrite Hiter in Hloop.
  specialize (Hloop ltac:(lia) ltac:(by rewrite Z.sub_0_r)).
  destruct (while_beam config player locked fuel st0 e0) as [[r|x] e'];
    simpl in Hloop.
  - destruct Hloop as (st & -> & _). by eauto.
  - destruct Hloop as [_ Hnot]. destruct Hnot. auto.
Qed.

Lemma at_loop_head_Entry seed config player locked st0 e0 st e :
  locked_ok locked →
  Entry seed st0 (sim_log e0) →
  at_loop_head config player locked st0 e0 st e →
  Entry seed st (sim_log e).
Proof.
  intros Hlocked HEntry. induction 1 as [|st e st' e' _ IH Hbeam Hiter];
    [done|].
  pose proof (iterate_spec seed config player locked Hlocked st e IH)
    as Hspec.
  rewrite Hiter in Hspec. simpl in Hspec.
  destruct Hspec as (_ & _ & Hcont). by destruct (Hcont eq_refl).
Qed.
End search_facts.

(** C6, as stated, fails: a seed allocation already within the budget
    (1 point spent, 30 available) takes one iteration, more than
    [initial_total_spent - budget + 1 = -28]. *)
Lemma seed_within_budget_iterates_once :
  beam <$> returned single_seed.1 = Some [seeded single_template 30 ∅]
  ∧ get_total_points_spent (seeded single_template 30 ∅) = 1
  ∧ _max_points_available (seeded single_template 30 ∅) = 30
  ∧ iteration <$> (returned single_run.1 ≫= id) = Some 1
  ∧ ¬ (1 ≤ 1 - 30 + 1).
Proof. split_and!; [by vm_compute..|lia]. Qed.

(** C6, amended: the loop makes at most
    [max (initial_total_spent - budget) 0 + 1] iterations, where
    [initial_total_spent] is the total of the seed allocation and [budget]
    its available points; so the search terminates. *)
Theorem loop_iteration_bound `{Runtime}
    fuel config forest player locked block w st0 e0 seed :
  seed_search forest player locked block (start w) = (Ok st0, e0) →
  beam st0 = [seed] →
  (Z.to_nat (Z.max (get_total_points_spent seed
                    - _max_points_available seed) 0 + 1) ≤ fuel)%nat →
  ∃ r e',
    while_beam config player locked fuel st0 e0 = (r, e')
    ∧ match r with
      | Ok (Some st) =>
          1 ≤ iteration st
            ≤ Z.max (get_total_points_spent seed
                     - _max_points_available seed) 0 + 1
      | Ok None => False
      | Raise _ => ¬ closed_template (spec_tree forest)
      end.
Proof.
  intros Hseed Hbeam Hfuel.
  pose proof (seed_search_spec forest player locked block (start w) eq_refl)
    as Hspec.
  rewrite Hseed in Hspec. simpl in Hspec.
  destruct Hspec as (tree & _ & _ & Hbeam' & Hiter & Hlocked & HEntry & Hcl).
  assert (tree = seed) as -> by congruence.
  pose proof (while_beam_spec seed config player locked Hlocked fuel st0 e0
                HEntry) as Hloop.
  destruct (while_beam config player locked fuel st0 e0) as [r e'].
  exists r, e'. split; [done|]. rewrite Hiter in Hloop.
  specialize (Hloop ltac:(lia) ltac:(by rewrite Z.sub_0_r)).
  destruct r as [r|x]; simpl in Hloop.
  - destruct Hloop as (st & -> & Hle & Hgrow & _).
    split; [|done]. rewrite Hbeam in Hgrow. specialize (Hgrow ltac:(done)).
    lia.
  - destruct Hloop as [_ Hnot]. auto.
Qed.

Lemma loop_iteration_bound_witness :
  ∃ r e',
    while_beam default_config player80 locked_trees 3 pair_st0 pair_e0 = (r, e')
    ∧ match r with
      | Ok (Some st) =>
          1 ≤ iteration st
            ≤ Z.max (get_total_points_spent pair_tree
                     - _max_points_available pair_tree) 0 + 1
      | Ok None => False
      | Raise _ => ¬ closed_template (spec_tree pair_forest)
      end.
Proof.
  apply (loop_iteration_bound (H := runtime) 3 default_config pair_forest
           player80 locked_trees no_blocks () pair_st0 pair_e0 pair_tree).
  - apply (returned_eta (initial_locals (H := runtime) pair_tree "" 0)
             pair_seed).
    by_computation.
  - by vm_compute.
  - by_computation.
Defined.

(** C7, as stated, fails: the simulator fails on ["a:15/b:15"], which is
    therefore not memoized, and the string is submitted again when another
    beam member derives it. *)
Lemma failed_string_resubmitted :
  (submitted <$> (sim_log pair_run.2).*1) !! 4%nat = Some (Ok "a:15/b:15")
  ∧ (submitted <$> (sim_log pair_run.2).*1) !! 5%nat = Some (Ok "a:15/b:15")
  ∧ ¬ NoDup (submitted <$> (sim_log pair_run.2).*1).
Proof.
  split_and!; [by vm_compute..|].
  intros Hnd%(bool_decide_pack _). vm_compute in Hnd. done.
Qed.

(** C7, amended: throughout a run no simulator invocation is made for a
    string on which an earlier invocation succeeded, and a derived
    candidate whose string is a key of the memo table is skipped without
    an invocation; a string on which the simulator failed is not memoized
    and may be submitted again. *)
Theorem oracle_never_resubmitted `{Runtime} :
  (∀ fuel config forest player locked block w,
     never_resubmitted
       (sim_log (beam_search_optimal_talents fuel config forest player
                   locked block (start w)).2))
  ∧ (∀ player locked tree nc st e t1 t2 s,
       copy tree = Ok t1 →
       decrement_node t1 nc.1 nc.2 = Ok t2 →
       to_talent_string t2 = Ok s →
       is_Some (dps_by_talent_str st !! s) →
       explore player locked tree nc st e = (Ok st, e)).
Proof.
  split.
  - intros fuel config forest player locked block w.
    unfold beam_search_optimal_talents. cbv zeta.
    set (m := seed_search _ _ _ _ ≫= _).
    cut (post (λ (_ : option BeamSearchOptimizationResult) e',
                 never_resubmitted (sim_log e'))
              (λ e', never_resubmitted (sim_log e')) (m (start w))).
    { by destruct (m (start w)) as [[?|?] ?]. }
    subst m.
    eapply post_bind; [by apply seed_search_spec|].
    intros st e (tree & _ & _ & _ & _ & Hlocked & HEntry & _).
    eapply post_bind; [by eapply while_beam_log|]. by intros r e' Hlog.
  - intros player locked tree nc st e t1 t2 s Hcopy Hdec Hs Hmemo.
    unfold explore.
    rewrite Hcopy, bind_lift_Ok, Hdec, bind_lift_Ok, Hs, bind_lift_Ok.
    by rewrite decide_True.
Qed.

Lemma oracle_never_resubmitted_witness :
  never_resubmitted
    (sim_log (beam_search_optimal_talents (H := runtime) 3 default_config
                pair_forest player80 (Some locked_trees) (Some no_blocks)
                (start (H := runtime) ())).2).
Proof.
  destruct (oracle_never_resubmitted (H := runtime)) as [Hlog _]. apply Hlog.
Defined.

(** C9: a failure of the seed evaluation makes the call raise; a failure
    on a later candidate leaves the memo table and the candidate pool as
    they were; and once the seed evaluation has succeeded the search
    returns a result, whatever the simulator does afterwards. *)
Theorem oracle_failure_handling `{Runtime} :
  (∀ fuel config forest player locked block e budget tree r,
     get_available_spec_talent_points player = Ok budget →
     skill_all_nodes (fresh_tree (spec_tree forest) budget)
       (blocked_spec_talents (default {| blocked_spec_talents := ∅ |} block))
     = Ok tree →
     _make_talents_record (default no_locked_trees locked)
       None (Some (TreeProvider tree)) None = Ok r →
     (_run_sim player r e).1 = Ok None →
     (beam_search_optimal_talents fuel config forest player locked block e).1
     = Raise RuntimeError)
  ∧ (∀ player locked tree nc st e t1 t2 s r,
       copy tree = Ok t1 →
       decrement_node t1 nc.1 nc.2 = Ok t2 →
       to_talent_string t2 = Ok s →
       dps_by_talent_str st !! s = None →
       _make_talents_record locked None (Some (TreeProvider t2)) None = Ok r →
       (_run_sim player r e).1 = Ok None →
       explore player locked tree nc st e = (Ok st, (_run_sim player r e).2))
  ∧ (∀ fuel config forest player locked block w st0 e0 seed,
       closed_template (spec_tree forest) →
       seed_search forest player locked block (start w) = (Ok st0, e0) →
       beam st0 = [seed] →
       (Z.to_nat (Z.max (get_total_points_spent seed
                         - _max_points_available seed) 0 + 1) ≤ fuel)%nat →
       ∃ res e',
         beam_search_optimal_talents fuel config forest player
           (Some locked) (Some block) (start w)
         = (Ok (Some res), e')).
Proof.
  split_and!.
  - intros fuel config forest player locked block e budget tree r
      Hbudget Htree Hr Hsim.
    pose proof (seed_failed forest player _ _ e budget tree r
                  Hbudget Htree Hr Hsim) as Hseed.
    unfold beam_search_optimal_talents. cbv zeta. rewrite M_bind_unfold.
    destruct (seed_search _ _ _ _ e) as [[st|x] e']; simpl in *; by simplify_eq.
  - apply explore_failed.
  - intros fuel config forest player locked block w st0 e0 seed
      Hclosed Hseed Hbeam Hfuel.
    destruct (while_beam_returns fuel config forest player locked block w
                st0 e0 seed Hclosed Hseed Hbeam Hfuel) as (st & e' & Hloop).
    unfold beam_search_optimal_talents. cbv zeta. simpl default.
    destruct block as [blocked]. rewrite M_bind_unfold, Hseed.
    rewrite M_bind_unfold, Hloop. by eexists _, _.
Qed.

Lemma oracle_failure_handling_witness :
  (beam_search_optimal_talents (H := runtime) 3 default_config failing_forest
     player80 (Some locked_trees) (Some no_blocks) (start (H := runtime) ())).1
  = Raise RuntimeError
  ∧ ∃ res e',
      beam_search_optimal_talents (H := runtime) 3 default_config pair_forest
        player80 (Some locked_trees) (Some no_blocks) (start (H := runtime) ())
      = (Ok (Some res), e').
Proof.
  destruct (oracle_failure_handling (H := runtime)) as (Hseed & _ & Hlater).
  split.
  - apply (Hseed 3%nat default_config failing_forest player80 (Some locked_trees)
             (Some no_blocks) (start (H := runtime) ()) 30
             (seeded (spec_tree failing_forest) 30 ∅)
             {| class_talents := FixedTalentStringProvider "c:1";
                spec_talents :=
                  TreeProvider (seeded (spec_tree failing_forest) 30 ∅);
                hero_talents := FixedTalentStringProvider "h:1" |});
      by vm_compute.
  - apply (Hlater 3%nat default_config pair_forest player80 locked_trees no_blocks ()
             pair_st0 pair_e0 pair_tree);
      [by_computation| |by vm_compute|by_computation].
    apply (returned_eta (initial_locals (H := runtime) pair_tree "" 0)
             pair_seed).
    by_computation.
Defined.

(** C10: at the head of every iteration the canonical string of every
    beam member is a key of the memo table, so the lookup made for a
    budget-valid beam member succeeds, also after the table has grown. *)
Theorem beam_always_memoized `{Runtime}
    config forest player locked block w st0 e0 st e :
  seed_search forest player locked block (start w) = (Ok st0, e0) →
  at_loop_head config player locked st0 e0 st e →
  Forall (λ tree, ∃ s, to_talent_string tree = Ok s
                       ∧ is_Some (dps_by_talent_str st !! s)) (beam st)
  ∧ ∀ tree st' e',
      tree ∈ beam st →
      dps_by_talent_str st ⊆ dps_by_talent_str st' →
      get_total_points_spent tree ≤ get_total_points_available tree →
      ∃ st'', visit config player locked tree st' e' = (Ok st'', e').
Proof.
  intros Hseed Hhead.
  pose proof (seed_search_spec forest player locked block (start w) eq_refl)
    as Hspec.
  rewrite Hseed in Hspec. simpl in Hspec.
  destruct Hspec as (seed & _ & _ & _ & _ & Hlocked & HEntry & _).
  pose proof (at_loop_head_Entry seed config player locked st0 e0 st e
                Hlocked HEntry Hhead) as (_ & Hbeam & _).
  assert (Forall (λ tree, ∃ s, to_talent_string tree = Ok s
                               ∧ is_Some (dps_by_talent_str st !! s))
            (beam st)) as Hmemo.
  { eapply Forall_impl; [exact Hbeam|]. by intros tree (_ & ? & _). }
  split; [done|]. intros tree st' e' Htree Hsub Hvalid.
  rewrite Forall_forall in Hmemo.
  destruct (Hmemo tree Htree) as (s & Hs & [d Hd]).
  unfold visit. rewrite decide_True by done. rewrite Hs, bind_lift_Ok.
  rewrite (lookup_weaken _ _ _ _ Hd Hsub).
  destruct (float_lt _ _); by eexists.
Qed.

Lemma beam_always_memoized_witness :
  Forall (λ tree, ∃ s, to_talent_string tree = Ok s
                       ∧ is_Some (dps_by_talent_str pair_st1 !! s))
    (beam pair_st1)
  ∧ ∀ tree st' e',
      tree ∈ beam pair_st1 →
      dps_by_talent_str pair_st1 ⊆ dps_by_talent_str st' →
      get_total_points_spent tree ≤ get_total_points_available tree →
      ∃ st'', visit default_config player80 locked_trees tree st' e'
              = (Ok st'', e').
Proof.
  apply (beam_always_memoized (H := runtime) default_config pair_forest
           player80 locked_trees no_blocks () pair_st0 pair_e0 pair_st1 pair_e1).
  - apply (returned_eta (initial_locals (H := runtime) pair_tree "" 0)
             pair_seed).
    by_computation.
  - eapply at_loop_next; [apply at_loop_entry|by_computation|].
    apply (returned_continue_eta pair_st0
             (iterate default_config player80 locked_trees pair_st0 pair_e0)).
    by vm_compute.
Defined.

(** ** The mutators of a selection *)

Lemma selection_eta s :
  {| node_reference := node_reference s;
     points_spent_by_choice_index := points_spent_by_choice_index s |} = s.
Proof. by destruct s. Qed.

Lemma reset_all (l : list Z) (n : nat) :
  (n ≤ length l)%nat →
  foldl (λ points i, <[i := 0]> points) l (seq 0 n)
  = replicate n 0 ++ drop n l.
Proof.
  induction n as [|n IH]; intros Hn; [done|].
  rewrite seq_S, foldl_app, IH by lia. simpl.
  destruct (lookup_lt_is_Some_2 l n) as [x Hx]; [lia|].
  rewrite insert_app_r_alt by (rewrite length_replicate; lia).
  rewrite length_replicate, Nat.sub_diag.
  rewrite (drop_S _ _ _ Hx). simpl.
  by rewrite cons_middle, (assoc_L (++)), <- replicate_S_end.
Qed.

Lemma reset_points_zero s :
  points_spent_by_choice_index (reset_points s)
  = replicate (length (points_spent_by_choice_index s)) 0.
Proof.
  unfold reset_points. simpl. rewrite reset_all by done.
  by rewrite drop_all, (right_id_L [] (++)).
Qed.

Lemma use_point_for_choice_inv s i b s' :
  use_point_for_choice s i b = Ok s' →
  ∃ p choice,
    0 ≤ i
    ∧ points_spent_by_choice_index s !! Z.to_nat i = Some p
    ∧ choices (node_reference s) !! Z.to_nat i = Some choice
    ∧ p < max_points choice
    ∧ (b = false → violates_single_choice_rule s = false)
    ∧ s' = {| node_reference := node_reference s;
              points_spent_by_choice_index :=
                <[Z.to_nat i := p + 1]> (points_spent_by_choice_index s) |}.
Proof.
  unfold use_point_for_choice. case_decide as Hr; [done|].
  destruct (negb b && violates_single_choice_rule s) eqn:Hb; [done|].
  destruct (_ !! _) as [p|] eqn:Hp; [|done].
  destruct (choices _ !! _) as [choice|] eqn:Hc; [|done].
  case_decide; [done|]. intros [= <-]. exists p, choice.
  split_and!; [lia|done|done|lia| |done].
  intros ->. by destruct (violates_single_choice_rule s).
Qed.

Lemma fully_skill_choice_inv s i b s' d :
  fully_skill_choice s i b = Ok (s', d) →
  ∃ p choice,
    0 ≤ i
    ∧ points_spent_by_choice_index s !! Z.to_nat i = Some p
    ∧ choices (node_reference s) !! Z.to_nat i = Some choice
    ∧ d = max_points choice - p
    ∧ s' = {| node_reference := node_reference s;
              points_spent_by_choice_index :=
                <[Z.to_nat i := max_points choice]>
                  (points_spent_by_choice_index s) |}.
Proof.
  unfold fully_skill_choice. case_decide as Hr; [done|].
  destruct (negb b && violates_single_choice_rule s); [done|].
  destruct (_ !! _) as [p|] eqn:Hp; [|done].
  destruct (choices _ !! _) as [choice|] eqn:Hc; [|done].
  intros [= <- <-]. exists p, choice. split_and!; [lia|done..].
Qed.

Lemma unskill_choice_inv s i s' d :
  unskill_choice s i = Ok (s', d) →
  0 ≤ i < Z.of_nat (length (choices (node_reference s)))
  ∧ points_spent_by_choice_index s !! Z.to_nat i = Some d
  ∧ s' = {| node_reference := node_reference s;
            points_spent_by_choice_index :=
              <[Z.to_nat i := 0]> (points_spent_by_choice_index s) |}.
Proof.
  unfold unskill_choice. case_decide as Hr; [done|].
  destruct (_ !! _) as [p|] eqn:Hp; [|done].
  intros [= <- <-]. split_and!; [lia|lia|done..].
Qed.

Lemma within_capacity_insert s i q choice :
  within_capacity s →
  choices (node_reference s) !! i = Some choice →
  0 ≤ q ≤ max_points choice →
  within_capacity
    {| node_reference := node_reference s;
       points_spent_by_choice_index :=
         <[i := q]> (points_spent_by_choice_index s) |}.
Proof.
  unfold within_capacity. simpl. intros Hw Hc Hq.
  rewrite <- (list_insert_id _ _ _ Hc). by apply Forall2_insert.
Qed.

Lemma within_capacity_lookup s i p choice :
  within_capacity s →
  points_spent_by_choice_index s !! i = Some p →
  choices (node_reference s) !! i = Some choice →
  0 ≤ p ≤ max_points choice.
Proof. intros Hw Hp Hc. by eapply (Forall2_lookup_lr _ _ _ _ _ _ Hw). Qed.

(** Two entries of a list that satisfy [P] make the filtered list at least
    two long. *)
Lemma filter_two {A} (P : A → Prop) `{∀ x, Decision (P x)} l i j a b :
  i ≠ j → l !! i = Some a → l !! j = Some b → P a → P b →
  (2 ≤ length (filter P l))%nat.
Proof.
  revert i j. induction l as [|x l IH]; intros i j Hij Hi Hj Ha Hb; [done|].
  assert (∀ k y, l !! k = Some y → P y → (1 ≤ length (filter P l))%nat)
    as Hone.
  { intros k y Hk Hy.
    assert (y ∈ filter P l) as Hin
      by (apply list_elem_of_filter; split; [done|by eapply list_elem_of_lookup_2]).
    destruct (filter P l); [by apply elem_of_nil in Hin|simpl; lia]. }
  destruct i as [|i], j as [|j]; simplify_eq/=.
  - rewrite filter_cons_True by done. simpl.
    pose proof (Hone _ _ Hj Hb). lia.
  - rewrite filter_cons_True by done. simpl.
    pose proof (Hone _ _ Hi Ha). lia.
  - assert (i ≠ j) by congruence.
    pose proof (IH i j ltac:(done) Hi Hj Ha Hb).
    rewrite filter_cons. case_decide; simpl; lia.
Qed.

(** X1: every mutator of a selection keeps the points of each choice
    between 0 and the capacity of the choice. *)
Theorem mutators_keep_capacity s :
  within_capacity s →
  (∀ i b s', use_point_for_choice s i b = Ok s' → within_capacity s')
  ∧ (∀ i s', remove_point_from_choice s i = Ok s' → within_capacity s')
  ∧ (∀ i b s' d, fully_skill_choice s i b = Ok (s', d) → within_capacity s')
  ∧ (∀ i s' d, unskill_choice s i = Ok (s', d) → within_capacity s')
  ∧ within_capacity (reset_points s).
Proof.
  intros Hw. split_and!.
  - intros i b s' (p & choice & _ & Hp & Hc & Hlt & _ & ->)%use_point_for_choice_inv.
    pose proof (within_capacity_lookup _ _ _ _ Hw Hp Hc).
    apply (within_capacity_insert _ _ _ choice); [done..|lia].
  - intros i s' (p & Hi & Hp & Hpos & ->)%remove_point_from_choice_inv.
    destruct (lookup_lt_is_Some_2 (choices (node_reference s)) (Z.to_nat i))
      as [choice Hc]; [lia|].
    pose proof (within_capacity_lookup _ _ _ _ Hw Hp Hc).
    apply (within_capacity_insert _ _ _ choice); [done..|lia].
  - intros i b s' d (p & choice & _ & Hp & Hc & _ & ->)%fully_skill_choice_inv.
    pose proof (within_capacity_lookup _ _ _ _ Hw Hp Hc).
    apply (within_capacity_insert _ _ _ choice); [done..|lia].
  - intros i s' d (Hi & Hp & ->)%unskill_choice_inv.
    destruct (lookup_lt_is_Some_2 (choices (node_reference s)) (Z.to_nat i))
      as [choice Hc]; [lia|].
    pose proof (within_capacity_lookup _ _ _ _ Hw Hp Hc).
    apply (within_capacity_insert _ _ _ choice); [done..|lia].
  - unfold within_capacity in *. rewrite reset_points_zero. simpl.
    induction Hw as [|p choice pts cs Hp _ IH]; [constructor|].
    simpl. constructor; [lia|done].
Qed.

Lemma mutators_keep_capacity_witness :
  (∀ i b s', use_point_for_choice left_chosen i b = Ok s' →
             within_capacity s')
  ∧ (∀ i s', remove_point_from_choice left_chosen i = Ok s' →
             within_capacity s')
  ∧ (∀ i b s' d, fully_skill_choice left_chosen i b = Ok (s', d) →
                 within_capacity s')
  ∧ (∀ i s' d, unskill_choice left_chosen i = Ok (s', d) →
               within_capacity s')
  ∧ within_capacity (reset_points left_chosen).
Proof. apply (mutators_keep_capacity left_chosen). by_computation. Defined.

(** X2: removing a point undoes using one, and using a point (with the
    single-choice guard bypassed) undoes removing one, on selections whose
    points are within capacity. *)
Theorem use_and_remove_point_round_trip s i :
  within_capacity s →
  (∀ b s', use_point_for_choice s i b = Ok s' →
           remove_point_from_choice s' i = Ok s)
  ∧ (∀ s', remove_point_from_choice s i = Ok s' →
           use_point_for_choice s' i true = Ok s).
Proof.
  intros Hw. split.
  - intros b s' (p & choice & Hi & Hp & Hc & Hlt & _ & ->)%use_point_for_choice_inv.
    pose proof (within_capacity_lookup _ _ _ _ Hw Hp Hc).
    pose proof (lookup_lt_Some _ _ _ Hp). pose proof (lookup_lt_Some _ _ _ Hc).
    rewrite (remove_point_from_choice_Ok _ i (p + 1)); simpl; [|lia| |lia].
    + unfold decremented. simpl. rewrite list_insert_insert_eq.
      replace (p + 1 - 1) with p by lia.
      by rewrite list_insert_id, selection_eta.
    + by rewrite list_lookup_insert_eq.
  - intros s' (p & Hi & Hp & Hpos & ->)%remove_point_from_choice_inv.
    destruct (lookup_lt_is_Some_2 (choices (node_reference s)) (Z.to_nat i))
      as [choice Hc]; [lia|].
    pose proof (within_capacity_lookup _ _ _ _ Hw Hp Hc).
    pose proof (lookup_lt_Some _ _ _ Hp).
    unfold use_point_for_choice, decremented. simpl.
    rewrite decide_False by lia.
    rewrite list_lookup_insert_eq by done. rewrite Hc.
    rewrite decide_False by lia. rewrite list_insert_insert_eq.
    replace (p - 1 + 1) with p by lia.
    by rewrite list_insert_id, selection_eta.
Qed.

Lemma use_and_remove_point_round_trip_witness :
  (∀ b s', use_point_for_choice left_chosen 0 b = Ok s' →
           remove_point_from_choice s' 0 = Ok left_chosen)
  ∧ (∀ s', remove_point_from_choice left_chosen 0 = Ok s' →
           use_point_for_choice s' 0 true = Ok left_chosen).
Proof.
  apply (use_and_remove_point_round_trip left_chosen 0). by_computation.
Defined.

(** X3: the number [fully_skill_choice] returns is the amount by which
    the points of the selection grew, and the selection then has a fully
    skilled choice; the number [unskill_choice] returns is the amount by
    which they shrank, and the choice then holds no point. *)
Theorem skill_and_unskill_report_the_change s i s' d :
  (∀ b, fully_skill_choice s i b = Ok (s', d) →
        sum (points_spent_by_choice_index s')
        = sum (points_spent_by_choice_index s) + d
        ∧ has_fully_skilled_choice s' = true)
  ∧ (unskill_choice s i = Ok (s', d) →
     sum (points_spent_by_choice_index s')
     = sum (points_spent_by_choice_index s) - d
     ∧ points_spent_by_choice_index s' !! Z.to_nat i = Some 0).
Proof.
  split.
  - intros b (p & choice & _ & Hp & Hc & -> & ->)%fully_skill_choice_inv.
    simpl. split; [rewrite (sum_insert _ _ p) by done; lia|].
    unfold has_fully_skilled_choice. simpl.
    apply bool_decide_eq_true_2, Exists_exists.
    exists (choice, max_points choice). split; [|done].
    apply (list_elem_of_lookup_2 _ (Z.to_nat i)), lookup_zip_with_Some.
    exists choice, (max_points choice). split_and!; [done..|].
    apply list_lookup_insert_eq. by eapply lookup_lt_Some.
  - intros (Hi & Hp & ->)%unskill_choice_inv. simpl.
    split; [rewrite (sum_insert _ _ d) by done; lia|].
    apply list_lookup_insert_eq. by eapply lookup_lt_Some.
Qed.

Lemma skill_and_unskill_report_the_change_witness :
  (sum [2; 0] = sum (points_spent_by_choice_index left_chosen) + 1
   ∧ has_fully_skilled_choice
       {| node_reference := choice_node;
          points_spent_by_choice_index := [2; 0] |} = true)
  ∧ (sum [0; 0] = sum (points_spent_by_choice_index left_chosen) - 1
     ∧ [0; 0] !! Z.to_nat 0 = Some 0).
Proof.
  split.
  - destruct (skill_and_unskill_report_the_change left_chosen 0
                {| node_reference := choice_node;
                   points_spent_by_choice_index := [2; 0] |} 1)
      as [Hfull _].
    apply (Hfull false). by vm_compute.
  - destruct (skill_and_unskill_report_the_change left_chosen 0
                {| node_reference := choice_node;
                   points_spent_by_choice_index := [0; 0] |} 1)
      as [_ Hun].
    apply Hun. by vm_compute.
Defined.

(** X4: the single-choice guard of [use_point_for_choice] looks at the
    selection before the point is added: on a selection that respects the
    rule, with points in one choice, a point for another choice is accepted
    without bypass, and the result violates the rule. *)
Theorem use_point_can_break_single_choice s (i j : nat) p choice :
  violates_single_choice_rule s = false →
  i ≠ j →
  points_spent_by_choice_index s !! i = Some p → 0 < p →
  points_spent_by_choice_index s !! j = Some 0 →
  choices (node_reference s) !! j = Some choice → 0 < max_points choice →
  ∃ s', use_point_for_choice s (Z.of_nat j) false = Ok s'
        ∧ violates_single_choice_rule s' = true.
Proof.
  intros Hv Hij Hi Hp Hj Hc Hmax.
  pose proof (lookup_lt_Some _ _ _ Hc). pose proof (lookup_lt_Some _ _ _ Hj).
  eexists. unfold use_point_for_choice.
  rewrite decide_False by lia. rewrite Hv. simpl.
  rewrite Nat2Z.id, Hj, Hc. rewrite decide_False by lia. split; [done|].
  unfold violates_single_choice_rule. simpl. apply bool_decide_eq_true_2.
  apply (filter_two _ _ i j p 1); [done| |by apply list_lookup_insert_eq|done|done].
  by rewrite list_lookup_insert_ne.
Qed.

Lemma use_point_can_break_single_choice_witness :
  ∃ s', use_point_for_choice left_chosen 1 false = Ok s'
        ∧ violates_single_choice_rule s' = true.
Proof.
  apply (use_point_can_break_single_choice left_chosen 0 1 1
           {| talent_name := "right"; max_points := 1 |});
    by_computation.
Defined.

(** ** Fresh, copied and seeded allocations *)

Lemma map_each_inv {A B} (f : A → result B) l ys :
  map_each f l = Ok ys → Forall2 (λ x y, f x = Ok y) l ys.
Proof.
  revert ys. induction l as [|x l IH]; intros ys; simpl.
  - intros [= <-]. constructor.
  - destruct (f x) as [y|] eqn:Hy; simpl; [|done].
    destruct (map_each f l) as [ys'|] eqn:Hys; simpl; [|done].
    intros [= <-]. constructor; [done|by apply IH].
Qed.

Lemma keyed_values t l keyed :
  map_each (λ n,
      node ← template_item t (node_id (node_reference n));
      Ok (sort_key node, n)) l = Ok keyed →
  keyed.*2 = l.
Proof.
  intros Hall%map_each_inv.
  induction Hall as [|n [k n'] l keyed Hn _ IH]; [done|].
  destruct (template_item _ _); simpl in Hn; [|done].
  injection Hn as _ <-. rewrite !fmap_cons. simpl. by rewrite IH.
Qed.

Lemma filter_none {A} (P : A → Prop) `{∀ x, Decision (P x)} l :
  Forall (λ x, ¬ P x) l → filter P l = [].
Proof.
  induction 1 as [|x l Hx _ IH]; [done|].
  by rewrite filter_cons_False.
Qed.

Lemma selection_to_talent_string_zero s :
  Forall (λ p, p = 0) (points_spent_by_choice_index s) →
  selection_to_talent_string s = "".
Proof.
  intros Hz. unfold selection_to_talent_string.
  rewrite filter_none; [done|].
  apply Forall_forall. intros [choice p] Hin%elem_of_zip_r. simpl.
  rewrite Forall_forall in Hz. rewrite (Hz p Hin). lia.
Qed.

Lemma to_talent_string_zero t str :
  Forall (λ item : string * PlayerTalentNodeSelection,
      Forall (λ p, p = 0) (points_spent_by_choice_index item.2))
    (_selection_by_node_id t) →
  to_talent_string t = Ok str → str = "".
Proof.
  intros Hz. unfold to_talent_string.
  destruct (map_each _ _) as [keyed|] eqn:Hk; simpl; [|done].
  intros [= <-]. apply keyed_values in Hk.
  rewrite filter_none; [done|].
  apply Forall_fmap.
  assert ((sorted String.leb fst keyed).*2
            ≡ₚ dict_values (_selection_by_node_id t)) as Hperm.
  { rewrite <- Hk. apply fmap_Permutation, sorted_Permutation. }
  rewrite Hperm. unfold dict_values. apply Forall_fmap.
  eapply Forall_impl; [exact Hz|]. intros [k s] Hs. simpl in *.
  intros Hne. by apply Hne, selection_to_talent_string_zero.
Qed.

(** X5: the constructor always returns; the allocation it returns holds no
    point, serializes to the empty string, and no removal from it is
    accepted. *)
Theorem new_tree_is_empty tpl budget :
  ∃ t,
    new_PlayerTalentTree tpl budget = Ok t
    ∧ get_total_points_spent t = 0
    ∧ get_total_points_available t = budget
    ∧ to_talent_string t = Ok ""
    ∧ ∀ nid c, can_node_be_decremented t nid c ≠ Ok true.
Proof.
  exists (fresh_tree tpl budget).
  pose proof (empty_selections_zero tpl) as Hz.
  split_and!; [apply new_PlayerTalentTree_Ok| |done| |].
  - unfold get_total_points_spent, dict_values. simpl.
    apply sum_all_zero, Forall_fmap, Forall_fmap.
    eapply Forall_impl; [exact Hz|]. intros [k s] Hs. simpl.
    by apply sum_all_zero.
  - destruct (to_talent_string_Ok _ (fresh_tree_wf tpl budget)) as [str Hstr].
    by rewrite (to_talent_string_zero (fresh_tree tpl budget) _ Hz Hstr)
      in Hstr.
  - intros nid c (s & Hs & (p & _ & Hp & Hpos)%elem_of_choice_indices)
      %can_node_be_decremented_true_inv.
    apply dict_get_elem_of in Hs. rewrite Forall_forall in Hz.
    specialize (Hz _ Hs). simpl in Hz. rewrite Forall_forall in Hz.
    rewrite (Hz p) in Hpos; [lia|]. by eapply list_elem_of_lookup_2.
Qed.

(** X6: on a well-formed allocation [copy] returns an allocation with the
    same template, budget, selections and gate totals. *)
Theorem copy_returns_equal_allocation t : wf_tree t → copy t = Ok t.
Proof. apply copy_Ok. Qed.

Lemma copy_returns_equal_allocation_witness : copy gated_tree = Ok gated_tree.
Proof. apply copy_returns_equal_allocation. by_computation. Defined.

(** The points after the inner loop of [skill_all_nodes] over the choices
    [n], [n+1], ... of a node. *)
Lemma skill_choices_exact except_for node cs (n : nat) pts spent pts' spent' :
  for_each (skill_choice except_for node) (enumerate_from (Z.of_nat n) cs)
    (pts, spent) = Ok (pts', spent') →
  (∀ j, (j < n)%nat → pts' !! j = pts !! j)
  ∧ ∀ j choice, cs !! j = Some choice →
      pts' !! (n + j)%nat
      = if decide ((node_id node, Z.of_nat (n + j)) ∈ except_for)
        then pts !! (n + j)%nat else Some (max_points choice).
Proof.
  revert n pts spent. induction cs as [|c cs IH]; intros n pts spent; simpl.
  - intros [= <- <-]. split; [done|]. by intros j choice.
  - destruct (skill_choice _ _ _ _) as [[pts1 spent1]|] eqn:H1; simpl; [|done].
    replace (Z.of_nat n + 1) with (Z.of_nat (S n)) by lia.
    intros [Hlow Hhigh]%IH.
    assert ((((node_id node, Z.of_nat n) ∈ except_for) ∧ pts1 = pts)
            ∨ (((node_id node, Z.of_nat n) ∉ except_for)
               ∧ (n < length pts)%nat
               ∧ pts1 = <[n := max_points c]> pts)) as Hstep.
    { unfold skill_choice in H1. simpl in H1. case_bool_decide.
      - left. by simplify_eq.
      - right. rewrite Nat2Z.id in H1. case_decide; [|done]. by simplify_eq. }
    split.
    + intros j Hj. rewrite Hlow by lia.
      destruct Hstep as [[_ ->]|(_ & _ & ->)]; [done|].
      rewrite list_lookup_insert_ne by lia. done.
    + intros [|j] choice Hc; simpl in Hc.
      * injection Hc as ->. rewrite Nat.add_0_r, Hlow by lia.
        destruct Hstep as [[? ->]|(? & ? & ->)].
        -- by rewrite decide_True.
        -- rewrite decide_False by done. by apply list_lookup_insert_eq.
      * replace (n + S j)%nat with (S n + j)%nat by lia.
        rewrite (Hhigh _ _ Hc). case_decide; [|done].
        destruct Hstep as [[_ ->]|(_ & _ & ->)]; [done|].
        rewrite list_lookup_insert_ne by lia. done.
Qed.

Lemma skill_selections_exact except_for d spent d' spent' :
  skill_selections except_for d spent = Ok (d', spent') →
  Forall2 (skilled except_for) d d'.
Proof.
  revert spent d' spent'.
  induction d as [|[k s] d IH]; intros spent d' spent'; simpl.
  - intros [= <- <-]. constructor.
  - destruct (for_each _ _ _) as [[pts1 spent1]|] eqn:H1; simpl; [|done].
    destruct (skill_selections _ _ _) as [[rest spent2]|] eqn:H2;
      simpl; [|done].
    intros [= <- <-]. constructor; [|by eapply IH].
    split_and!; [done..|]. simpl. intros j choice Hc.
    apply (skill_choices_exact _ _ _ 0%nat) in H1 as [_ Hhigh].
    by apply Hhigh.
Qed.

(** X7: seeding a freshly constructed allocation always returns, and gives
    every choice that is not on the block list all of its points and every
    blocked choice none. *)
Theorem seed_is_fully_skilled (tpl : TalentTree) (budget : Z)
    (except_for : gset (string * Z)) :
  ∃ t0 t,
    new_PlayerTalentTree tpl budget = Ok t0
    ∧ skill_all_nodes t0 except_for = Ok t
    ∧ dict_keys (_selection_by_node_id t) = dict_keys (_selection_by_node_id t0)
    ∧ ∀ nid s (j : nat) choice,
        dict_get nid (_selection_by_node_id t) = Some s →
        choices (node_reference s) !! j = Some choice →
        points_spent_by_choice_index s !! j
        = Some (if decide ((node_id (node_reference s), Z.of_nat j)
                           ∈ except_for)
                then 0 else max_points choice).
Proof.
  destruct (seed_tree_spec tpl budget except_for) as (t & Hskill & _).
  exists (fresh_tree tpl budget), t.
  split_and!; [apply new_PlayerTalentTree_Ok|done| |].
  - destruct (skill_all_nodes_spec (fresh_tree tpl budget) except_for)
      as (t' & Ht' & _ & _ & _ & Hshape & _);
      [apply fresh_tree_wf|apply fresh_tree_unblocked_zero|].
    rewrite Hskill in Ht'. injection Ht' as <-.
    by apply same_shape_keys.
  - intros nid s j choice Hs Hc. apply dict_get_elem_of in Hs.
    unfold skill_all_nodes in Hskill.
    destruct (skill_selections _ _ _) as [[d' spent']|] eqn:Hsel;
      simpl in Hskill; [|done].
    injection Hskill as <-. simpl in Hs.
    apply skill_selections_exact in Hsel.
    apply list_elem_of_lookup in Hs as [i Hi].
    destruct (Forall2_lookup_r _ _ _ _ _ Hsel Hi)
      as ([k0 s0] & H0 & _ & Href & Hpts).
    simpl in *. rewrite Href in Hc. rewrite (Hpts _ _ Hc), Href.
    case_decide; [|done].
    pose proof (empty_selections_zero tpl) as Hz.
    rewrite Forall_forall in Hz.
    specialize (Hz _ (list_elem_of_lookup_2 _ _ _ H0)). simpl in Hz.
    pose proof (fresh_tree_wf tpl budget) as (_ & _ & Hok).
    rewrite Forall_forall in Hok.
    destruct (Hok _ (list_elem_of_lookup_2 _ _ _ H0)) as (_ & _ & Hlen).
    simpl in Hlen.
    destruct (lookup_lt_is_Some_2 (points_spent_by_choice_index s0) j)
      as [p Hp]; [rewrite Hlen; by eapply lookup_lt_Some|].
    rewrite Hp. f_equal. rewrite Forall_forall in Hz. apply Hz.
    by eapply list_elem_of_lookup_2.
Qed.

(** X8: [decrement_node] returns exactly when the node id is known, the
    choice index is in range and the choice holds a point; it raises
    [KeyError] for an unknown node id and [ValueError] for a choice index
    out of range or a choice without points. *)
Theorem decrement_node_succeeds_iff t nid c :
  ((∃ t', decrement_node t nid c = Ok t')
   ↔ ∃ s p, dict_get nid (_selection_by_node_id t) = Some s
            ∧ 0 ≤ c < Z.of_nat (length (choices (node_reference s)))
            ∧ points_spent_by_choice_index s !! Z.to_nat c = Some p
            ∧ 0 < p)
  ∧ (dict_get nid (_selection_by_node_id t) = None →
     decrement_node t nid c = Raise KeyError)
  ∧ (∀ s, dict_get nid (_selection_by_node_id t) = Some s →
          c < 0 ∨ Z.of_nat (length (choices (node_reference s))) ≤ c
          ∨ (∃ p, points_spent_by_choice_index s !! Z.to_nat c = Some p
                  ∧ p ≤ 0) →
          decrement_node t nid c = Raise ValueError).
Proof.
  split_and!.
  - split.
    + intros [t' (s & p & ? & ? & ? & ? & _)%decrement_node_inv]. by exists s, p.
    + intros (s & p & Hs & Hc & Hp & Hpos). eexists.
      by apply (decrement_node_Ok _ _ _ s p).
  - intros Hs. unfold decrement_node, dict_item. by rewrite Hs.
  - intros s Hs Hbad. unfold decrement_node, dict_item. rewrite Hs. simpl.
    unfold remove_point_from_choice.
    case_decide as Hr; [done|].
    destruct Hbad as [?|[?|(p & Hp & Hle)]]; [lia..|].
    rewrite Hp. simpl. by rewrite decide_True.
Qed.

Lemma decrement_node_succeeds_iff_witness :
  decrement_node gated_tree "zz" 0 = Raise KeyError
  ∧ decrement_node gated_tree "a" 7 = Raise ValueError.
Proof.
  split.
  - destruct (decrement_node_succeeds_iff gated_tree "zz" 0)
      as (_ & Hunknown & _).
    apply Hunknown. by vm_compute.
  - destruct (decrement_node_succeeds_iff gated_tree "a" 7)
      as (_ & _ & Hrange).
    apply (Hrange {| node_reference := one_choice "a" 3 0 [] ["b"];
                     points_spent_by_choice_index := [3] |});
      [by vm_compute|right; left; by_computation].
Defined.

(** ** What an accepted removal preserves *)

(** What the legality check has established when it answers true. *)
Lemma can_node_be_decremented_true_parts t nid c :
  can_node_be_decremented t nid c = Ok true →
  ∃ s template_node,
    dict_get nid (_selection_by_node_id t) = Some s
    ∧ c ∈ get_choice_indices_with_points s
    ∧ template_item t nid = Ok template_node
    ∧ for_each (check_child t nid (violates_single_choice_rule s))
        (child_nodes template_node) tt = Ok tt
    ∧ gate_scan (_spent_points_by_gate t) (gate_id (node_reference s))
        (sorted Z.leb Gate.gate_id (gates (gate_info (_tree_template t)))) 0
      = Ok tt.
Proof.
  intros Hcan.
  destruct (can_node_be_decremented_true_inv _ _ _ Hcan) as (s & Hs & Hc).
  unfold can_node_be_decremented in Hcan.
  rewrite (can_node_be_decremented_body_known _ _ _ _ Hs) in Hcan.
  destruct (negb _); [done|]. case_decide; [done|].
  destruct (template_item t nid) as [template_node|] eqn:Htpl;
    simpl in Hcan; [|by destruct e].
  destruct (for_each _ _ _) as [[]|] eqn:Hchildren;
    simpl in Hcan; [|by destruct e].
  destruct (gate_scan _ _ _ _) as [[]|] eqn:Hscan; [|by destruct e].
  by exists s, template_node.
Qed.

Lemma gate_scan_Ok_inv spent g gs running pre gate post :
  gate_scan spent g gs running = Ok tt →
  gs = pre ++ gate :: post →
  Gate.gate_id gate > g →
  Gate.points_required_below gate < running + scanned spent pre.
Proof.
  revert running pre.
  induction gs as [|x gs IH]; intros running pre Hscan Hsplit Hid.
  { by destruct pre. }
  simpl in Hscan. case_decide as Hraise; [done|].
  destruct pre as [|y pre]; simplify_eq/=.
  - unfold scanned. simpl. lia.
  - specialize (IH _ pre Hscan eq_refl Hid).
    unfold scanned in *. rewrite fmap_cons, sum_cons. lia.
Qed.

Lemma decrement_result_committed_below t nid s i p h :
  dict_get nid (_selection_by_node_id t) = Some s →
  points_spent_by_choice_index s !! i = Some p →
  points_committed_below (decrement_result t nid s i p) h
  = points_committed_below t h
    + (if decide (gate_id (node_reference s) < h) then -1 else 0).
Proof.
  intros Hs Hp. unfold points_committed_below. simpl.
  destruct (dict_get_split _ _ _ Hs) as (d1 & d2 & -> & _ & ->).
  unfold dict_values. rewrite !fmap_app, !fmap_cons, !sum_app, !sum_cons.
  simpl.
  case_decide; [|lia]. rewrite (sum_insert _ _ p) by done. lia.
Qed.

Lemma gates_ok_same_shape t t' :
  gates_ok t →
  _tree_template t' = _tree_template t →
  same_shape (_selection_by_node_id t) (_selection_by_node_id t') →
  gates_ok t'.
Proof.
  intros [Hnd Hall] Htpl Hshape. unfold gates_ok. rewrite Htpl.
  split; [done|].
  induction Hshape as [|x y d d' (_ & Href & _) _ IH]; [constructor|].
  apply Forall_cons in Hall as [Hx Hall].
  constructor; [by rewrite <- Href|by apply IH].
Qed.

Lemma check_children_Ok_inv t nid children child cs :
  for_each (check_child t nid false) children tt = Ok tt →
  child ∈ children →
  dict_get child (_selection_by_node_id t) = Some cs →
  holds_talent_points cs = true →
  has_valid_parent t nid (parent_nodes (node_reference cs)) = Ok true.
Proof.
  intros Hall Hin Hcs Hholds.
  induction children as [|x children IH]; [by apply elem_of_nil in Hin|].
  simpl in Hall.
  destruct (check_child t nid false x tt) as [[]|] eqn:Hx;
    simpl in Hall; [|done].
  apply elem_of_cons in Hin as [<-|Hin]; [|by apply IH].
  unfold check_child, dict_item in Hx. rewrite Hcs in Hx. simpl in Hx.
  rewrite Hholds in Hx.
  destruct (has_valid_parent _ _ _) as [[]|]; simpl in Hx; done.
Qed.

Lemma accepted_decrement_thresholds t nid c :
  wf_tree t → gates_ok t → gate_totals_consistent t → thresholds_met t →
  can_node_be_decremented t nid c = Ok true →
  ∃ t', decrement_node t nid c = Ok t'
        ∧ wf_tree t' ∧ gates_ok t' ∧ gate_totals_consistent t'
        ∧ thresholds_met t'
        ∧ _tree_template t' = _tree_template t
        ∧ _max_points_available t' = _max_points_available t.
Proof.
  intros Hwf Hok Hcons Hmet Hcan.
  destruct (can_node_be_decremented_true_parts _ _ _ Hcan)
    as (s & _ & Hs & (p & Hc & Hp & Hpos)%elem_of_choice_indices & _ & _
        & Hscan).
  destruct (wf_tree_lookup _ _ _ Hwf Hs) as (_ & _ & Hlen). simpl in Hlen.
  pose proof (lookup_lt_Some _ _ _ Hp) as Hlt.
  assert (decrement_node t nid c
          = Ok (decrement_result t nid s (Z.to_nat c) p)) as Hdec.
  { apply decrement_node_Ok; [done|lia|done..]. }
  eexists. split_and!; [done|by eapply decrement_node_wf| |
                        by eapply decrement_node_consistent| |done..].
  - eapply gates_ok_same_shape; [done..|].
    by apply decrement_result_same_shape.
  - unfold thresholds_met in *. simpl.
    rewrite Forall_forall in Hmet. apply Forall_forall. intros gate Hgate.
    rewrite (decrement_result_committed_below _ _ _ _ _ _ Hs Hp).
    case_decide as Hbelow; [|specialize (Hmet _ Hgate); lia].
    pose proof Hgate as Hin.
    rewrite <-(sorted_Permutation Z.leb Gate.gate_id) in Hin.
    apply list_elem_of_split in Hin as (pre & post & Hsplit).
    pose proof (gate_scan_Ok_inv _ _ _ _ pre gate post Hscan Hsplit
                  ltac:(lia)) as Hthr.
    rewrite (scanned_committed_below t pre gate post) in Hthr by done.
    lia.
Qed.



(** X10: removing an accepted point from a node that does not violate the
    single-choice rule strands no node: if every parent lists its children
    and every node that holds points has no parent or a parent with a fully
    skilled choice, the same is true after the removal. *)
Theorem accepted_removal_keeps_support t nid c s :
  wf_tree t → mirrored t → supported t →
  dict_get nid (_selection_by_node_id t) = Some s →
  violates_single_choice_rule s = false →
  can_node_be_decremented t nid c = Ok true →
  ∃ t', decrement_node t nid c = Ok t' ∧ mirrored t' ∧ supported t'.
Proof.
  intros Hwf Hmir Hsup Hs Hv Hcan.
  destruct (can_node_be_decremented_true_parts _ _ _ Hcan)
    as (s' & template_node & Hs' & (p & Hc & Hp & Hpos)%elem_of_choice_indices
        & Htpl & Hchildren & _).
  assert (s' = s) as -> by congruence.
  rewrite (wf_tree_template_item _ _ _ Hwf Hs) in Htpl.
  injection Htpl as <-. rewrite Hv in Hchildren.
  destruct (wf_tree_lookup _ _ _ Hwf Hs) as (_ & _ & Hlen). simpl in Hlen.
  pose proof (lookup_lt_Some _ _ _ Hp) as Hlt.
  assert (decrement_node t nid c
          = Ok (decrement_result t nid s (Z.to_nat c) p)) as Hdec.
  { apply decrement_node_Ok; [done|lia|done..]. }
  exists (decrement_result t nid s (Z.to_nat c) p). split; [done|].
  pose proof (wf_tree_NoDup _ (decrement_node_wf _ _ _ _ Hwf Hdec)) as Hnd'.
  unfold supported, mirrored in Hsup, Hmir.
  rewrite Forall_forall in Hsup. rewrite Forall_forall in Hmir.
  assert (∀ r, r ≠ nid → fully_skilled t r →
               fully_skilled (decrement_result t nid s (Z.to_nat c) p) r)
    as Hfull.
  { intros r Hr. unfold fully_skilled. simpl.
    by rewrite dict_get_set, decide_False. }
  assert (∀ x sx, dict_get x (_selection_by_node_id t) = Some sx →
            holds_talent_points sx = true →
            parent_nodes (node_reference sx) = []
            ∨ ∃ r, r ∈ parent_nodes (node_reference sx) ∧ r ≠ nid
                   ∧ fully_skilled t r) as Hother.
  { intros x sx Hx Hholds.
    destruct (Hsup _ (dict_get_elem_of _ _ _ Hx) Hholds)
      as [?|(r & Hr & Hfr)%Exists_exists]; [by left|right].
    destruct (decide (r = nid)) as [->|Hne]; [|by exists r].
    pose proof (Hmir _ (dict_get_elem_of _ _ _ Hx)) as Hparents.
    rewrite Forall_forall in Hparents. specialize (Hparents _ Hr).
    simpl in Hparents. rewrite Hs in Hparents. simpl in Hparents.
    pose proof (check_children_Ok_inv _ _ _ _ _ Hchildren Hparents Hx Hholds)
      as (r' & ps & Hr' & Hne' & Hps & Hfull')%has_valid_parent_true.
    exists r'. split_and!; [done..|].
    unfold fully_skilled. by rewrite Hps, <- Hfull'. }
  split.
  - apply Forall_forall. intros [k sk'] Hin.
    apply elem_of_dict_get in Hin; [|done]. simpl in Hin.
    rewrite dict_get_set in Hin.
    assert (∃ sk, dict_get k (_selection_by_node_id t) = Some sk
                  ∧ node_reference sk' = node_reference sk)
      as (sk & Hk & Href).
    { case_decide; simplify_eq; by eexists. }
    pose proof (Hmir _ (dict_get_elem_of _ _ _ Hk)) as Hparents.
    simpl in *. rewrite Href. eapply Forall_impl; [exact Hparents|].
    intros r Hr. simpl in *. rewrite dict_get_set.
    destruct (decide (nid = r)) as [<-|?]; [|done]. by rewrite Hs in Hr.
  - apply Forall_forall. intros [k sk'] Hin Hholds.
    apply elem_of_dict_get in Hin; [|done]. simpl in Hin, Hholds.
    rewrite dict_get_set in Hin.
    assert (parent_nodes (node_reference sk') = []
            ∨ ∃ r, r ∈ parent_nodes (node_reference sk') ∧ r ≠ nid
                   ∧ fully_skilled t r) as [?|(r & Hr & Hne & Hfr)].
    { case_decide; simplify_eq.
      - apply (Hother _ _ Hs).
        apply (holds_talent_points_true s (Z.to_nat c) p); [done|lia].
      - by apply (Hother k). }
    + by left.
    + right. apply Exists_exists. exists r. split; [done|]. by apply Hfull.
Qed.

Lemma accepted_removal_keeps_support_witness :
  ∃ t', decrement_node diamond_tree "a" 0 = Ok t' ∧ mirrored t' ∧ supported t'.
Proof.
  apply (accepted_removal_keeps_support diamond_tree "a" 0
           {| node_reference := one_choice "a" 1 0 [] ["b"];
              points_spent_by_choice_index := [1] |});
    by_computation.
Defined.

(** ** The state changes of the search loop *)

Section update_facts.
Context `{Runtime}.
Context (config : BeamSearchConfig) (player : Player)
        (locked : LockedTalentTrees).

Local Abbreviation step := (rtc (update config)).

Lemma explore_updates tree nc st e :
  tree ∈ beam st →
  can_node_be_decremented tree nc.1 nc.2 = Ok true →
  post (λ st' e', step (st, sim_log e) (st', sim_log e')
                  ∧ beam st' = beam st)
       (λ _, True)
       (explore player locked tree nc st e).
Proof.
  intros Htree Hcan. unfold explore.
  destruct (copy tree) as [t1|] eqn:Hcopy;
    [rewrite bind_lift_Ok|by rewrite bind_lift_Raise].
  destruct (decrement_node t1 nc.1 nc.2) as [new_tree|] eqn:Hdec;
    [rewrite bind_lift_Ok|by rewrite bind_lift_Raise].
  destruct (to_talent_string new_tree) as [s|] eqn:Hs;
    [rewrite bind_lift_Ok|by rewrite bind_lift_Raise].
  case_decide as Hknown; [done|].
  apply eq_None_not_Some in Hknown.
  destruct (_make_talents_record locked None (Some (TreeProvider new_tree))
              None) as [r|] eqn:Hr;
    [rewrite bind_lift_Ok|by rewrite bind_lift_Raise].
  apply _make_talents_record_inv in Hr as [_ Hr].
  rewrite M_bind_unfold.
  destruct (_run_sim_spec player r e) as (input & out & w & -> & Hinput).
  assert (submitted input = Ok s) as Hsub.
  { unfold submitted. by rewrite Hinput, Hr. }
  destruct out as [out|]; simpl.
  - assert (update config (st, sim_log e)
              (record_new s new_tree (dps out) st,
               sim_log e ++ [(input, Some out)])) as Hnew
      by by eapply update_new.
    destruct (float_lt _ _ && bool_decide _) eqn:Hbest; simpl.
    + split; [|done]. eapply rtc_l; [exact Hnew|]. apply rtc_once.
      apply andb_prop in Hbest as [_ Hvalid%bool_decide_eq_true_1].
      eapply (update_best _ _ _ _ s); [|done..|].
      * simpl. apply elem_of_app. right. by apply list_elem_of_singleton.
      * simpl. apply lookup_insert_eq.
    + split; [|done]. by apply rtc_once.
  - split; [|done]. apply rtc_once. apply update_failed.
Qed.

Lemma visit_updates tree st e :
  tree ∈ beam st →
  post (λ st' e', step (st, sim_log e) (st', sim_log e')
                  ∧ beam st' = beam st)
       (λ _, True)
       (visit config player locked tree st e).
Proof.
  intros Htree. unfold visit. case_decide as Hvalid.
  - destruct (to_talent_string tree) as [s|] eqn:Hs;
      [rewrite bind_lift_Ok|by rewrite bind_lift_Raise].
    destruct (dps_by_talent_str st !! s) as [d|] eqn:Hd; [|done].
    assert (update config (st, sim_log e)
              (add_candidate tree d st, sim_log e)) as Hkeep
      by by eapply update_keep.
    destruct (float_lt _ _); simpl.
    + split; [|done]. eapply rtc_l; [exact Hkeep|]. apply rtc_once.
      eapply (update_best _ _ _ _ s); [|done..].
      simpl. apply elem_of_app. right. by apply list_elem_of_singleton.
    + split; [|done]. by apply rtc_once.
  - eapply post_bind with (I := λ l e',
        sim_log e' = sim_log e
        ∧ ∀ x, x ∈ l → can_node_be_decremented tree x.1 x.2 = Ok true).
    { eapply post_impl; [apply find_nodes_to_decrement_sound|done..]. }
    intros l e1 [Hlog1 Hl]. rewrite bind_shuffled.
    apply for_each_M_post.
    { simpl. by rewrite Hlog1. }
    intros nc st' e' Hnc%slice_to_subseteq [Hstep Hbeam].
    eapply post_impl;
      [apply explore_updates; [by rewrite Hbeam|]|simpl|done].
    + apply Hl. by rewrite <-(shuffle_perm _ l (world e1)).
    + intros st'' e'' [Hstep' Hbeam']. split; [|congruence].
      by etrans.
Qed.

Lemma iterate_updates st e :
  post (λ r e', step (st, sim_log e) (r.1, sim_log e'))
       (λ _, True)
       (iterate config player locked st e).
Proof.
  unfold iterate. fold (begin_iteration st).
  eapply post_bind with (I := λ st' e',
      step (st, sim_log e) (st', sim_log e')
      ∧ beam st' = beam (begin_iteration st)).
  { apply for_each_M_post.
    - split; [|done]. apply rtc_once, update_begin.
    - intros tree st' e' Htree [Hstep Hbeam].
      eapply post_impl; [apply visit_updates; by rewrite Hbeam|simpl|done].
      intros st'' e'' [Hstep' Hbeam']. split; [by etrans|].
      by rewrite Hbeam'. }
  intros st' e' [Hstep _]. destruct (negb _); [done|].
  destruct (map_each _ _); [rewrite bind_lift_Ok|by rewrite bind_lift_Raise].
  simpl. eapply rtc_r; [exact Hstep|]. apply update_select.
Qed.

Lemma while_beam_updates fuel st e :
  post (λ r e', ∀ st', r = Some st' → step (st, sim_log e) (st', sim_log e'))
       (λ _, True)
       (while_beam config player locked fuel st e).
Proof.
  revert st e. induction fuel as [|fuel IH]; intros st e; simpl.
  - case_decide; simpl; [|done]. by intros st' [= <-].
  - case_decide; simpl; [by intros st' [= <-]|].
    eapply post_bind; [apply iterate_updates|].
    intros [st1 b] e1 Hstep. simpl in *. destruct b.
    + eapply post_impl; [apply IH|simpl|done].
      intros r e2 Hr st' ->. etrans; [exact Hstep|]. by apply Hr.
    + simpl. by intros st' [= <-].
Qed.

(** *** What the changes preserve *)

Lemma update_grows x y :
  update config x y →
  dps_by_talent_str x.1 ⊆ dps_by_talent_str y.1 ∧ x.2 `prefix_of` y.2.
Proof.
  destruct 1; simpl; split; try done; try (by apply prefix_app_r).
  by apply insert_subseteq.
Qed.

Lemma step_grows x y :
  step x y →
  dps_by_talent_str x.1 ⊆ dps_by_talent_str y.1 ∧ x.2 `prefix_of` y.2.
Proof.
  induction 1 as [|x y z Hxy _ [IH1 IH2]]; [done|].
  destruct (update_grows _ _ Hxy). split; by etrans.
Qed.

Lemma memo_from_log_app memo log log' :
  memo_from_log memo log → memo_from_log memo (log ++ log').
Proof.
  intros Hm s d (input & out & Hin & ?)%Hm. exists input, out.
  split; [|done]. apply elem_of_app. by left.
Qed.

Lemma update_sound x y :
  update config x y →
  memo_from_log (dps_by_talent_str x.1) x.2 ∧ best_is_evaluated x.1 →
  memo_from_log (dps_by_talent_str y.1) y.2 ∧ best_is_evaluated y.1.
Proof.
  destruct 1 as [st log|st log tree s d| st log tree s d _ Hvalid Hs Hd
                 |st log input
                 |st log tree nc t1 new_tree s input out _ _ _ _ Hs Hd Hsub
                 |st log]; simpl; intros [Hmemo Hbest]; try done.
  - split; [done|]. unfold best_is_evaluated. simpl. by eauto.
  - split; [|done]. by apply memo_from_log_app.
  - split.
    + intros s' d'. rewrite lookup_insert_Some.
      intros [[<- <-]|[_ Hs']].
      * exists input, out. split_and!; [|done..].
        apply elem_of_app. right. by apply list_elem_of_singleton.
      * by apply (memo_from_log_app _ _ _ Hmemo).
    + unfold best_is_evaluated in *. simpl.
      destruct (best_tree_so_far st) as [t|]; [|done].
      destruct Hbest as (? & s' & ? & Hbest). split; [done|].
      exists s'. split; [done|]. rewrite lookup_insert_ne; [done|].
      intros <-. congruence.
Qed.

Lemma step_sound x y :
  step x y →
  memo_from_log (dps_by_talent_str x.1) x.2 ∧ best_is_evaluated x.1 →
  memo_from_log (dps_by_talent_str y.1) y.2 ∧ best_is_evaluated y.1.
Proof.
  induction 1 as [|x y z Hxy _ IH]; [done|].
  intros Hx. by apply IH, (update_sound _ _ Hxy).
Qed.

Lemma update_all_trees (P : PlayerTalentTree → Prop) x y :
  (∀ tree nid c t1 new_tree,
     P tree →
     can_node_be_decremented tree nid c = Ok true →
     copy tree = Ok t1 →
     decrement_node t1 nid c = Ok new_tree →
     P new_tree) →
  update config x y → all_trees P x.1 → all_trees P y.1.
Proof.
  intros HP.
  destruct 1 as [st log|st log tree s d Htree _ _ _
                 |st log tree s d Htree _ _ _
                 |st log input
                 |st log tree nc t1 new_tree s input out Htree Hcan Hcopy Hdec
                    _ _ _
                 |st log]; simpl; intros (Hbeam & Hcands & Hbest);
    unfold all_trees; simpl; try done.
  - split_and!; [done| |done]. apply Forall_app. split; [done|].
    apply Forall_singleton. simpl. rewrite Forall_forall in Hbeam. auto.
  - split_and!; [done..|]. rewrite Forall_forall in Hcands.
    apply (Hcands _ Htree).
  - split_and!; [done| |done]. apply Forall_app. split; [done|].
    apply Forall_singleton. simpl. rewrite Forall_forall in Hbeam.
    by eapply (HP tree), Hdec; [apply Hbeam|..].
  - assert (Forall (λ c : PlayerTalentTree * float, P c.1)
              (sorted (λ a b, negb (float_lt a b)) snd (candidates st)))
      as Hsorted by by rewrite sorted_Permutation.
    split_and!; [|done..]. apply Forall_fmap.
    apply Forall_forall. intros c Hc%slice_to_subseteq.
    rewrite Forall_forall in Hsorted. by apply Hsorted.
Qed.

Lemma step_all_trees (P : PlayerTalentTree → Prop) x y :
  (∀ tree nid c t1 new_tree,
     P tree →
     can_node_be_decremented tree nid c = Ok true →
     copy tree = Ok t1 →
     decrement_node t1 nid c = Ok new_tree →
     P new_tree) →
  step x y → all_trees P x.1 → all_trees P y.1.
Proof.
  intros HP. induction 1 as [|x y z Hxy _ IH]; [done|].
  intros Hx. by apply IH, (update_all_trees P _ _ HP Hxy).
Qed.

Lemma update_width (n : nat) x y :
  0 ≤ beam_width config →
  update config x y →
  (length (beam x.1) ≤ n `max` Z.to_nat (beam_width config))%nat →
  (length (beam y.1) ≤ n `max` Z.to_nat (beam_width config))%nat.
Proof.
  intros Hw. destruct 1; simpl; try done. intros _.
  rewrite length_fmap. unfold slice_to. rewrite decide_True by done.
  rewrite length_take. lia.
Qed.

Lemma step_width (n : nat) x y :
  0 ≤ beam_width config →
  step x y →
  (length (beam x.1) ≤ n `max` Z.to_nat (beam_width config))%nat →
  (length (beam y.1) ≤ n `max` Z.to_nat (beam_width config))%nat.
Proof.
  intros Hw. induction 1 as [|x y z Hxy _ IH]; [done|].
  intros Hx. by apply IH, (update_width _ _ _ Hw Hxy).
Qed.

(** *** The seed and the whole search *)

Lemma seed_search_inv forest block e st e' :
  seed_search forest player locked block e = (Ok st, e') →
  ∃ budget tree s input out,
    get_available_spec_talent_points player = Ok budget
    ∧ skill_all_nodes (fresh_tree (spec_tree forest) budget)
        (blocked_spec_talents block) = Ok tree
    ∧ locked_ok locked
    ∧ to_talent_string tree = Ok s
    ∧ submitted input = Ok s
    ∧ sim_log e' = sim_log e ++ [(input, Some out)]
    ∧ st = initial_locals tree s (dps out).
Proof.
  unfold seed_search.
  destruct (get_available_spec_talent_points player) as [budget|] eqn:Hbudget;
    [rewrite bind_lift_Ok|by rewrite bind_lift_Raise].
  rewrite new_PlayerTalentTree_Ok, bind_lift_Ok.
  destruct (skill_all_nodes _ _) as [tree|] eqn:Hskill;
    [rewrite bind_lift_Ok|by rewrite bind_lift_Raise].
  destruct (_make_talents_record locked None (Some (TreeProvider tree)) None)
    as [r|] eqn:Hr; [rewrite bind_lift_Ok|by rewrite bind_lift_Raise].
  apply _make_talents_record_inv in Hr as [Hlocked Hr].
  rewrite M_bind_unfold.
  destruct (_run_sim_spec player r e) as (input & out & w & -> & Hinput).
  destruct out as [out|]; [|done].
  destruct (to_talent_string tree) as [s|] eqn:Hs;
    [rewrite bind_lift_Ok|by rewrite bind_lift_Raise].
  intros [= <- <-]. exists budget, tree, s, input, out.
  split_and!; [done..| |done|done]. unfold submitted. by rewrite Hinput, Hr.
Qed.

Lemma initial_locals_sound tree s input out log :
  submitted input = Ok s →
  memo_from_log (dps_by_talent_str (initial_locals tree s (dps out)))
    (log ++ [(input, Some out)])
  ∧ best_is_evaluated (initial_locals tree s (dps out)).
Proof.
  intros Hsub. split; [|done]. intros s' d'. simpl.
  intros [<- <-]%lookup_singleton_Some. exists input, out.
  split_and!; [|done..]. apply elem_of_app. right.
  by apply list_elem_of_singleton.
Qed.
End update_facts.

Section search_result_facts.
Context `{Runtime}.

Lemma beam_search_inv fuel config forest player locked block e res e' :
  beam_search_optimal_talents fuel config forest player locked block e
  = (Ok (Some res), e') →
  ∃ st0 e0 st,
    seed_search forest player (default no_locked_trees locked)
      (default {| blocked_spec_talents := ∅ |} block) e = (Ok st0, e0)
    ∧ while_beam config player (default no_locked_trees locked) fuel st0 e0
      = (Ok (Some st), e')
    ∧ res = search_result (default no_locked_trees locked) st.
Proof.
  unfold beam_search_optimal_talents. cbv zeta. rewrite M_bind_unfold.
  destruct (seed_search _ _ _ _ e) as [[st0|] e0]; [|done].
  rewrite M_bind_unfold.
  destruct (while_beam _ _ _ _ _ e0) as [[[st|]|] e1] eqn:Hloop; [|done..].
  intros [= <- <-]. by exists st0, e0, st.
Qed.
End search_result_facts.

(** ** What the search returns *)

Lemma Some_eta {A} (d : A) (o : option A) :
  is_Some o → o = Some (default d o).
Proof. by intros [a ->]. Qed.

Lemma returned_some_eta {A B} (d : A) (p : result (option A) * B) :
  is_Some (returned p.1 ≫= id) →
  p = (Ok (Some (match p.1 with Ok (Some a) => a | _ => d end)), p.2).
Proof. destruct p as [[[a|]|x] b]; simpl; by intros [? ?]. Qed.

(** X11: when the search returns a best tree, that tree is within budget
    and the best DPS returned is the DPS a simulator invocation reported
    for the canonical string of that tree; when it returns no best tree,
    the best DPS returned is zero. *)
Theorem reported_dps_was_simulated `{Runtime}
    fuel config forest player locked block e res e' :
  beam_search_optimal_talents fuel config forest player locked block e
  = (Ok (Some res), e') →
  match best_tree_result res with
  | Some best =>
      ∃ t s input out,
        best_spec_tree_result best = TreeProvider t
        ∧ get_total_points_spent t ≤ get_total_points_available t
        ∧ to_talent_string t = Ok s
        ∧ (input, Some out) ∈ sim_log e'
        ∧ submitted input = Ok s
        ∧ dps out = result_best_dps res
  | None => result_best_dps res = float_zero
  end.
Proof.
  intros (st0 & e0 & st & Hseed & Hloop & ->)%beam_search_inv.
  apply seed_search_inv in Hseed
    as (budget & tree & s0 & input0 & out0 & _ & _ & [[c Hc] [h Hh]] & _
        & Hsub & Hlog0 & ->).
  pose proof (while_beam_updates config player (default no_locked_trees locked)
                fuel (initial_locals tree s0 (dps out0)) e0) as Hstep.
  rewrite Hloop in Hstep. simpl in Hstep. specialize (Hstep _ eq_refl).
  apply step_sound in Hstep as [Hmemo Hbest].
  2: { rewrite Hlog0. by apply initial_locals_sound. }
  simpl in *. rewrite Hc, Hh. unfold best_is_evaluated in Hbest.
  destruct (best_tree_so_far st) as [t|]; [|done].
  destruct Hbest as (Hvalid & s & Hs & (input & out & ? & ? & ?)%Hmemo).
  by exists t, s, input, out.
Qed.

Lemma reported_dps_was_simulated_witness :
  match best_tree_result pair_result with
  | Some best =>
      ∃ t s input out,
        best_spec_tree_result best = TreeProvider t
        ∧ get_total_points_spent t ≤ get_total_points_available t
        ∧ to_talent_string t = Ok s
        ∧ (input, Some out) ∈ sim_log pair_search.2
        ∧ submitted input = Ok s
        ∧ dps out = result_best_dps pair_result
  | None => result_best_dps pair_result = float_zero
  end.
Proof.
  apply (reported_dps_was_simulated (H := runtime) 3 default_config pair_forest
           player80 (Some locked_trees) (Some no_blocks)
           (start (H := runtime) ())).
  apply (returned_some_eta (search_result locked_trees pair_st0) pair_search).
  by_computation.
Defined.

(** X12: over the whole loop the memo table only grows, no memoized value
    is overwritten, and the simulator log is only extended. *)
Theorem memo_and_log_only_grow `{Runtime}
    config player locked fuel st e st' e' :
  while_beam config player locked fuel st e = (Ok (Some st'), e') →
  dps_by_talent_str st ⊆ dps_by_talent_str st'
  ∧ sim_log e `prefix_of` sim_log e'.
Proof.
  intros Hloop.
  pose proof (while_beam_updates config player locked fuel st e) as Hstep.
  rewrite Hloop in Hstep. simpl in Hstep. specialize (Hstep _ eq_refl).
  by apply step_grows in Hstep.
Qed.

Lemma memo_and_log_only_grow_witness :
  dps_by_talent_str pair_st0 ⊆ dps_by_talent_str pair_final
  ∧ sim_log pair_e0 `prefix_of` sim_log pair_loop.2.
Proof.
  apply (memo_and_log_only_grow (H := runtime) default_config player80
           locked_trees 3).
  apply (returned_some_eta pair_st0 pair_loop). by_computation.
Defined.

(** X13: with a beam width that is not negative, the beam at the head of
    every iteration is no longer than the beam width, or than the beam
    with which the loop was entered. *)
Theorem beam_stays_within_width `{Runtime}
    config player locked st0 e0 st e :
  0 ≤ beam_width config →
  at_loop_head config player locked st0 e0 st e →
  (length (beam st)
   ≤ length (beam st0) `max` Z.to_nat (beam_width config))%nat.
Proof.
  intros Hw. induction 1 as [|st e st' e' _ IH _ Hiter]; [lia|].
  pose proof (iterate_updates config player locked st e) as Hstep.
  rewrite Hiter in Hstep. simpl in Hstep.
  by apply (step_width _ (length (beam st0)) _ _ Hw Hstep).
Qed.

Lemma beam_stays_within_width_witness :
  (length (beam pair_st1)
   ≤ length (beam pair_st0) `max` Z.to_nat (beam_width default_config))%nat.
Proof.
  apply (beam_stays_within_width (H := runtime) default_config player80
           locked_trees pair_st0 pair_e0 pair_st1 pair_e1); [by_computation|].
  eapply at_loop_next; [apply at_loop_entry|by_computation|].
  apply (returned_continue_eta pair_st0
           (iterate default_config player80 locked_trees pair_st0 pair_e0)).
  by vm_compute.
Defined.

(** X14: when the seed allocation covers every gate threshold, over a
    template with unique gate ids in which every node lies in a listed
    gate, then so does the best tree the search returns, which is a
    well-formed allocation over the same template with the same budget and
    consistent gate totals. *)
Theorem returned_build_meets_thresholds `{Runtime}
    fuel config forest player locked block e res e' budget seed best :
  get_available_spec_talent_points player = Ok budget →
  skill_all_nodes (fresh_tree (spec_tree forest) budget)
    (blocked_spec_talents (default {| blocked_spec_talents := ∅ |} block))
  = Ok seed →
  gates_ok seed →
  thresholds_met seed →
  beam_search_optimal_talents fuel config forest player locked block e
  = (Ok (Some res), e') →
  best_tree_result res = Some best →
  ∃ t, best_spec_tree_result best = TreeProvider t
       ∧ _tree_template t = spec_tree forest
       ∧ _max_points_available t = budget
       ∧ wf_tree t
       ∧ gate_totals_consistent t
       ∧ thresholds_met t.
Proof.
  intros Hbudget Hskill Hok Hmet
    (st0 & e0 & st & Hseed & Hloop & ->)%beam_search_inv Hbest.
  apply seed_search_inv in Hseed
    as (budget' & tree & s0 & input0 & out0 & Hbudget' & Hskill' & _ & _ & _
        & _ & ->).
  assert (budget' = budget) as -> by congruence.
  assert (tree = seed) as -> by congruence.
  set (P := λ t, wf_tree t ∧ gates_ok t ∧ gate_totals_consistent t
                 ∧ thresholds_met t
                 ∧ _tree_template t = spec_tree forest
                 ∧ _max_points_available t = budget).
  pose proof (while_beam_updates config player (default no_locked_trees locked)
                fuel (initial_locals seed s0 (dps out0)) e0) as Hstep.
  rewrite Hloop in Hstep. simpl in Hstep. specialize (Hstep _ eq_refl).
  apply (step_all_trees _ P) in Hstep as (_ & _ & HP).
  - simpl in *.
    destruct (locked_class_tree _); [|done].
    destruct (best_tree_so_far st) as [t|]; [|done].
    destruct (locked_hero_tree _); [|done].
    injection Hbest as <-. destruct HP as (? & ? & ? & ? & ? & ?).
    by exists t.
  - intros t nid c t1 t' (Hwf & Hok' & Hcons & Hmet' & Htpl & Hmax) Hcan
      Hcopy Hdec.
    rewrite copy_Ok in Hcopy by done. injection Hcopy as <-.
    destruct (accepted_decrement_thresholds t nid c Hwf Hok' Hcons Hmet' Hcan)
      as (t'' & Hdec' & ? & ? & ? & ? & ? & ?).
    assert (t'' = t') as -> by congruence.
    split_and!; [done..|congruence|congruence].
  - destruct (seed_tree_spec (spec_tree forest) budget
                (blocked_spec_talents
                   (default {| blocked_spec_talents := ∅ |} block)))
      as (seed' & Hskill'' & Hwf & Hcons & Hmax & _).
    assert (seed' = seed) as -> by congruence.
    destruct (skill_all_nodes_spec (fresh_tree (spec_tree forest) budget)
                (blocked_spec_talents
                   (default {| blocked_spec_talents := ∅ |} block)))
      as (seed' & Hskill3 & Htpl & _);
      [apply fresh_tree_wf|apply fresh_tree_unblocked_zero|].
    assert (seed' = seed) as -> by congruence.
    split_and!; simpl; [|done..]. by apply Forall_singleton.
Qed.

Lemma returned_build_meets_thresholds_witness :
  ∃ t, best_spec_tree_result tall_best = TreeProvider t
       ∧ _tree_template t = spec_tree tall_forest
       ∧ _max_points_available t = 30
       ∧ wf_tree t
       ∧ gate_totals_consistent t
       ∧ thresholds_met t.
Proof.
  apply (returned_build_meets_thresholds (H := runtime) 6 default_config
           tall_forest player80 (Some locked_trees) (Some no_blocks)
           (start (H := runtime) ()) tall_result tall_search.2 30
           (seeded (spec_tree tall_forest) 30 ∅) tall_best);
    [by vm_compute|by vm_compute|by_computation|by_computation| |].
  - apply (returned_some_eta (search_result locked_trees pair_st0)
             tall_search).
    by_computation.
  - apply Some_eta. by_computation.
Defined.

(** ** The converter: gates, rows and talent names *)

Lemma sorted_length {A K} (le : K → K → bool) (key : A → K) l :
  length (sorted le key l) = length l.
Proof. apply Permutation_length, sorted_Permutation. Qed.

Lemma gates_loop acc (l : list RowCheckpoint) :
  let f := λ (gates : list Gate) checkpoint,
    gates ++ [ {| Gate.gate_id := Z.of_nat (length gates);
                  Gate.points_required_below :=
                    RowCheckpoint.points checkpoint |} ] in
  Gate.gate_id <$> foldl f acc l
  = (Gate.gate_id <$> acc) ++ (Z.of_nat <$> seq (length acc) (length l))
  ∧ Gate.points_required_below <$> foldl f acc l
    = (Gate.points_required_below <$> acc) ++ (RowCheckpoint.points <$> l).
Proof.
  intros f. revert acc. induction l as [|c l IH]; intros acc; simpl.
  - by rewrite !(right_id_L [] (++)).
  - destruct (IH (f acc c)) as [-> ->]. unfold f.
    rewrite !fmap_app, length_app. simpl.
    rewrite <- !(assoc_L (++)). simpl.
    by replace (length acc + 1)%nat with (S (length acc)) by lia.
Qed.

Lemma mapper_loop self (l : list RowCheckpoint) :
  let g := λ self checkpoint,
    {| _RowToGateMapper._row_cutoffs :=
         _RowToGateMapper._row_cutoffs self
         ++ [(RowCheckpoint.row checkpoint,
              Z.of_nat (length (_RowToGateMapper._row_cutoffs self)) + 1)];
       _RowToGateMapper.max_gate_id :=
         Some (Z.of_nat (length (_RowToGateMapper._row_cutoffs self)) + 1) |} in
  _RowToGateMapper._row_cutoffs (foldl g self l)
  = _RowToGateMapper._row_cutoffs self
    ++ numbered (length (_RowToGateMapper._row_cutoffs self)) l
  ∧ _RowToGateMapper.max_gate_id (foldl g self l)
    = match l with
      | [] => _RowToGateMapper.max_gate_id self
      | _ => Some (Z.of_nat (length (_RowToGateMapper._row_cutoffs self)
                             + length l))
      end.
Proof.
  intros g. revert self. induction l as [|c l IH]; intros self; simpl.
  - by rewrite (right_id_L [] (++)).
  - destruct (IH (g self c)) as [-> ->]. unfold g. simpl.
    rewrite length_app. simpl. rewrite <- (assoc_L (++)). simpl.
    replace (length (_RowToGateMapper._row_cutoffs self) + 1)%nat
      with (S (length (_RowToGateMapper._row_cutoffs self))) by lia.
    split; [done|]. destruct l; f_equal; simpl; lia.
Qed.

Lemma first_cutoff_numbered row k (l : list RowCheckpoint) :
  StronglySorted (λ a b, RowCheckpoint.row a ≤ RowCheckpoint.row b) l →
  _RowToGateMapper.first_cutoff row (numbered k l)
  = let m := length (filter (λ c, RowCheckpoint.row c ≤ row) l) in
    if decide (m = length l) then None else Some (Z.of_nat (k + m)).
Proof.
  revert k. induction l as [|c l IH]; intros k Hsorted; [done|].
  apply StronglySorted_inv in Hsorted as [Hsorted Hc].
  cbn [numbered _RowToGateMapper.first_cutoff]. cbv zeta.
  destruct (decide (row < RowCheckpoint.row c)) as [Hrow|Hrow].
  - rewrite filter_cons_False by lia.
    rewrite (filter_none (λ c', RowCheckpoint.row c' ≤ row)).
    + rewrite decide_False by (simpl; lia). f_equal. simpl. lia.
    + eapply Forall_impl; [exact Hc|]. intros c' Hc'. simpl in *. lia.
  - rewrite filter_cons_True by lia. rewrite (IH (S k) Hsorted). cbv zeta.
    cbn [length].
    destruct (decide (length (filter (λ c0, RowCheckpoint.row c0 ≤ row) l)
                      = length l)) as [Heq|Hne].
    + by rewrite decide_True by lia.
    + rewrite decide_False by lia. f_equal. lia.
Qed.

Lemma count_le_length {A} (P : A → Prop) `{∀ x, Decision (P x)} (l : list A) :
  (length (filter P l) ≤ length l)%nat.
Proof. apply length_filter. Qed.

Lemma _convert_checkpoints_ids checkpoints :
  Gate.gate_id <$> gates (_convert_checkpoints checkpoints)
  = Z.of_nat <$> seq 0 (S (length checkpoints)).
Proof.
  unfold _convert_checkpoints. simpl.
  destruct (gates_loop
              [{| Gate.gate_id := 0; Gate.points_required_below := 0 |}]
              (sorted Z.leb RowCheckpoint.row checkpoints)) as [-> _].
  by rewrite sorted_length.
Qed.

(** X15: the gates made from the checkpoints are numbered 0, 1, ..., one
    more than there are checkpoints; gate 0 needs no point, and the gates
    after it need the points of the checkpoints, taken in ascending order
    of their rows. *)
Theorem checkpoints_become_numbered_gates checkpoints :
  ∃ sorted_checkpoints,
    sorted_checkpoints ≡ₚ checkpoints
    ∧ StronglySorted (λ a b, RowCheckpoint.row a ≤ RowCheckpoint.row b)
        sorted_checkpoints
    ∧ Gate.gate_id <$> gates (_convert_checkpoints checkpoints)
      = Z.of_nat <$> seq 0 (S (length checkpoints))
    ∧ Gate.points_required_below <$> gates (_convert_checkpoints checkpoints)
      = 0 :: (RowCheckpoint.points <$> sorted_checkpoints).
Proof.
  exists (sorted Z.leb RowCheckpoint.row checkpoints).
  split_and!; [apply sorted_Permutation|apply sorted_StronglySorted|..].
  - apply _convert_checkpoints_ids.
  - unfold _convert_checkpoints. simpl.
    by destruct (gates_loop
                   [{| Gate.gate_id := 0; Gate.points_required_below := 0 |}]
                   (sorted Z.leb RowCheckpoint.row checkpoints)) as [_ ->].
Qed.

Lemma map_new checkpoints row :
  _RowToGateMapper.map (_RowToGateMapper.new checkpoints) row
  = if decide (checkpoints = []) then RaisesAttributeError
    else Returns (Z.of_nat (length (filter (λ c, RowCheckpoint.row c ≤ row)
                                      checkpoints))).
Proof.
  unfold _RowToGateMapper.map, _RowToGateMapper.new.
  set (l := sorted Z.leb RowCheckpoint.row checkpoints).
  destruct (mapper_loop
              {| _RowToGateMapper._row_cutoffs := [];
                 _RowToGateMapper.max_gate_id := None |} l) as [-> ->].
  simpl. rewrite first_cutoff_numbered by apply sorted_StronglySorted.
  assert (length (filter (λ c, RowCheckpoint.row c ≤ row) l)
          = length (filter (λ c, RowCheckpoint.row c ≤ row) checkpoints))
    as Hcount.
  { apply Permutation_length, filter_Permutation, sorted_Permutation. }
  assert (length l = length checkpoints) as Hlen by apply sorted_length.
  simpl. rewrite Hcount, Hlen.
  destruct (decide (checkpoints = [])) as [->|Hne]; [done|].
  case_decide as Hall; [|done].
  destruct l; [by destruct checkpoints|]. do 2 f_equal. simpl in *. lia.
Qed.

(** X16: a row is mapped to the number of checkpoints whose row is not
    above it, so to one of the gates made from the checkpoints; when there
    is no checkpoint, mapping a row raises [AttributeError]. *)
Theorem row_maps_to_gate checkpoints row :
  _RowToGateMapper.map (_RowToGateMapper.new checkpoints) row
  = (if decide (checkpoints = []) then RaisesAttributeError
     else Returns (Z.of_nat (length (filter (λ c, RowCheckpoint.row c ≤ row)
                                       checkpoints))))
  ∧ ∀ g, _RowToGateMapper.map (_RowToGateMapper.new checkpoints) row
         = Returns g →
         g ∈ Gate.gate_id <$> gates (_convert_checkpoints checkpoints).
Proof.
  split; [apply map_new|]. rewrite map_new. intros g.
  case_decide; [done|]. intros [= <-].
  rewrite _convert_checkpoints_ids.
  apply list_elem_of_fmap_2, elem_of_seq.
  pose proof (count_le_length (λ c, RowCheckpoint.row c ≤ row) checkpoints).
  lia.
Qed.

Lemma row_maps_to_gate_witness :
  1 ∈ Gate.gate_id <$> gates (_convert_checkpoints two_checkpoints).
Proof.
  destruct (row_maps_to_gate two_checkpoints 4) as [_ Hin].
  apply Hin. by vm_compute.
Defined.

(** *** Talent names *)

Lemma code_point_ascii_of_N (c : Z) :
  0 ≤ c < 256 → code_point (ascii_of_N (Z.to_N c)) = c.
Proof.
  intros Hc. unfold code_point. rewrite N_ascii_embedding; lia.
Qed.

(** Joining characters below 256 loses nothing. *)
Lemma code_points_join_chars sb :
  Forall (λ c, 0 ≤ c < 256) sb → code_points (join_chars sb) = sb.
Proof.
  intros Hsb. unfold code_points, join_chars.
  rewrite String.list_ascii_of_string_of_list_ascii.
  induction Hsb as [|c sb Hc _ IH]; [done|].
  rewrite !fmap_cons. by rewrite code_point_ascii_of_N, IH.
Qed.

Lemma length_string_of_list_ascii l :
  String.length (String.string_of_list_ascii l) = length l.
Proof. induction l as [|c l IH]; simpl; [done|]. by rewrite IH. Qed.

Lemma length_join_chars sb : String.length (join_chars sb) = length sb.
Proof.
  unfold join_chars. by rewrite length_string_of_list_ascii, length_fmap.
Qed.

Section talent_name_facts.
Context (isspace : Z → bool).

Local Abbreviation name_step := (append_char isspace).
Local Abbreviation letter_or_underscore :=
  (λ c : Z, code_point "a" ≤ c ≤ code_point "z" ∨ c = code_point "_").

Lemma name_loop_chars sb l :
  Forall letter_or_underscore sb →
  Forall letter_or_underscore (foldl name_step sb l).
Proof.
  revert sb. induction l as [|char l IH]; intros sb Hsb; simpl; [done|].
  apply IH. unfold append_char, ord. repeat case_decide.
  - apply Forall_app. split; [done|]. apply Forall_singleton. by left.
  - apply Forall_app. split; [done|]. apply Forall_singleton. left.
    change (code_point "A") with 65 in *.
    change (code_point "Z") with 90 in *.
    change (code_point "a") with 97 in *.
    change (code_point "z") with 122 in *. lia.
  - destruct (isspace char); [|done].
    apply Forall_app. split; [done|]. apply Forall_singleton. by right.
Qed.

Lemma name_loop_lowercase sb l :
  Forall (λ c, code_point "a" ≤ c ≤ code_point "z") l →
  foldl name_step sb l = sb ++ l.
Proof.
  revert sb. induction l as [|char l IH]; intros sb Hl; simpl.
  - by rewrite (right_id_L [] (++)).
  - apply Forall_cons in Hl as [Hchar Hl]. rewrite IH by done.
    unfold append_char, ord. rewrite decide_True by done.
    by rewrite <- (assoc_L (++)).
Qed.

Lemma name_loop_length sb l :
  (length (foldl name_step sb l) ≤ length sb + length l)%nat.
Proof.
  revert sb. induction l as [|char l IH]; intros sb; simpl; [lia|].
  etrans; [apply IH|]. unfold append_char.
  repeat case_decide; try destruct (isspace char);
    rewrite ?length_app; simpl; lia.
Qed.
End talent_name_facts.

(** X17: whatever characters count as whitespace, and whatever characters
    the name holds, a converted talent name consists of the letters
    [a]..[z] and underscores only and has no more characters than the
    name; a name of letters [a]..[z] is left as it is. *)
Theorem converted_talent_name_is_normalized (isspace : Z → bool)
    (name : list Z) :
  Forall (λ c, code_point "a" ≤ c ≤ code_point "z" ∨ c = code_point "_")
    (code_points (_convert_talent_name isspace name))
  ∧ (String.length (_convert_talent_name isspace name) ≤ length name)%nat
  ∧ (Forall (λ c, code_point "a" ≤ c ≤ code_point "z") name →
     code_points (_convert_talent_name isspace name) = name).
Proof.
  unfold _convert_talent_name.
  pose proof (name_loop_chars isspace [] name (Forall_nil_2 _)) as Hchars.
  assert (Forall (λ c, 0 ≤ c < 256) (foldl (append_char isspace) [] name))
    as Hsmall.
  { eapply Forall_impl; [exact Hchars|]. intros c. simpl.
    change (code_point "a") with 97. change (code_point "z") with 122.
    change (code_point "_") with 95. lia. }
  split_and!.
  - by rewrite code_points_join_chars.
  - rewrite length_join_chars. apply (name_loop_length isspace []).
  - intros Hlow. rewrite code_points_join_chars by done.
    by rewrite name_loop_lowercase.
Qed.

Lemma converted_talent_name_is_normalized_witness :
  Forall (λ c, code_point "a" ≤ c ≤ code_point "z" ∨ c = code_point "_")
    (code_points (_convert_talent_name em_space void_ray))
  ∧ (String.length (_convert_talent_name em_space void_ray)
     ≤ length void_ray)%nat
  ∧ code_points (_convert_talent_name em_space (code_points "voidray"))
    = code_points "voidray"
  ∧ _convert_talent_name em_space void_ray = "void_ray".
Proof.
  destruct (converted_talent_name_is_normalized em_space void_ray)
    as (Hchars & Hlen & _).
  destruct (converted_talent_name_is_normalized em_space
              (code_points "voidray")) as (_ & _ & Hlow).
  split_and!; [done..| |by vm_compute]. apply Hlow. by_computation.
Defined.

(** ** The converter: nodes and links *)

Lemma links_of_cons iv spec_nodes :
  links_of (iv :: spec_nodes)
  = ((λ pid, (_iv_node_to_node_id (SpecNode.id iv), _iv_node_to_node_id pid))
       <$> SpecNode.previous_node_ids iv)
    ++ links_of spec_nodes.
Proof. done. Qed.

Lemma for_each_outcome_cons {A S} (f : A → S → outcome S) x l s :
  for_each f (x :: l) s = f x s ≫= for_each f l.
Proof. done. Qed.

Lemma elem_of_dict_keys_set {V} k (v : V) d x :
  x ∈ dict_keys (dict_set k v d) ↔ x = k ∨ x ∈ dict_keys d.
Proof.
  rewrite <- !dict_get_is_Some, dict_get_set.
  destruct (decide (k = x)) as [->|Hne].
  - split; [by left|]. intros _. by eexists.
  - split; [by right|]. by intros [?|?]; [congruence|].
Qed.

Section links.
Context (G : Z → Prop).

Lemma link_Raises d cid pid :
  _iv_node_to_node_id pid ∉ dict_keys d →
  link cid pid d = Raises KeyError.
Proof. intros Hp%dict_get_None. unfold link, dict_item'. by rewrite Hp. Qed.

Lemma filter_link_child (c p a : string) :
  (filter (λ l : string * string, l.1 = a) [(c, p)]).*2
  = if decide (c = a) then [p] else [].
Proof.
  rewrite filter_cons, filter_nil. simpl. by destruct (decide (c = a)).
Qed.

Lemma filter_link_parent (c p a : string) :
  (filter (λ l : string * string, l.2 = a) [(c, p)]).*1
  = if decide (p = a) then [c] else [].
Proof.
  rewrite filter_cons, filter_nil. simpl. by destruct (decide (p = a)).
Qed.

Lemma link_Returns links d cid pid :
  linked G links d →
  cid ∈ dict_keys d →
  _iv_node_to_node_id pid ∈ dict_keys d →
  ∃ d', link cid pid d = Returns d'
        ∧ dict_keys d' = dict_keys d
        ∧ linked G (links ++ [(cid, _iv_node_to_node_id pid)]) d'.
Proof.
  intros Hl Hc Hp. unfold link, dict_item'.
  generalize dependent (_iv_node_to_node_id pid). intros ppid Hp.
  pose proof Hp as [parent Hparent]%dict_get_is_Some.
  pose proof Hc as [child Hchild]%dict_get_is_Some.
  rewrite Hparent. simpl. rewrite dict_get_set.
  destruct (Hl _ _ Hparent) as (Hpid & HpG & Hpp & Hpc).
  destruct (Hl _ _ Hchild) as (Hcid & HcG & Hcp & Hcc).
  destruct (decide (ppid = cid)) as [Heq|Hne]; simpl.
  - eexists. split; [done|]. split.
    { rewrite !dict_keys_set_present; [done..|].
      by rewrite dict_keys_set_present. }
    intros a na. rewrite !dict_get_set. rewrite !filter_app, !fmap_app.
    rewrite filter_link_child, filter_link_parent.
    destruct (decide (cid = a)) as [Ha|Ha].
    + intros [= <-]. simpl. rewrite decide_True by congruence.
      split_and!;
        [congruence|done|by rewrite Hpp, Heq, Ha|by rewrite Hpc, Heq, Ha].
    + rewrite !decide_False by congruence. intros Hna.
      destruct (Hl _ _ Hna) as (? & ? & -> & ->).
      by rewrite !(right_id_L [] (++)).
  - rewrite Hchild. simpl. eexists. split; [done|]. split.
    { rewrite !dict_keys_set_present; [done..|].
      by rewrite dict_keys_set_present. }
    intros a na. rewrite !dict_get_set. rewrite !filter_app, !fmap_app.
    rewrite filter_link_child, filter_link_parent.
    destruct (decide (cid = a)) as [Ha|Ha].
    + intros [= <-]. simpl. rewrite decide_False by congruence.
      rewrite (right_id_L [] (++)).
      split_and!; [congruence|done|by rewrite Hcp, Ha|by rewrite Hcc, Ha].
    + destruct (decide (ppid = a)) as [Ha'|Ha'].
      * intros [= <-]. simpl. rewrite (right_id_L [] (++)).
        split_and!; [congruence|done|by rewrite Hpp, Ha'|by rewrite Hpc, Ha'].
      * intros Hna. destruct (Hl _ _ Hna) as (? & ? & -> & ->).
        by rewrite !(right_id_L [] (++)).
Qed.

Lemma links_Returns links d cid pids :
  linked G links d →
  cid ∈ dict_keys d →
  Forall (λ pid, _iv_node_to_node_id pid ∈ dict_keys d) pids →
  ∃ d', for_each (link cid) pids d = Returns d'
        ∧ dict_keys d' = dict_keys d
        ∧ linked G
            (links ++ ((λ pid, (cid, _iv_node_to_node_id pid)) <$> pids)) d'.
Proof.
  revert links d. induction pids as [|pid pids IH]; intros links d Hl Hc Hp.
  { simpl. exists d. by rewrite (right_id_L [] (++)). }
  apply Forall_cons in Hp as [Hpid Hp].
  destruct (link_Returns links d cid pid Hl Hc Hpid) as (d1 & H1 & Hk1 & Hl1).
  destruct (IH _ d1 Hl1) as (d' & H' & Hk' & Hl'); [by rewrite Hk1..|].
  exists d'. simpl. rewrite H1. simpl. split; [done|].
  split; [congruence|]. by rewrite <- (assoc_L (++)) in Hl'.
Qed.

Lemma links_Raises links d cid pids :
  linked G links d →
  cid ∈ dict_keys d →
  ¬ Forall (λ pid, _iv_node_to_node_id pid ∈ dict_keys d) pids →
  for_each (link cid) pids d = Raises KeyError.
Proof.
  revert links d. induction pids as [|pid pids IH]; intros links d Hl Hc Hp.
  { destruct Hp. constructor. }
  simpl. destruct (decide (_iv_node_to_node_id pid ∈ dict_keys d))
    as [Hpid|Hpid].
  - destruct (link_Returns links d cid pid Hl Hc Hpid)
      as (d1 & -> & Hk1 & Hl1). simpl.
    apply (IH _ d1 Hl1); [by rewrite Hk1|]. rewrite Hk1.
    intros Hall. apply Hp. by constructor.
  - by rewrite link_Raises.
Qed.

Lemma link_node_unfold iv d :
  _iv_node_to_node_id (SpecNode.id iv) ∈ dict_keys d →
  link_node iv d
  = for_each (link (_iv_node_to_node_id (SpecNode.id iv)))
      (SpecNode.previous_node_ids iv) d.
Proof.
  intros [n Hn]%dict_get_is_Some. unfold link_node, dict_item'.
  by rewrite Hn.
Qed.

Lemma nodes_Returns links d spec_nodes :
  linked G links d →
  Forall (λ iv, _iv_node_to_node_id (SpecNode.id iv) ∈ dict_keys d)
    spec_nodes →
  Forall (λ iv, Forall (λ pid, _iv_node_to_node_id pid ∈ dict_keys d)
                  (SpecNode.previous_node_ids iv)) spec_nodes →
  ∃ d', for_each link_node spec_nodes d = Returns d'
        ∧ dict_keys d' = dict_keys d
        ∧ linked G (links ++ links_of spec_nodes) d'.
Proof.
  revert links d.
  induction spec_nodes as [|iv spec_nodes IH]; intros links d Hl Hids Hp.
  { simpl. exists d. by rewrite (right_id_L [] (++)). }
  apply Forall_cons in Hids as [Hid Hids].
  apply Forall_cons in Hp as [Hpid Hp].
  destruct (links_Returns links d _ _ Hl Hid Hpid) as (d1 & H1 & Hk1 & Hl1).
  destruct (IH _ d1 Hl1) as (d' & H' & Hk' & Hl'); [by rewrite Hk1..|].
  exists d'. split_and!.
  - simpl. by rewrite link_node_unfold, H1.
  - congruence.
  - by rewrite links_of_cons, (assoc_L (++)).
Qed.

Lemma nodes_Raises links d spec_nodes :
  linked G links d →
  Forall (λ iv, _iv_node_to_node_id (SpecNode.id iv) ∈ dict_keys d)
    spec_nodes →
  ¬ Forall (λ iv, Forall (λ pid, _iv_node_to_node_id pid ∈ dict_keys d)
                    (SpecNode.previous_node_ids iv)) spec_nodes →
  for_each link_node spec_nodes d = Raises KeyError.
Proof.
  revert links d.
  induction spec_nodes as [|iv spec_nodes IH]; intros links d Hl Hids Hp.
  { destruct Hp. constructor. }
  apply Forall_cons in Hids as [Hid Hids].
  simpl. rewrite link_node_unfold by done.
  destruct (decide (Forall (λ pid, _iv_node_to_node_id pid ∈ dict_keys d)
                      (SpecNode.previous_node_ids iv))) as [Hpid|Hpid].
  - destruct (links_Returns links d _ _ Hl Hid Hpid)
      as (d1 & -> & Hk1 & Hl1). simpl.
    apply (IH _ d1 Hl1); [by rewrite Hk1|]. rewrite Hk1.
    intros Hall. apply Hp. by constructor.
  - by rewrite (links_Raises links).
Qed.
End links.

Section nodes.
Context (isspace : Z → bool).

Lemma new_node_Returns checkpoints iv :
  checkpoints ≠ [] →
  ∃ node,
    new_node isspace (_RowToGateMapper.new checkpoints) iv = Returns node
    ∧ node_id node = _iv_node_to_node_id (SpecNode.id iv)
    ∧ gate_id node ∈ Gate.gate_id <$> gates (_convert_checkpoints checkpoints)
    ∧ parent_nodes node = []
    ∧ child_nodes node = [].
Proof.
  intros Hne. unfold new_node. rewrite map_new, decide_False by done.
  eexists. split_and!; [done..| |done|done].
  rewrite _convert_checkpoints_ids. cbn [gate_id].
  apply list_elem_of_fmap_2, elem_of_seq.
  pose proof (count_le_length
                (λ c, RowCheckpoint.row c ≤ SpecNode.row iv) checkpoints).
  lia.
Qed.

Lemma add_nodes_Returns checkpoints spec_nodes d :
  let G := λ g, g ∈ Gate.gate_id <$> gates (_convert_checkpoints checkpoints) in
  checkpoints ≠ [] →
  linked G [] d →
  NoDup (dict_keys d) →
  ∃ d', for_each (add_node isspace (_RowToGateMapper.new checkpoints))
          spec_nodes d
        = Returns d'
        ∧ linked G [] d'
        ∧ NoDup (dict_keys d')
        ∧ ∀ k, k ∈ dict_keys d' ↔ k ∈ dict_keys d ∨ k ∈ ids_of spec_nodes.
Proof.
  intros G Hne. revert d.
  induction spec_nodes as [|iv spec_nodes IH]; intros d Hl Hnd.
  { exists d. split_and!; [done..|]. intros k. split; [by left|].
    by intros [?|[]%elem_of_nil]. }
  destruct (new_node_Returns checkpoints iv Hne)
    as (node & Hnode & Hid & Hgate & Hparents & Hchildren).
  destruct (IH (dict_set (node_id node) node d)) as (d' & H' & Hl' & Hnd' & Hk').
  - intros a na. rewrite dict_get_set. case_decide as Ha; [|by apply Hl].
    intros [= <-]. by rewrite Hparents, Hchildren.
  - by apply dict_set_NoDup.
  - exists d'. split_and!; [|done..|].
    { rewrite for_each_outcome_cons. unfold add_node.
      rewrite Hnode. exact H'. }
    intros k. rewrite Hk', elem_of_dict_keys_set.
    unfold ids_of. rewrite fmap_cons, elem_of_cons, Hid. tauto.
Qed.

Lemma add_nodes_Raises spec_nodes d :
  spec_nodes ≠ [] →
  for_each (add_node isspace (_RowToGateMapper.new [])) spec_nodes d
  = RaisesAttributeError.
Proof.
  destruct spec_nodes as [|iv spec_nodes]; [done|]. intros _.
  rewrite for_each_outcome_cons. unfold add_node, new_node.
  by rewrite map_new.
Qed.

Lemma _convert_spec_nodes_unfold spec_nodes checkpoints :
  _convert_spec_nodes isspace spec_nodes checkpoints
  = (node_id_to_node ←
       for_each (add_node isspace (_RowToGateMapper.new checkpoints))
         spec_nodes [];
     node_id_to_node ← for_each link_node spec_nodes node_id_to_node;
     mret (dict_values node_id_to_node)).
Proof. done. Qed.

(** What [_convert_spec_nodes] does, case by case. *)
Lemma _convert_spec_nodes_cases spec_nodes checkpoints :
  let G := λ g, g ∈ Gate.gate_id <$> gates (_convert_checkpoints checkpoints) in
  match _convert_spec_nodes isspace spec_nodes checkpoints with
  | Returns nodes =>
      (spec_nodes = [] ∨ checkpoints ≠ [])
      ∧ previous_known spec_nodes
      ∧ ∃ d, nodes = dict_values d
             ∧ NoDup (dict_keys d)
             ∧ (∀ k, k ∈ dict_keys d ↔ k ∈ ids_of spec_nodes)
             ∧ linked G (links_of spec_nodes) d
  | Raises e =>
      e = KeyError ∧ checkpoints ≠ [] ∧ ¬ previous_known spec_nodes
  | RaisesAttributeError => spec_nodes ≠ [] ∧ checkpoints = []
  end.
Proof.
  intros G. rewrite _convert_spec_nodes_unfold.
  destruct (decide (spec_nodes = [])) as [->|Hnodes].
  { simpl. split_and!; [by left|constructor|]. exists [].
    split_and!; [done|constructor|done|]. by intros a na. }
  destruct (decide (checkpoints = [])) as [->|Hne].
  { by rewrite add_nodes_Raises. }
  destruct (add_nodes_Returns checkpoints spec_nodes [] Hne)
    as (d1 & -> & Hl1 & Hnd1 & Hk1); [by intros a na|constructor|].
  simpl.
  assert (∀ k, k ∈ dict_keys d1 ↔ k ∈ ids_of spec_nodes) as Hkeys.
  { intros k. rewrite Hk1. split; [|by right].
    by intros [[]%elem_of_nil|?]. }
  assert (Forall (λ iv, _iv_node_to_node_id (SpecNode.id iv) ∈ dict_keys d1)
            spec_nodes) as Hids.
  { apply Forall_forall. intros iv Hiv. apply Hkeys.
    by apply (list_elem_of_fmap_2
                (λ iv_node, _iv_node_to_node_id (SpecNode.id iv_node))). }
  assert (previous_known spec_nodes
          ↔ Forall (λ iv, Forall (λ pid, _iv_node_to_node_id pid
                                         ∈ dict_keys d1)
                            (SpecNode.previous_node_ids iv)) spec_nodes)
    as Hknown.
  { unfold previous_known. apply Forall_iff. intros iv.
    apply Forall_iff. intros pid. by rewrite Hkeys. }
  destruct (decide (previous_known spec_nodes)) as [Hp|Hp].
  - destruct (nodes_Returns G [] d1 spec_nodes Hl1 Hids)
      as (d2 & -> & Hk2 & Hl2); [by apply Hknown|].
    simpl. split_and!; [by right|done|].
    exists d2. rewrite Hk2. by split_and!.
  - rewrite (nodes_Raises G [] d1); [done..|]. by rewrite <- Hknown.
Qed.
End nodes.

(** ** The converted forest *)

Lemma elem_of_links_of l spec_nodes :
  l ∈ links_of spec_nodes
  ↔ ∃ iv pid, iv ∈ spec_nodes
              ∧ pid ∈ SpecNode.previous_node_ids iv
              ∧ l = (_iv_node_to_node_id (SpecNode.id iv),
                     _iv_node_to_node_id pid).
Proof.
  unfold links_of. rewrite list_elem_of_bind. split.
  - intros (iv & (pid & -> & Hpid)%list_elem_of_fmap & Hiv). by exists iv, pid.
  - intros (iv & pid & Hiv & Hpid & ->). exists iv. split; [|done].
    apply list_elem_of_fmap. by exists pid.
Qed.

Lemma links_of_known l spec_nodes :
  previous_known spec_nodes →
  l ∈ links_of spec_nodes →
  l.1 ∈ ids_of spec_nodes ∧ l.2 ∈ ids_of spec_nodes.
Proof.
  intros Hknown (iv & pid & Hiv & Hpid & ->)%elem_of_links_of. simpl. split.
  - by apply (list_elem_of_fmap_2
                (λ iv_node, _iv_node_to_node_id (SpecNode.id iv_node))).
  - unfold previous_known in Hknown. rewrite Forall_forall in Hknown.
    specialize (Hknown _ Hiv). rewrite Forall_forall in Hknown. by apply Hknown.
Qed.

Lemma convert_inv isspace spec forest :
  convert isspace spec = Returns forest →
  ∃ specialization nodes,
    _convert_spec_id (Spec.id spec) = Returns specialization
    ∧ _convert_spec_nodes isspace (dict_values (Spec.spec_nodes spec))
        (Spec.spec_checkpoints spec) = Returns nodes
    ∧ forest = {| spec := specialization;
                  spec_tree :=
                    {| gate_info :=
                         _convert_checkpoints (Spec.spec_checkpoints spec);
                       nodes := nodes |} |}.
Proof.
  unfold convert.
  destruct (_convert_spec_id _) as [specialization| |]; simpl; [|done..].
  destruct (_convert_spec_nodes _ _ _) as [nodes| |]; simpl; [|done..].
  intros [= <-]. by exists specialization, nodes.
Qed.

(** The nodes the converter returns: stored under distinct ids, the ids of
    the spec's nodes, and linked as the spec says. *)
Lemma converted_nodes isspace spec forest :
  convert isspace spec = Returns forest →
  let spec_nodes := dict_values (Spec.spec_nodes spec) in
  let G := λ g, g ∈ Gate.gate_id <$>
                      gates (_convert_checkpoints (Spec.spec_checkpoints spec)) in
  previous_known spec_nodes
  ∧ gate_info (spec_tree forest)
    = _convert_checkpoints (Spec.spec_checkpoints spec)
  ∧ ∃ d, nodes (spec_tree forest) = dict_values d
         ∧ node_id <$> dict_values d = dict_keys d
         ∧ NoDup (dict_keys d)
         ∧ (∀ k, k ∈ dict_keys d ↔ k ∈ ids_of spec_nodes)
         ∧ ∀ n, n ∈ dict_values d →
             G (gate_id n)
             ∧ parent_nodes n
               = (filter (λ l, l.1 = node_id n) (links_of spec_nodes)).*2
             ∧ child_nodes n
               = (filter (λ l, l.2 = node_id n) (links_of spec_nodes)).*1.
Proof.
  intros (specialization & nodes & _ & Hnodes & ->)%convert_inv spec_nodes G.
  pose proof (_convert_spec_nodes_cases isspace spec_nodes
                (Spec.spec_checkpoints spec)) as Hcases.
  fold spec_nodes in Hnodes. rewrite Hnodes in Hcases.
  destruct Hcases as (_ & Hknown & d & -> & Hnd & Hkeys & Hl).
  split; [done|]. split; [done|]. exists d. simpl.
  assert (∀ k n, (k, n) ∈ d → node_id n = k) as Hid.
  { intros k n Hin. by destruct (Hl k n (elem_of_dict_get _ _ _ Hnd Hin)). }
  split_and!; [done| |done|done|].
  - unfold dict_values, dict_keys. rewrite <- list_fmap_compose.
    apply list_fmap_ext. intros i [k n] Hi. simpl.
    apply Hid. by eapply list_elem_of_lookup_2.
  - intros n ([k n'] & -> & Hin)%list_elem_of_fmap. simpl.
    destruct (Hl k n' (elem_of_dict_get _ _ _ Hnd Hin)) as (-> & ? & ? & ?).
    done.
Qed.

Lemma converted_closed_template isspace spec forest :
  convert isspace spec = Returns forest → closed_template (spec_tree forest).
Proof.
  intros (Hknown & _ & d & Hnodes & Hids & Hnd & Hkeys & Hn)%converted_nodes.
  unfold closed_template. rewrite Hnodes, Hids.
  apply Forall_forall. intros n Hin. destruct (Hn n Hin) as (_ & -> & ->).
  apply Forall_app. split; apply Forall_forall; intros r
    ([c p] & -> & [_ Hl]%list_elem_of_filter)%list_elem_of_fmap;
    apply Hkeys; by destruct (links_of_known _ _ Hknown Hl).
Qed.

Lemma converted_mirrored_template isspace spec forest :
  convert isspace spec = Returns forest → mirrored_template (spec_tree forest).
Proof.
  intros (Hknown & _ & d & Hnodes & Hids & Hnd & Hkeys & Hn)%converted_nodes.
  unfold mirrored_template. rewrite Hnodes. intros a b Ha Hb.
  destruct (Hn a Ha) as (_ & _ & ->). destruct (Hn b Hb) as (_ & -> & _).
  rewrite !list_elem_of_fmap. split.
  - intros ([c p] & -> & [Hc Hl]%list_elem_of_filter). simpl in *.
    exists (c, p). split; [done|]. by apply list_elem_of_filter.
  - intros ([c p] & -> & [Hp Hl]%list_elem_of_filter). simpl in *.
    exists (c, p). split; [done|]. by apply list_elem_of_filter.
Qed.

(** X18: a forest the converter returns has nodes with distinct ids whose
    parent and child lists name nodes of the forest only, and gates with
    distinct ids among which the gate of every node is found. *)
Theorem converted_forest_is_closed isspace spec forest :
  convert isspace spec = Returns forest →
  NoDup (node_id <$> nodes (spec_tree forest))
  ∧ closed_template (spec_tree forest)
  ∧ NoDup (Gate.gate_id <$> gates (gate_info (spec_tree forest)))
  ∧ Forall (λ n, gate_id n
                 ∈ Gate.gate_id <$> gates (gate_info (spec_tree forest)))
      (nodes (spec_tree forest)).
Proof.
  intros Hconv. pose proof (converted_closed_template _ _ _ Hconv) as Hclosed.
  destruct (converted_nodes _ _ _ Hconv)
    as (Hknown & Hgates & d & Hnodes & Hids & Hnd & Hkeys & Hn).
  rewrite Hgates, Hnodes, Hids. split_and!; [done|done| |].
  - rewrite _convert_checkpoints_ids. apply (NoDup_fmap_2 _), NoDup_seq.
  - apply Forall_forall. intros n Hin. by destruct (Hn n Hin).
Qed.

Lemma converted_forest_is_closed_witness :
  NoDup (node_id <$> nodes (spec_tree small_forest))
  ∧ closed_template (spec_tree small_forest)
  ∧ NoDup (Gate.gate_id <$> gates (gate_info (spec_tree small_forest)))
  ∧ Forall (λ n, gate_id n
                 ∈ Gate.gate_id <$> gates (gate_info (spec_tree small_forest)))
      (nodes (spec_tree small_forest)).
Proof.
  apply (converted_forest_is_closed blank small_spec small_forest).
  by vm_compute.
Defined.

(** X19: in a forest the converter returns, the parents of a node are the
    previous nodes that the spec gives for its id, in order, and its
    children are the nodes for which the spec gives its id as a previous
    node; so a node is a parent of another exactly when the other is one
    of its children. *)
Theorem converted_links_follow_previous_nodes isspace spec forest :
  convert isspace spec = Returns forest →
  (∀ n, n ∈ nodes (spec_tree forest) →
     parent_nodes n
     = (filter (λ l, l.1 = node_id n)
          (links_of (dict_values (Spec.spec_nodes spec)))).*2
     ∧ child_nodes n
       = (filter (λ l, l.2 = node_id n)
            (links_of (dict_values (Spec.spec_nodes spec)))).*1)
  ∧ mirrored_template (spec_tree forest).
Proof.
  intros Hconv. split; [|by eapply converted_mirrored_template].
  destruct (converted_nodes _ _ _ Hconv)
    as (Hknown & _ & d & Hnodes & Hids & Hnd & Hkeys & Hn).
  rewrite Hnodes. intros n Hin. by destruct (Hn n Hin) as (_ & ? & ?).
Qed.

Lemma converted_links_follow_previous_nodes_witness :
  (∀ n, n ∈ nodes (spec_tree small_forest) →
     parent_nodes n
     = (filter (λ l, l.1 = node_id n)
          (links_of (dict_values (Spec.spec_nodes small_spec)))).*2
     ∧ child_nodes n
       = (filter (λ l, l.2 = node_id n)
            (links_of (dict_values (Spec.spec_nodes small_spec)))).*1)
  ∧ mirrored_template (spec_tree small_forest).
Proof.
  apply (converted_links_follow_previous_nodes blank small_spec small_forest).
  by vm_compute.
Defined.

(** X20: [convert] raises [ValueError] for a spec id other than 577, 581
    and 1480; for these ids it raises [AttributeError] when the spec has
    nodes but no checkpoint, [KeyError] when it has a checkpoint and some
    previous node id is not the id of a node, and returns a forest
    otherwise. *)
Theorem convert_outcomes isspace spec :
  let spec_nodes := dict_values (Spec.spec_nodes spec) in
  (Spec.id spec ∉ [577; 581; 1480] → convert isspace spec = Raises ValueError)
  ∧ (Spec.id spec ∈ [577; 581; 1480] →
     (spec_nodes ≠ [] → Spec.spec_checkpoints spec = [] →
      convert isspace spec = RaisesAttributeError)
     ∧ (Spec.spec_checkpoints spec ≠ [] → ¬ previous_known spec_nodes →
        convert isspace spec = Raises KeyError)
     ∧ (spec_nodes = [] ∨ Spec.spec_checkpoints spec ≠ [] →
        previous_known spec_nodes →
        ∃ forest, convert isspace spec = Returns forest)).
Proof.
  intros spec_nodes. unfold convert, _convert_spec_id. split.
  - intros Hid. rewrite !decide_False; [done|..];
      intros Heq; apply Hid; rewrite Heq, !elem_of_cons; auto.
  - intros Hid.
    assert (∃ s, (if decide (Spec.id spec = 577) then Returns HAVOC
                  else if decide (Spec.id spec = 581) then Returns VENGEANCE
                  else if decide (Spec.id spec = 1480) then Returns DEVOURER
                  else Raises ValueError) = Returns s) as [s ->].
    { repeat case_decide; eauto.
      rewrite !elem_of_cons, elem_of_nil in Hid. by destruct Hid as [|[|[|]]]. }
    simpl. fold spec_nodes.
    pose proof (_convert_spec_nodes_cases isspace spec_nodes
                  (Spec.spec_checkpoints spec)) as Hcases.
    destruct (_convert_spec_nodes _ _ _) as [nodes|x|]; simpl.
    + destruct Hcases as (Hsome & Hknown & _). split_and!.
      * intros ? ?. by destruct Hsome.
      * done.
      * by eauto.
    + destruct Hcases as (-> & Hsome & Hknown). split_and!; [done..|].
      done.
    + destruct Hcases as [Hnodes Hnone]. split_and!; [done|done|].
      by intros [?|?].
Qed.

Lemma convert_outcomes_witness :
  convert blank dangling_spec = Raises KeyError
  ∧ ∃ forest, convert blank small_spec = Returns forest.
Proof.
  split.
  - destruct (convert_outcomes blank dangling_spec) as (_ & Hknown).
    destruct Hknown as (_ & Hkey & _); [by_computation|].
    apply Hkey; by_computation.
  - destruct (convert_outcomes blank small_spec) as (_ & Hknown).
    destruct Hknown as (_ & _ & Hreturns); [by_computation|].
    apply Hreturns; [right|]; by_computation.
Defined.

(** ** From the converter to the search *)






(** X22: over a forest the converter returns, the search returns a result
    once the evaluation of the seed has succeeded, given fuel for
    [max (total - budget) 0 + 1] iterations. *)
Theorem search_over_converted_forest_returns `{Runtime}
    isspace spec forest fuel config player locked block w st0 e0 seed :
  convert isspace spec = Returns forest →
  seed_search forest player locked block (start w) = (Ok st0, e0) →
  beam st0 = [seed] →
  (Z.to_nat (Z.max (get_total_points_spent seed
                    - _max_points_available seed) 0 + 1) ≤ fuel)%nat →
  ∃ res e',
    beam_search_optimal_talents fuel config forest player
      (Some locked) (Some block) (start w)
    = (Ok (Some res), e').
Proof.
  intros Hconv Hseed Hbeam Hfuel.
  pose proof (converted_closed_template _ _ _ Hconv) as Hclosed.
  destruct (while_beam_returns fuel config forest player locked block w
              st0 e0 seed Hclosed Hseed Hbeam Hfuel) as (st & e' & Hloop).
  unfold beam_search_optimal_talents. cbv zeta. simpl default.
  destruct block as [blocked]. rewrite M_bind_unfold, Hseed.
  rewrite M_bind_unfold, Hloop. by eexists _, _.
Qed.

Lemma search_over_converted_forest_returns_witness :
  ∃ res e',
    beam_search_optimal_talents (H := runtime) 1 default_config small_forest
      player80 (Some locked_trees) (Some no_blocks) (start (H := runtime) ())
    = (Ok (Some res), e').
Proof.
  apply (search_over_converted_forest_returns (H := runtime) blank small_spec
           small_forest 1 default_config player80 locked_trees no_blocks ()
           small_st0 small_seed.2 small_tree).
  - by vm_compute.
  - apply (returned_eta (initial_locals (H := runtime) small_tree "" 0)
             small_seed).
    by_computation.
  - by vm_compute.
  - by_computation.
Defined.

(** ** Further facts about the record, the gate totals and the seed *)

(** X23: the talents record holds, in each slot, the argument when one is
    given and the locked tree otherwise; the call raises, and then
    [ValueError], exactly when some slot has neither. *)
Theorem talents_record_slots locked class_arg spec_arg hero_arg :
  match _make_talents_record locked class_arg spec_arg hero_arg with
  | Ok r =>
      or_else class_arg (locked_class_tree locked) = Some (class_talents r)
      ∧ or_else spec_arg (locked_spec_tree locked) = Some (spec_talents r)
      ∧ or_else hero_arg (locked_hero_tree locked) = Some (hero_talents r)
  | Raise e =>
      e = ValueError
      ∧ (or_else class_arg (locked_class_tree locked) = None
         ∨ or_else spec_arg (locked_spec_tree locked) = None
         ∨ or_else hero_arg (locked_hero_tree locked) = None)
  end.
Proof.
  unfold _make_talents_record.
  destruct class_arg, spec_arg, hero_arg,
    (locked_class_tree locked), (locked_spec_tree locked),
    (locked_hero_tree locked); simpl;
    repeat (case_decide as Hd; [try (by destruct Hd); simpl; by eauto|]);
    simpl; try done; by eauto.
Qed.

(** X24: on an allocation with consistent gate totals, over a template
    with unique gate ids in which every node lies in a listed gate, the
    stored totals of the gates add up to the total number of points
    spent. *)
Theorem gate_totals_add_up t :
  gates_ok t →
  gate_totals_consistent t →
  sum ((λ gate, gate_get (_spent_points_by_gate t) (Gate.gate_id gate)) <$>
         gates (gate_info (_tree_template t)))
  = get_total_points_spent t.
Proof.
  intros [Hnd Hall] Hcons.
  transitivity
    (sum ((λ g, points_in_gate (_selection_by_node_id t) g) <$>
            (Gate.gate_id <$> gates (gate_info (_tree_template t))))).
  { rewrite <- list_fmap_compose. f_equal. apply list_fmap_ext.
    intros _ gate _. simpl. apply Hcons. }
  rewrite sum_points_in_gate_ids by done.
  unfold get_total_points_spent. f_equal. apply Forall_fmap_ext.
  unfold dict_values. rewrite Forall_fmap.
  eapply Forall_impl; [exact Hall|]. intros [k s] Hs. simpl in *.
  by rewrite decide_True.
Qed.

Lemma gate_totals_add_up_witness :
  sum ((λ gate, gate_get (_spent_points_by_gate gated_tree)
                  (Gate.gate_id gate)) <$>
         gates (gate_info (_tree_template gated_tree)))
  = get_total_points_spent gated_tree.
Proof. apply gate_totals_add_up; by_computation. Defined.

Section within_budget.
Context `{Runtime}.

Lemma visit_within_budget config player locked tree st e s d :
  get_total_points_spent tree ≤ get_total_points_available tree →
  to_talent_string tree = Ok s →
  dps_by_talent_str st !! s = Some d →
  visit config player locked tree st e
  = (Ok (if float_lt (best_dps st) d
         then set_best tree d (add_candidate tree d st)
         else add_candidate tree d st), e).
Proof.
  intros Hvalid Hs Hd. unfold visit. rewrite decide_True by done.
  rewrite Hs, bind_lift_Ok, Hd. simpl. by destruct (float_lt _ _).
Qed.

Lemma iterate_within_budget config player locked tree st e s d :
  beam st = [tree] →
  get_total_points_spent tree ≤ get_total_points_available tree →
  to_talent_string tree = Ok s →
  dps_by_talent_str st !! s = Some d →
  ∃ st', iterate config player locked st e = (Ok (st', false), e)
         ∧ iteration st' = iteration st + 1
         ∧ dps_by_talent_str st' = dps_by_talent_str st
         ∧ (if float_lt (best_dps st) d
            then best_tree_so_far st' = Some tree ∧ best_dps st' = d
            else best_tree_so_far st' = best_tree_so_far st
                 ∧ best_dps st' = best_dps st).
Proof.
  intros Hbeam Hvalid Hs Hd. unfold iterate. fold (begin_iteration st).
  rewrite M_bind_unfold.
  replace (beam (begin_iteration st)) with [tree] by done.
  rewrite for_each_M_cons.
  rewrite (visit_within_budget _ _ _ _ _ _ s d) by done.
  simpl. destruct (float_lt (best_dps st) d); simpl; by eexists.
Qed.
End within_budget.

(** X25: when the seed allocation is within budget, the loop ends after
    one iteration without a further simulator invocation or shuffle; the
    memo table is unchanged; when the dps simulated for the seed is above
    zero the best tree is the seed and the best dps is that dps, otherwise
    there is no best tree and the best dps is zero. *)
Theorem seed_within_budget_is_final `{Runtime}
    fuel config forest player locked block e st0 e0 seed :
  seed_search forest player locked block e = (Ok st0, e0) →
  beam st0 = [seed] →
  get_total_points_spent seed ≤ get_total_points_available seed →
  ∃ st s d,
    while_beam config player locked (S fuel) st0 e0 = (Ok (Some st), e0)
    ∧ iteration st = 1
    ∧ dps_by_talent_str st = dps_by_talent_str st0
    ∧ to_talent_string seed = Ok s
    ∧ dps_by_talent_str st0 !! s = Some d
    ∧ (if float_lt float_zero d
       then best_tree_so_far st = Some seed ∧ best_dps st = d
       else best_tree_so_far st = None ∧ best_dps st = float_zero).
Proof.
  intros (budget & tree & s & input & out & _ & _ & _ & Hs & _ & _ & ->)
    %seed_search_inv Hbeam Hvalid.
  injection Hbeam as ->.
  destruct (iterate_within_budget config player locked seed
              (initial_locals seed s (dps out)) e0 s (dps out))
    as (st & Hiter & Hn & Hmemo & Hbest); [done..|apply lookup_singleton_eq|].
  exists st, s, (dps out). rewrite while_beam_unfold, decide_False by done.
  rewrite M_bind_unfold, Hiter. simpl in *.
  split_and!; [done|lia|done|done|apply lookup_singleton_eq|done].
Qed.

Lemma seed_within_budget_is_final_witness :
  ∃ st s d,
    while_beam (H := runtime) default_config player80 locked_trees 1
      (match single_seed.1 with
       | Ok st => st
       | Raise _ =>
           initial_locals (H := runtime) (seeded single_template 30 ∅) "" 0
       end) single_seed.2
    = (Ok (Some st), single_seed.2)
    ∧ iteration st = 1
    ∧ dps_by_talent_str st
      = dps_by_talent_str
          (match single_seed.1 with
           | Ok st => st
           | Raise _ =>
               initial_locals (H := runtime) (seeded single_template 30 ∅) ""
                 0
           end)
    ∧ to_talent_string (seeded single_template 30 ∅) = Ok s
    ∧ dps_by_talent_str
        (match single_seed.1 with
         | Ok st => st
         | Raise _ =>
             initial_locals (H := runtime) (seeded single_template 30 ∅) "" 0
         end) !! s = Some d
    ∧ (if float_lt (Runtime := runtime) float_zero d
       then best_tree_so_far st = Some (seeded single_template 30 ∅)
            ∧ best_dps st = d
       else best_tree_so_far st = None ∧ best_dps st = float_zero).
Proof.
  apply (seed_within_budget_is_final (H := runtime) 0 default_config
           {| spec := DEVOURER; spec_tree := single_template |}
           player80 locked_trees no_blocks (start (H := runtime) ())).
  - apply (returned_eta
             (initial_locals (H := runtime) (seeded single_template 30 ∅) "" 0)
             single_seed).
    by_computation.
  - by vm_compute.
  - by_computation.
Defined.
